(** * The write-behind cache of collectd's rrdtool plugin (src/rrdtool.c)

    A shallow embedding of the cache, the update queue, the flusher, the
    queue thread and the RRA synthesizer of [src/rrdtool.c], and the
    properties of the specification proved (or refuted) on it.

    Conventions of the embedding.
    - [time_t] and [int] values are mathematical integers ([Z]); the
      [int] products of [rra_get] and of [rrd_init] are wrapped to 32
      bits explicitly.
    - The AVL tree [cache] (utils_avltree, keyed by [strcmp]) is a
      [gmap string rrd_cache_t]; its iterator walks the keys in [strcmp]
      order.
    - Locks are not part of the state: each critical section is one
      atomic step of the transition system of Part I. The one return
      that leaves [cache_lock] locked (line 685, after a failed [malloc]
      of an entry) is told by [ie_malloc_rc]; the properties that say
      that the plugin gets something done are stated for runs without
      it.
    - The pair [(values, values_num)] of [struct rrd_cache_s] is one list:
      [values_num] is its length.  Each stored string is kept together with
      the [value_time] it was inserted with: the C array holds the string
      only, whose first field is that time.
    - Every call that may fail for lack of memory ([malloc], [realloc],
      [strdup]) and every read of the clock takes its outcome from an
      explicit environment record, so that all paths of the C code are
      reachable in the model.
    - The path synthesizer and the configuration callback of
      [src/rrdtool.c] and the sensor list of [src/ipmi.c] come last in
      the definitions; the functions of the C library and of OpenIPMI
      they call ([atoi], [atof], [ipmi_cmp_sensor_id]) are parameters. *)

From stdpp Require Import gmap strings list sorting.
From Stdlib Require Import ZArith Lia.

Local Open Scope Z_scope.

(** * Part I: the program *)

(** ** Private types *)

Inductive rrd_flags : Type := FLAG_NONE | FLAG_QUEUED.

#[global] Instance rrd_flags_eq_dec : EqDecision rrd_flags.
Proof. solve_decision. Defined.

(** One buffered update string, with the time stamp it was inserted with. *)
Definition rrd_value : Type := (Z * string)%type.

Record rrd_cache_t : Type := RrdCache {
  values      : list rrd_value;
  first_value : Z;
  last_value  : Z;
  flags       : rrd_flags
}.

Definition values_num (rc : rrd_cache_t) : Z := Z.of_nat (length (values rc)).

Definition set_flags (f : rrd_flags) (rc : rrd_cache_t) : rrd_cache_t :=
  {| values := values rc; first_value := first_value rc;
     last_value := last_value rc; flags := f |}.

(** The module-scope variables that the cache and the queue live in.
    [queue] is the linked list from [queue_head] to [queue_tail]. *)
Record rrd_state : Type := RrdState {
  cache               : gmap string rrd_cache_t;
  queue               : list string;
  do_shutdown         : bool;
  cache_timeout       : Z;
  cache_flush_timeout : Z;
  cache_flush_last    : Z
}.

Definition set_cache (c : gmap string rrd_cache_t) (s : rrd_state) : rrd_state :=
  {| cache := c; queue := queue s; do_shutdown := do_shutdown s;
     cache_timeout := cache_timeout s;
     cache_flush_timeout := cache_flush_timeout s;
     cache_flush_last := cache_flush_last s |}.

Definition set_queue (q : list string) (s : rrd_state) : rrd_state :=
  {| cache := cache s; queue := q; do_shutdown := do_shutdown s;
     cache_timeout := cache_timeout s;
     cache_flush_timeout := cache_flush_timeout s;
     cache_flush_last := cache_flush_last s |}.

Definition set_cache_flush_last (t : Z) (s : rrd_state) : rrd_state :=
  {| cache := cache s; queue := queue s; do_shutdown := do_shutdown s;
     cache_timeout := cache_timeout s;
     cache_flush_timeout := cache_flush_timeout s;
     cache_flush_last := t |}.

Definition set_do_shutdown (b : bool) (s : rrd_state) : rrd_state :=
  {| cache := cache s; queue := queue s; do_shutdown := b;
     cache_timeout := cache_timeout s;
     cache_flush_timeout := cache_flush_timeout s;
     cache_flush_last := cache_flush_last s |}.

(** ** rrd_queue_cache_entry *)

(** Outcome of the two allocations of [rrd_queue_cache_entry]:
    [malloc (sizeof (rrd_queue_t))] and [strdup (filename)]. *)
Record queue_alloc : Type := QueueAlloc {
  qa_entry    : bool;
  qa_filename : bool
}.

Definition rrd_queue_cache_entry (a : queue_alloc) (filename : string)
    (q : list string) : Z * list string :=
  if negb (qa_entry a) then (-1, q)
  else if negb (qa_filename a) then (-1, q)
  else (0, q ++ [filename]).

(** ** rrd_cache_flush *)

(** Modelled from the spec: utils_avltree.c is not among the sources at
    hand. The cache is the specification's mapping from file path to
    entry, [avl_get], [avl_insert] and [avl_remove] are lookup, insert
    and delete, and [avl_iterator_next] walks the keys in the order of the
    comparison function the tree was created with, [strcmp]. *)
Definition key_le (x y : string * rrd_cache_t) : Prop :=
  String.leb x.1 y.1 = true.

#[global] Instance key_le_dec : RelDecision key_le.
Proof. intros x y. unfold key_le. apply _. Defined.

Definition avl_iterate (c : gmap string rrd_cache_t)
  : list (string * rrd_cache_t) :=
  merge_sort key_le (map_to_list c).

(** What [rrd_cache_flush] reads from its environment: the clock, and for
    each key the outcome of the allocations made while it is visited. *)
Record flush_env : Type := FlushEnv {
  fe_now     : Z;
  fe_queue   : string → queue_alloc;
  fe_realloc : string → bool
}.

(** The variables of the first loop of [rrd_cache_flush]. [fl_failed] is
    set when [realloc] of [keys] fails, which makes the function return. *)
Record flush_loop : Type := FlushLoop {
  fl_cache  : gmap string rrd_cache_t;
  fl_queue  : list string;
  fl_keys   : list string;
  fl_failed : bool
}.

Definition flush_visit (timeout : Z) (fe : flush_env) (st : flush_loop)
    (kv : string * rrd_cache_t) : flush_loop :=
  let key := kv.1 in
  let rc := kv.2 in
  if fl_failed st then st
  else if decide (flags rc = FLAG_QUEUED) then st
  else if fe_now fe - first_value rc <? timeout then st
  else if 0 <? values_num rc then
    let r := rrd_queue_cache_entry (fe_queue fe key) key (fl_queue st) in
    if r.1 =? 0 then
      {| fl_cache := <[key := set_flags FLAG_QUEUED rc]> (fl_cache st);
         fl_queue := r.2; fl_keys := fl_keys st; fl_failed := false |}
    else st
  else if fe_realloc fe key then
    {| fl_cache := fl_cache st; fl_queue := fl_queue st;
       fl_keys := fl_keys st ++ [key]; fl_failed := false |}
  else
    {| fl_cache := fl_cache st; fl_queue := fl_queue st;
       fl_keys := fl_keys st; fl_failed := true |}.

Definition flush_scan (timeout : Z) (fe : flush_env) (st : flush_loop)
    (l : list (string * rrd_cache_t)) : flush_loop :=
  foldl (flush_visit timeout fe) st l.

(** The second loop: [avl_remove] of every collected key. The two
    assertions of lines 656 and 657 are not part of the model.
    [values_num == 0] holds of every key the first loop collects.
    [values == NULL] holds of an empty buffer unless [strdup] of a value
    failed on it (lines 722-726 leave the array allocated and empty), a
    state that the list [values] does not tell from the empty buffer:
    there the program aborts where the model removes the entry. The
    properties that say what a flush achieves are therefore stated for
    runs in which no [strdup] of a value has failed. *)
Definition flush_remove (c : gmap string rrd_cache_t) (keys : list string)
  : gmap string rrd_cache_t :=
  foldl (λ c key, delete key c) c keys.

Definition rrd_cache_flush (timeout : Z) (fe : flush_env) (s : rrd_state)
  : rrd_state :=
  let st := flush_scan timeout fe
              {| fl_cache := cache s; fl_queue := queue s;
                 fl_keys := []; fl_failed := false |}
              (avl_iterate (cache s)) in
  if fl_failed st then
    set_queue (fl_queue st) (set_cache (fl_cache st) s)
  else
    set_cache_flush_last (fe_now fe)
      (set_queue (fl_queue st)
         (set_cache (flush_remove (fl_cache st) (fl_keys st)) s)).

(** ** rrd_cache_insert *)

(** Outcome of the allocations of one call of [rrd_cache_insert], the
    clock it reads, and the environment of the flush it may start. *)
Record insert_env : Type := InsertEnv {
  ie_malloc_rc      : bool;
  ie_realloc_values : bool;
  ie_strdup_value   : bool;
  ie_strdup_key     : bool;
  ie_queue          : queue_alloc;
  ie_time           : Z;
  ie_flush          : flush_env
}.

(** The three ways [rrd_cache_insert] returns: [0], [-1] after the
    warning about the time stamp, [-1] after a failed allocation. *)
Inductive insert_result : Type :=
| InsertOk
| InsertNonMonotonic
| InsertAllocFailure.

#[global] Instance insert_result_eq_dec : EqDecision insert_result.
Proof. solve_decision. Defined.

Definition insert_status (r : insert_result) : Z :=
  match r with InsertOk => 0 | _ => -1 end.

Definition rc_fresh : rrd_cache_t :=
  {| values := []; first_value := 0; last_value := 0; flags := FLAG_NONE |}.

(** The entry the call works on: the one found by [avl_get], or the
    freshly allocated one. *)
Definition insert_entry (s : rrd_state) (filename : string) : rrd_cache_t :=
  default rc_fresh (cache s !! filename).

(** Lines 722-730: append the copy of [value] (unless [strdup] failed),
    then set the two time stamps. *)
Definition rc_append (strdup_ok : bool) (value : string) (value_time : Z)
    (rc : rrd_cache_t) : rrd_cache_t :=
  let vs := if strdup_ok then values rc ++ [(value_time, value)]
            else values rc in
  {| values := vs;
     first_value := if Z.of_nat (length vs) =? 1 then value_time
                    else first_value rc;
     last_value := value_time;
     flags := flags rc |}.

(** Lines 758-771: queue the file when the buffer spans [cache_timeout]. *)
Definition insert_enqueue (a : queue_alloc) (filename : string)
    (rc : rrd_cache_t) (s : rrd_state) : rrd_state :=
  if cache_timeout s <=? last_value rc - first_value rc then
    if decide (flags rc = FLAG_QUEUED) then s
    else
      let r := rrd_queue_cache_entry a filename (queue s) in
      if r.1 =? 0 then
        set_queue r.2
          (set_cache (<[filename := set_flags FLAG_QUEUED rc]> (cache s)) s)
      else s
  else s.

(** Lines 773-775. *)
Definition insert_flush (e : insert_env) (s : rrd_state) : rrd_state :=
  if (0 <? cache_timeout s)
     && (cache_flush_timeout s <? ie_time e - cache_flush_last s)
  then rrd_cache_flush (cache_flush_timeout s) (ie_flush e) s
  else s.

(** The whole function. An entry that is found is updated in place, a
    new one is put into the tree by [avl_insert] once the key is copied.
    When [realloc] fails, [avl_remove] takes the entry of the file out of
    the tree, if it is there. The return after a failed [malloc] of the
    entry (line 685) leaves [cache_lock] locked; the steps that would
    then block are still taken in the transition system below, which only
    adds runs to those the properties are proved for. *)
Definition rrd_cache_insert (filename value : string) (value_time : Z)
    (e : insert_env) (s : rrd_state) : insert_result * rrd_state :=
  let found := cache s !! filename in
  if bool_decide (found = None) && negb (ie_malloc_rc e) then
    (InsertAllocFailure, s)
  else
    let rc := default rc_fresh found in
    if value_time <=? last_value rc then (InsertNonMonotonic, s)
    else if negb (ie_realloc_values e) then
      (InsertAllocFailure, set_cache (delete filename (cache s)) s)
    else
      let rc' := rc_append (ie_strdup_value e) value value_time rc in
      if bool_decide (found = None) && negb (ie_strdup_key e) then
        (InsertAllocFailure, s)
      else
        let s1 := set_cache (<[filename := rc']> (cache s)) s in
        let s2 := insert_enqueue (ie_queue e) filename rc' s1 in
        (InsertOk, insert_flush e s2).

(** ** rrd_write_to_file *)

(** One call of [rrd_update]: the file and the strings handed over. *)
Definition rrd_update_call : Type := (string * list rrd_value)%type.

(** Returns the status and the call of [rrd_update] it made, if any.
    [argv_ok] is the outcome of [malloc] for [argv], [update_status] the
    value returned by [rrd_update]. *)
Definition rrd_write_to_file (argv_ok : bool) (update_status : Z)
    (filename : string) (vals : list rrd_value)
  : Z * list rrd_update_call :=
  if Z.of_nat (length vals) <? 1 then (0, [])
  else if negb argv_ok then (-1, [])
  else (if update_status =? 0 then 0 else -1, [(filename, vals)]).

(** ** rrd_queue_thread *)

(** How the critical section on [queue_lock] ends: still waiting on
    [queue_cond], with no entry ([break]), or with the head of the queue. *)
Inductive dequeue_result : Type :=
| DequeueWait
| DequeueNone
| DequeueEntry (filename : string) (rest : list string).

(** Lines 509-528: wait while the queue is empty and no shutdown is
    requested, leave the loop when the queue is empty, otherwise detach
    the head. *)
Definition queue_dequeue (q : list string) (shutdown : bool)
  : dequeue_result :=
  match q with
  | [] => if shutdown then DequeueNone else DequeueWait
  | filename :: rest => DequeueEntry filename rest
  end.

(** Lines 532-543, the critical section on [cache_lock]. [avl_get] leaves
    [cache_entry] untouched when the key is absent; the pointer is not
    initialised and is dereferenced without a test, which is undefined
    behaviour: [None]. *)
Definition queue_thread_take (filename : string)
    (c : gmap string rrd_cache_t)
  : option (list rrd_value * gmap string rrd_cache_t) :=
  match c !! filename with
  | None => None
  | Some rc =>
      Some (values rc,
            <[filename := {| values := []; first_value := first_value rc;
                             last_value := last_value rc;
                             flags := FLAG_NONE |}]> c)
  end.

(** Where the queue thread stands: at the top of its loop; holding a
    dequeued file name, before the critical section on [cache_lock];
    holding the buffer it took, before [rrd_write_to_file]; out of the
    loop, before [avl_destroy]; ended; or stopped by the undefined
    behaviour of [queue_thread_take]. *)
Inductive worker_pc : Type :=
| WorkerWait
| WorkerDequeued (filename : string)
| WorkerWrite (filename : string) (vals : list rrd_value)
| WorkerBreak
| WorkerExit
| WorkerFault.

(** ** The plugin as a transition system *)

Record rrd_system : Type := RrdSystem {
  sys_state   : rrd_state;
  sys_worker  : worker_pc;
  sys_updates : list rrd_update_call
}.

(** The atomic steps: each is one critical section of a producer
    ([rrd_cache_insert]), of [rrd_shutdown] (the flush, then the flag) or
    of the queue thread, or the call of [rrd_write_to_file] that the queue
    thread makes outside the locks. *)
Inductive label : Type :=
| LInsert (filename value : string) (value_time : Z) (e : insert_env)
| LShutdownFlush (fe : flush_env)
| LShutdownFlag
| LDequeue
| LTake
| LWrite (argv_ok : bool) (update_status : Z)
| LDestroy.

Definition set_state (s : rrd_state) (y : rrd_system) : rrd_system :=
  {| sys_state := s; sys_worker := sys_worker y;
     sys_updates := sys_updates y |}.

Definition cache_destroyed (y : rrd_system) : bool :=
  match sys_worker y with WorkerExit => true | _ => false end.

(** A label that is not enabled leaves the system as it is. The write
    and shutdown callbacks are not run on a destroyed cache. *)
Definition step (l : label) (y : rrd_system) : rrd_system :=
  match l with
  | LInsert filename value value_time e =>
      if cache_destroyed y then y
      else set_state
             (rrd_cache_insert filename value value_time e (sys_state y)).2 y
  | LShutdownFlush fe =>
      if cache_destroyed y then y
      else set_state (rrd_cache_flush (-1) fe (sys_state y)) y
  | LShutdownFlag => set_state (set_do_shutdown true (sys_state y)) y
  | LDequeue =>
      match sys_worker y with
      | WorkerWait =>
          match queue_dequeue (queue (sys_state y))
                              (do_shutdown (sys_state y)) with
          | DequeueWait => y
          | DequeueNone =>
              {| sys_state := sys_state y; sys_worker := WorkerBreak;
                 sys_updates := sys_updates y |}
          | DequeueEntry filename rest =>
              {| sys_state := set_queue rest (sys_state y);
                 sys_worker := WorkerDequeued filename;
                 sys_updates := sys_updates y |}
          end
      | _ => y
      end
  | LTake =>
      match sys_worker y with
      | WorkerDequeued filename =>
          match queue_thread_take filename (cache (sys_state y)) with
          | None =>
              {| sys_state := sys_state y; sys_worker := WorkerFault;
                 sys_updates := sys_updates y |}
          | Some r =>
              {| sys_state := set_cache r.2 (sys_state y);
                 sys_worker := WorkerWrite filename r.1;
                 sys_updates := sys_updates y |}
          end
      | _ => y
      end
  | LWrite argv_ok update_status =>
      match sys_worker y with
      | WorkerWrite filename vals =>
          {| sys_state := sys_state y; sys_worker := WorkerWait;
             sys_updates :=
               sys_updates y
               ++ (rrd_write_to_file argv_ok update_status filename vals).2 |}
      | _ => y
      end
  | LDestroy =>
      match sys_worker y with
      | WorkerBreak =>
          {| sys_state := set_cache ∅ (sys_state y);
             sys_worker := WorkerExit;
             sys_updates := sys_updates y |}
      | _ => y
      end
  end.

Definition run (ls : list label) (y : rrd_system) : rrd_system :=
  foldl (λ y l, step l y) y ls.

(** ** rrd_init *)

(** The value of an [int] expression whose mathematical value is [z], on
    a machine with 32 bit two's complement [int]. *)
Definition int_wrap (z : Z) : Z := (z + 2 ^ 31) `mod` 2 ^ 32 - 2 ^ 31.

Definition int_range (z : Z) : Prop := - 2 ^ 31 ≤ z < 2 ^ 31.

(** Lines 993-1000 with an empty tree and queue; [now] is the clock. The
    product [10 * cache_timeout] is an [int] product. *)
Definition rrd_init (now timeout flush_timeout : Z) : rrd_system :=
  let ct := if timeout <? 2 then 0 else timeout in
  let cft := if timeout <? 2 then 0
             else if flush_timeout <? timeout then int_wrap (10 * timeout)
             else flush_timeout in
  {| sys_state := {| cache := ∅; queue := []; do_shutdown := false;
                     cache_timeout := ct; cache_flush_timeout := cft;
                     cache_flush_last := now |};
     sys_worker := WorkerWait;
     sys_updates := [] |}.

(** ** rra_get *)

(** [(int) floor (((double) a) / ((double) b))] and the same with [ceil],
    for [int] values [a] and [b]. Both conversions to [double] are exact,
    and the correctly rounded quotient of two integers below [2 ^ 53] lies
    on the same side of every integer as the exact quotient, so [floor]
    and [ceil] give the integer floor and ceiling. With [b = 0] the C
    expression has no defined value; the model gives 0 there. *)
Definition double_floor_div (a b : Z) : Z := Z.div a b.

Definition double_ceil_div (a b : Z) : Z := - Z.div (- a) b.

Definition rra_timespans : list Z :=
  [3600; 86400; 604800; 2678400; 31622400].

Definition rra_types : list string := ["AVERAGE"; "MIN"; "MAX"].

(** The configuration [rra_get] reads. *)
Record rra_config : Type := RraConfig {
  stepsize             : Z;
  rrarows              : Z;
  rra_timespans_custom : list Z
}.

(** One string of [rra_def]: the arguments that
    [snprintf (buffer, sizeof (buffer), "RRA:%s:%3.1f:%u:%u", ...)]
    prints besides [xff]. With [xff] in [0, 1) the string has at most 37
    characters, so it always fits the 64 bytes of [buffer]. *)
Record rra_t : Type := Rra {
  rra_type    : string;
  rra_cdp_len : Z;
  rra_cdp_num : Z
}.

(** The two [static] variables of [rra_get]. *)
Record rra_static : Type := RraStatic {
  rra_def : option (list rra_t);
  rra_num : Z
}.

Definition rra_static0 : rra_static := {| rra_def := None; rra_num := 0 |}.

(** The timespans in use: the configured ones, or the built-in ones. *)
Definition rra_rts (cfg : rra_config) : list Z :=
  if bool_decide (rra_timespans_custom cfg = []) then rra_timespans
  else rra_timespans_custom cfg.

(** The body of the loop over [rra_types]; the state is [rra_num] and the
    strings stored so far ([sstrdup] ends the process when it cannot
    allocate). *)
Definition rra_emit (rra_max cdp_len cdp_num : Z) (st : Z * list rra_t)
    (ty : string) : Z * list rra_t :=
  if rra_max <=? st.1 then st
  else (st.1 + 1, st.2 ++ [Rra ty cdp_len cdp_num]).

(** The body of the loop over the timespans; the state is [cdp_len],
    [rra_num] and the strings stored so far. *)
Definition rra_visit (cfg : rra_config) (rra_max : Z)
    (st : Z * (Z * list rra_t)) (span : Z) : Z * (Z * list rra_t) :=
  if Z.quot span (stepsize cfg) <? rrarows cfg then st
  else
    let cdp_len :=
      if st.1 =? 0 then 1
      else double_floor_div span (int_wrap (rrarows cfg * stepsize cfg)) in
    let cdp_num :=
      double_ceil_div span (int_wrap (cdp_len * stepsize cfg)) in
    (cdp_len, foldl (rra_emit rra_max cdp_len cdp_num) st.2 rra_types).

(** [rra_get] from the allocation of [rra_def] on. Returns the status,
    the array stored in [*ret] if any, and the new values of the static
    variables. [malloc_ok] is the outcome of the allocation. *)
Definition rra_compute (malloc_ok : bool) (cfg : rra_config)
    (st : rra_static) : Z * option (list rra_t) * rra_static :=
  let rts := rra_rts cfg in
  let rra_max := Z.of_nat (length rts) * Z.of_nat (length rra_types) in
  if negb malloc_ok then
    (-1, None, {| rra_def := None; rra_num := rra_num st |})
  else if (stepsize cfg <=? 0) || (rrarows cfg <=? 0) then
    (-1, None, {| rra_def := Some []; rra_num := rra_num st |})
  else
    let r := foldl (rra_visit cfg rra_max) (0, (rra_num st, [])) rts in
    (r.2.1, Some r.2.2, {| rra_def := Some r.2.2; rra_num := r.2.1 |}).

(** The whole function: the arrays computed by an earlier call are
    returned as they are. *)
Definition rra_get (malloc_ok : bool) (cfg : rra_config) (st : rra_static)
  : Z * option (list rra_t) * rra_static :=
  match rra_def st with
  | Some def =>
      if negb (rra_num st =? 0) then (rra_num st, Some def, st)
      else rra_compute malloc_ok cfg st
  | None => rra_compute malloc_ok cfg st
  end.

(** * Part II: what the properties are stated with *)

(** ** The RRA synthesizer as the specification words it *)

(** Ceiling of [a / b] for positive [b]. *)
Definition ceil_div (a b : Z) : Z := Z.div (a + b - 1) b.

(** For each timespan in turn: skip it when [span / step_size < rra_rows];
    otherwise [cdp_len] is 1 for the first accepted timespan and
    [floor (span / (rra_rows * step_size))] for a later one, [cdp_num] is
    [ceil (span / (cdp_len * step_size))], and one archive is emitted for
    each of AVERAGE, MIN and MAX. *)
Fixpoint rra_spec (first : bool) (step_size rra_rows : Z) (spans : list Z)
  : list rra_t :=
  match spans with
  | [] => []
  | span :: rest =>
      if Z.div span step_size <? rra_rows then
        rra_spec first step_size rra_rows rest
      else
        let cdp_len :=
          if first then 1 else Z.div span (rra_rows * step_size) in
        let cdp_num := ceil_div span (cdp_len * step_size) in
        [Rra "AVERAGE" cdp_len cdp_num; Rra "MIN" cdp_len cdp_num;
         Rra "MAX" cdp_len cdp_num]
        ++ rra_spec false step_size rra_rows rest
  end.

(** ** Order of time stamps *)

Abbreviation increasing := (StronglySorted Z.lt).

Definition bounded_by (m : Z) (l : list Z) : Prop := Forall (λ t, t ≤ m) l.

(** The time stamps handed to [rrd_update] for one file, in call order. *)
Definition update_times (filename : string) (us : list rrd_update_call)
  : list Z :=
  flat_map (λ u, if decide (u.1 = filename) then u.2.*1 else []) us.

(** A buffer is ordered when its time stamps increase strictly and none
    exceeds [last_value]. *)
Definition rc_ordered (rc : rrd_cache_t) : Prop :=
  increasing (values rc).*1 ∧ bounded_by (last_value rc) (values rc).*1.

Record sys_inv (y : rrd_system) : Prop := SysInv {
  inv_cache : ∀ f rc, cache (sys_state y) !! f = Some rc → rc_ordered rc;
  inv_worker : ∀ f vs, sys_worker y = WorkerWrite f vs → increasing vs.*1;
  inv_updates : ∀ u, u ∈ sys_updates y → increasing u.2.*1
}.

(** The time stamps of one file that left the cache: those handed to
    [rrd_update], then those the queue thread holds. *)
Definition inflight (f : string) (y : rrd_system) : list Z :=
  match sys_worker y with
  | WorkerWrite g vs => if decide (g = f) then vs.*1 else []
  | _ => []
  end.

Definition written (f : string) (y : rrd_system) : list Z :=
  update_times f (sys_updates y) ++ inflight f y.

Definition file_inv (f : string) (y : rrd_system) : Prop :=
  match cache (sys_state y) !! f with
  | Some rc =>
      increasing (written f y ++ (values rc).*1)
      ∧ bounded_by (last_value rc) (written f y ++ (values rc).*1)
  | None => written f y = []
  end.

(** The entry of [filename] is never taken out of the tree along [ls]. *)
Fixpoint keeps (filename : string) (ls : list label) (y : rrd_system)
  : Prop :=
  match ls with
  | [] => True
  | l :: ls' =>
      (is_Some (cache (sys_state y) !! filename) →
       is_Some (cache (sys_state (step l y)) !! filename))
      ∧ keeps filename ls' (step l y)
  end.

(** ** The flusher *)

(** [rc'] is [rc] up to its flag. *)
Definition same_buffer (rc rc' : rrd_cache_t) : Prop :=
  values rc' = values rc ∧ first_value rc' = first_value rc
  ∧ last_value rc' = last_value rc.

(** What the first loop of [rrd_cache_flush] maintains with respect to
    the tree [c0] it started from: flags are the only thing it changes, it
    removes nothing, and it collects keys of empty, unqueued, old entries. *)
Record scan_inv (timeout : Z) (fe : flush_env)
    (c0 : gmap string rrd_cache_t) (st : flush_loop) : Prop := ScanInv {
  scan_back : ∀ k rc', fl_cache st !! k = Some rc' →
              ∃ rc, c0 !! k = Some rc ∧ same_buffer rc rc';
  scan_forth : ∀ k, is_Some (c0 !! k) → is_Some (fl_cache st !! k);
  scan_keys : ∀ k, k ∈ fl_keys st →
              ∃ rc, c0 !! k = Some rc ∧ values rc = []
                    ∧ flags rc ≠ FLAG_QUEUED
                    ∧ timeout ≤ fe_now fe - first_value rc
}.

(** The entry is not queued and at least [timeout] old. *)
Definition flush_due (timeout now : Z) (rc : rrd_cache_t) : Prop :=
  flags rc ≠ FLAG_QUEUED ∧ timeout ≤ now - first_value rc.

Definition flush_queues (timeout now : Z) (kv : string * rrd_cache_t)
  : Prop :=
  flush_due timeout now kv.2 ∧ values kv.2 ≠ [].

Definition flush_evicts (timeout now : Z) (kv : string * rrd_cache_t)
  : Prop :=
  flush_due timeout now kv.2 ∧ values kv.2 = [].

#[global] Instance flush_queues_dec timeout now kv :
  Decision (flush_queues timeout now kv).
Proof. unfold flush_queues, flush_due. apply _. Defined.

#[global] Instance flush_evicts_dec timeout now kv :
  Decision (flush_evicts timeout now kv).
Proof. unfold flush_evicts, flush_due. apply _. Defined.

Definition fe_alloc_ok (fe : flush_env) : Prop :=
  ∀ k, qa_entry (fe_queue fe k) = true ∧ qa_filename (fe_queue fe k) = true
       ∧ fe_realloc fe k = true.

(** ** The queue thread *)

Definition reachable (y : rrd_system) : Prop :=
  ∃ now ct cft ls, y = run ls (rrd_init now ct cft).

(** The queue thread is inside [while (42)]. *)
Definition in_loop (pc : worker_pc) : bool :=
  match pc with
  | WorkerBreak | WorkerExit => false
  | _ => true
  end.

(** Once the queue thread is out of its loop, the flag is set. *)
Definition left_after_shutdown (y : rrd_system) : Prop :=
  in_loop (sys_worker y) = false → do_shutdown (sys_state y) = true.

(** ** Environments, states and runs used as examples *)

(** None of the allocations whose failure makes [rrd_cache_insert]
    return [-1] fails. *)
Definition insert_alloc_ok (e : insert_env) : Prop :=
  ie_malloc_rc e = true ∧ ie_realloc_values e = true
  ∧ ie_strdup_key e = true.

(** Environments in which no allocation fails. *)
Definition qa_ok : queue_alloc := {| qa_entry := true; qa_filename := true |}.

Definition fe_ok (now : Z) : flush_env :=
  {| fe_now := now; fe_queue := λ _, qa_ok; fe_realloc := λ _, true |}.

Definition ie_ok (now : Z) : insert_env :=
  {| ie_malloc_rc := true; ie_realloc_values := true;
     ie_strdup_value := true; ie_strdup_key := true;
     ie_queue := qa_ok; ie_time := now; ie_flush := fe_ok now |}.

(** [realloc] of the value array fails. *)
Definition ie_no_realloc (now : Z) : insert_env :=
  {| ie_malloc_rc := true; ie_realloc_values := false;
     ie_strdup_value := true; ie_strdup_key := true;
     ie_queue := qa_ok; ie_time := now; ie_flush := fe_ok now |}.

(** [strdup] of the value fails. *)
Definition ie_no_strdup_value (now : Z) : insert_env :=
  {| ie_malloc_rc := true; ie_realloc_values := true;
     ie_strdup_value := false; ie_strdup_key := true;
     ie_queue := qa_ok; ie_time := now; ie_flush := fe_ok now |}.

Definition state0 : rrd_state := sys_state (rrd_init 1000 0 0).

(** Cache time-out 10, flush time-out 30, started at time 1000. File A
    gets two values that span the time-out and is written; the insert for
    B at time 1031 runs the flusher, which evicts the drained entry of A;
    A is then created anew and accepts the late value of time 1005. *)
Definition run_evict : list label :=
  [ LInsert "A" "1000:1" 1000 (ie_ok 1000);
    LInsert "A" "1010:1" 1010 (ie_ok 1010);
    LDequeue; LTake; LWrite true 0;
    LInsert "B" "1031:1" 1031 (ie_ok 1031);
    LInsert "A" "1005:1" 1005 (ie_ok 1032);
    LInsert "A" "1015:1" 1015 (ie_ok 1033);
    LDequeue; LTake; LWrite true 0 ].

(** The first five steps of [run_evict]. *)
Definition run_once : list label := take 5 run_evict.

(** File A with one buffered value, not queued. *)
Definition state_one : rrd_state :=
  sys_state (run (take 1 run_evict) (rrd_init 1000 10 30)).

(** Caching is off, so the first value queues file A at once; [realloc]
    fails for the second value, which takes the entry of A out of the
    tree while A is still in the queue; the queue thread then dequeues A. *)
Definition run_fault : list label :=
  [ LInsert "A" "1000:1" 1000 (ie_ok 1000);
    LInsert "A" "1001:1" 1001 (ie_no_realloc 1001);
    LDequeue; LTake ].

(** File A gets one value whose time stamp, 1010, is ten seconds ahead
    of the clock; then the plugin is shut down and the queue thread runs
    to its end. *)
Definition run_future : list label :=
  [ LInsert "A" "1010:1" 1010 (ie_ok 1000);
    LShutdownFlush (fe_ok 1000);
    LShutdownFlag;
    LDequeue; LDestroy ].

(** The configuration of scenario S1: step 10, 100 rows, timespans 3600
    and 86400. *)
Definition cfg_s1 : rra_config :=
  {| stepsize := 10; rrarows := 100; rra_timespans_custom := [3600; 86400] |}.

(** ** More about the entries, the queue and the updates *)

(** The two time stamps of an entry are in order and not negative, and
    every buffered time stamp is positive and at most [last_value]. *)
Definition rc_timed (rc : rrd_cache_t) : Prop :=
  0 ≤ first_value rc ≤ last_value rc
  ∧ Forall (λ t, 0 < t ≤ last_value rc) (values rc).*1.

(** [first_value] and [last_value] are the time stamps of the first and of
    the last buffered value, when there is one. *)
Definition rc_exact (rc : rrd_cache_t) : Prop :=
  (∀ t, head (values rc).*1 = Some t → first_value rc = t)
  ∧ (∀ t, last (values rc).*1 = Some t → last_value rc = t).

(** The copy of the value is allocated in an insert. *)
Definition label_strdups (l : label) : Prop :=
  match l with
  | LInsert _ _ _ e => ie_strdup_value e = true
  | _ => True
  end.

(** The copy of the value is allocated in an insert, and [argv] in a call
    of [rrd_write_to_file]: no accepted value is dropped for lack of
    memory. *)
Definition label_copies (l : label) : Prop :=
  match l with
  | LInsert _ _ _ e => ie_strdup_value e = true
  | LWrite argv_ok _ => argv_ok = true
  | _ => True
  end.


(** [realloc] of the value array does not fail. *)
Definition label_reallocs (l : label) : Prop :=
  match l with
  | LInsert _ _ _ e => ie_realloc_values e = true
  | _ => True
  end.

(** The queue entry of an insert is allocated. *)
Definition label_enqueues (l : label) : Prop :=
  match l with
  | LInsert _ _ _ e =>
      qa_entry (ie_queue e) = true ∧ qa_filename (ie_queue e) = true
  | _ => True
  end.

(** The file the queue thread has dequeued and not yet looked up. *)
Definition held (y : rrd_system) : list string :=
  match sys_worker y with
  | WorkerDequeued f => [f]
  | _ => []
  end.

(** The files that wait for the queue thread, in the order in which it
    takes them. *)
Definition pending (y : rrd_system) : list string :=
  held y ++ queue (sys_state y).

(** Every entry flagged [FLAG_QUEUED] waits for the queue thread. *)
Definition queued_sound (y : rrd_system) : Prop :=
  ∀ f rc, cache (sys_state y) !! f = Some rc → flags rc = FLAG_QUEUED →
          f ∈ pending y.

(** Every waiting file waits once and has an entry flagged
    [FLAG_QUEUED]. *)
Definition pending_flagged (y : rrd_system) : Prop :=
  NoDup (pending y)
  ∧ ∀ f, f ∈ pending y →
         ∃ rc, cache (sys_state y) !! f = Some rc ∧ flags rc = FLAG_QUEUED.

(** The values handed to [rrd_update] for one file, in call order. *)
Definition update_values (f : string) (us : list rrd_update_call)
  : list rrd_value :=
  flat_map (λ u, if decide (u.1 = f) then u.2 else []) us.

(** The values of one file that the plugin holds or has written: those
    handed to [rrd_update], those the queue thread holds, and the buffer
    of the entry. *)
Definition stored (f : string) (y : rrd_system) : list rrd_value :=
  update_values f (sys_updates y)
  ++ match sys_worker y with
     | WorkerWrite g vs => if decide (g = f) then vs else []
     | _ => []
     end
  ++ values (default rc_fresh (cache (sys_state y) !! f)).

(** The value that a step makes the plugin accept for file [f]: that of an
    insert for [f] that returns 0. *)
Definition step_accepts (f : string) (l : label) (y : rrd_system)
  : list rrd_value :=
  match l with
  | LInsert g v t e =>
      if decide (g = f) then
        if cache_destroyed y then []
        else
          match (rrd_cache_insert g v t e (sys_state y)).1 with
          | InsertOk => [(t, v)]
          | _ => []
          end
      else []
  | _ => []
  end.

(** The values accepted for file [f] along a run, in order. *)
Fixpoint accepted (f : string) (ls : list label) (y : rrd_system)
  : list rrd_value :=
  match ls with
  | [] => []
  | l :: ls' => step_accepts f l y ++ accepted f ls' (step l y)
  end.

(** What a flush may do to the tree and the queue, whatever its
    allocations do: the files in [added] are queued and flagged, the
    entries of the files in [removed] are taken out, nothing else
    changes. *)
Record flush_effect (timeout now : Z) (s s' : rrd_state)
    (added removed : list string) : Prop := FlushEffect {
  fx_nodup : NoDup added;
  fx_queue : queue s' = queue s ++ added;
  fx_added : ∀ k, k ∈ added →
             ∃ rc, cache s !! k = Some rc ∧ flags rc ≠ FLAG_QUEUED
                   ∧ values rc ≠ [] ∧ timeout ≤ now - first_value rc;
  fx_removed : ∀ k, k ∈ removed →
               ∃ rc, cache s !! k = Some rc ∧ flags rc ≠ FLAG_QUEUED
                     ∧ values rc = [] ∧ timeout ≤ now - first_value rc;
  fx_cache : ∀ k, cache s' !! k
                  = if decide (k ∈ added)
                    then set_flags FLAG_QUEUED <$> cache s !! k
                    else if decide (k ∈ removed) then None
                    else cache s !! k;
  fx_rest : do_shutdown s' = do_shutdown s
            ∧ cache_timeout s' = cache_timeout s
            ∧ cache_flush_timeout s' = cache_flush_timeout s;
  fx_last : cache_flush_last s' = now
            ∨ (removed = [] ∧ cache_flush_last s' = cache_flush_last s)
}.

(** [rc'] is [rc], or [rc] with the flag set to [FLAG_QUEUED]. *)
Definition flagged (rc rc' : rrd_cache_t) : Prop :=
  rc' = rc ∨ rc' = set_flags FLAG_QUEUED rc.

(** The tree holds an entry for [k] that is flagged [FLAG_QUEUED]. *)
Definition queued_in (c : gmap string rrd_cache_t) (k : string) : Prop :=
  ∃ rc, c !! k = Some rc ∧ flags rc = FLAG_QUEUED.

(** From [s] to [s'] the queue has grown by the files in [extra], which
    are exactly the files whose entries became flagged, and no flag was
    cleared. *)
Record queue_grows (s s' : rrd_state) (extra : list string) : Prop :=
  QueueGrows {
  qg_queue : queue s' = queue s ++ extra;
  qg_nodup : NoDup extra;
  qg_new : ∀ k, k ∈ extra →
           ¬ queued_in (cache s) k ∧ queued_in (cache s') k;
  qg_back : ∀ k, queued_in (cache s') k →
            k ∈ extra ∨ queued_in (cache s) k;
  qg_forth : ∀ k, queued_in (cache s) k → queued_in (cache s') k
}.
(** The queue thread has not hit a missing entry, and as long as the tree
    is there every waiting file has its flagged entry. *)
Definition queue_safe (y : rrd_system) : Prop :=
  sys_worker y ≠ WorkerFault
  ∧ (sys_worker y ≠ WorkerExit → pending_flagged y).

(** Every entry of the tree satisfies [P]. *)
Definition all_entries (P : rrd_cache_t → Prop) (y : rrd_system) : Prop :=
  ∀ f rc, cache (sys_state y) !! f = Some rc → P rc.

(** A buffer that holds values and is not queued spans less than the
    cache time-out. *)
Definition spans_short (y : rrd_system) : Prop :=
  ∀ f rc, cache (sys_state y) !! f = Some rc →
          flags rc ≠ FLAG_QUEUED → values rc ≠ [] →
          last_value rc - first_value rc < cache_timeout (sys_state y).



(** ** value_list_to_filename *)

(** The fields of [value_list_t] that name the file. *)
Record value_list_t : Type := ValueList {
  vl_host            : string;
  vl_plugin          : string;
  vl_plugin_instance : string;
  vl_type_instance   : string
}.

(** [status = snprintf (buffer + offset, buffer_len - offset, ...)],
    where [buffer] is what has been written so far, [offset] its length
    and [piece] the formatted text, followed by the test
    [(status < 1) || (status >= buffer_len - offset)], which makes the
    caller return [-1]: [None]. *)
Definition snprintf_at (buffer_len : Z) (buffer piece : string)
  : option string :=
  let offset := Z.of_nat (String.length buffer) in
  let status := Z.of_nat (String.length piece) in
  if (status <? 1) || (buffer_len - offset <=? status) then None
  else Some (buffer +:+ piece).

(** [None] is the return value [-1]; otherwise the text left in
    [buffer]. [ds_type] is [ds->type]. *)
Definition value_list_to_filename (buffer_len : Z) (datadir : option string)
    (ds_type : string) (vl : value_list_t) : option string :=
  b1 ← match datadir with
       | Some d => snprintf_at buffer_len "" (d +:+ "/")
       | None => Some ""
       end;
  b2 ← snprintf_at buffer_len b1 (vl_host vl +:+ "/");
  b3 ← snprintf_at buffer_len b2
         (if (0 <? String.length (vl_plugin_instance vl))%nat
          then vl_plugin vl +:+ "-" +:+ vl_plugin_instance vl +:+ "/"
          else vl_plugin vl +:+ "/");
  snprintf_at buffer_len b3
    (if (0 <? String.length (vl_type_instance vl))%nat
     then ds_type +:+ "-" +:+ vl_type_instance vl +:+ ".rrd"
     else ds_type +:+ ".rrd").

(** The path as the specification words it:
    [[data_dir "/"] host "/" plugin ["-" plugin_instance] "/" type
    ["-" type_instance] ".rrd"]. *)
Definition rrd_path (datadir : option string) (ds_type : string)
    (vl : value_list_t) : string :=
  (match datadir with Some d => d +:+ "/" | None => "" end)
  +:+ vl_host vl +:+ "/"
  +:+ vl_plugin vl
  +:+ (if decide (vl_plugin_instance vl = "") then ""
       else "-" +:+ vl_plugin_instance vl)
  +:+ "/"
  +:+ ds_type
  +:+ (if decide (vl_type_instance vl = "") then ""
       else "-" +:+ vl_type_instance vl)
  +:+ ".rrd".

(** ** rrd_config and the first part of rrd_init *)

(** The configuration variables of the plugin. [cache_timeout] and
    [cache_flush_timeout] are the values before [rrd_init] normalises
    them; [stepsize], [rrarows] and [rra_timespans_custom] are the
    fields of [g_rra]. The type of [xff] is left open. *)
Record rrd_globals (xff_t : Type) : Type := RrdGlobals {
  g_cache_timeout       : Z;
  g_cache_flush_timeout : Z;
  g_datadir             : option string;
  g_heartbeat           : Z;
  g_xff                 : xff_t;
  g_rra                 : rra_config
}.
Arguments RrdGlobals {_} _ _ _ _ _ _.
Arguments g_cache_timeout {_} _.
Arguments g_cache_flush_timeout {_} _.
Arguments g_datadir {_} _.
Arguments g_heartbeat {_} _.
Arguments g_xff {_} _.
Arguments g_rra {_} _.

(** The initialisers of the variables; [xff0] stands for [0.1]. *)
Definition globals0 {xff_t : Type} (xff0 : xff_t) : rrd_globals xff_t :=
  {| g_cache_timeout := 0; g_cache_flush_timeout := 0; g_datadir := None;
     g_heartbeat := 0; g_xff := xff0;
     g_rra := {| stepsize := 0; rrarows := 1200;
                 rra_timespans_custom := [] |} |}.

(** [tolower] in the C locale, and [strcasecmp (a, b) == 0]. *)
Definition tolower (c : Ascii.ascii) : Ascii.ascii :=
  let n := Ascii.nat_of_ascii c in
  if ((65 <=? n) && (n <=? 90))%nat then Ascii.ascii_of_nat (n + 32)
  else c.

Fixpoint string_lower (s : string) : string :=
  match s with
  | EmptyString => EmptyString
  | String c s' => String (tolower c) (string_lower s')
  end.

Definition strcasecmp_eq (a b : string) : bool :=
  bool_decide (string_lower a = string_lower b).

(** The characters ['/'] (47) and ['\t'] (9), lowest bit first. *)
Definition char_slash : Ascii.ascii :=
  Ascii.Ascii true true true true false true false false.

Definition char_tab : Ascii.ascii :=
  Ascii.Ascii true false false true false false false false.

(** The loop
    [while ((len > 0) && (datadir[len - 1] == '/'))
       { len--; datadir[len] = '\0'; }],
    started with [len = strlen (datadir)]. *)
Fixpoint datadir_strip (len : nat) (d : list Ascii.ascii)
  : list Ascii.ascii :=
  match len with
  | O => d
  | S n =>
      if bool_decide (d !! n = Some char_slash)
      then datadir_strip n (take n d)
      else d
  end.

(** The tokens [strtok_r (.., delim, ..)] returns one after the other:
    the maximal runs of characters that are not delimiters. [cur] is
    the token being read, last character first. *)
Definition strtok_end (cur : list Ascii.ascii) : list string :=
  match cur with
  | [] => []
  | _ => [String.string_of_list_ascii (reverse cur)]
  end.

Fixpoint strtok_go (delim : list Ascii.ascii) (cur : list Ascii.ascii)
    (s : string) : list string :=
  match s with
  | EmptyString => strtok_end cur
  | String c s' =>
      if bool_decide (c ∈ delim)
      then strtok_end cur ++ strtok_go delim [] s'
      else strtok_go delim (c :: cur) s'
  end.

Definition strtok_all (delim : string) (s : string) : list string :=
  strtok_go (String.list_ascii_of_string delim) [] s.

(** The outcomes of the allocations of one call of [rrd_config]:
    [strdup], and [realloc] for each token of [RRATimespan]. *)
Record config_env : Type := ConfigEnv {
  ce_strdup  : bool;
  ce_realloc : nat → bool
}.

Definition set_rra {xff_t : Type} (r : rra_config) (g : rrd_globals xff_t)
  : rrd_globals xff_t :=
  {| g_cache_timeout := g_cache_timeout g;
     g_cache_flush_timeout := g_cache_flush_timeout g;
     g_datadir := g_datadir g; g_heartbeat := g_heartbeat g;
     g_xff := g_xff g; g_rra := r |}.

Section rrd_config.
Context {xff_t : Type}.
(** [atoi] and [atof] are the C library's; [xff_bad tmp] is
    [(tmp < 0.0) || (tmp >= 1.0)]. *)
Context (atoi : string → Z) (atof : string → xff_t)
  (xff_bad : xff_t → bool).

(** The [while ((ptr = strtok_r (...)) != NULL)] loop of [RRATimespan]:
    [i] counts the tokens, [custom] is [rra_timespans_custom] with its
    [rra_timespans_custom_num] entries. *)
Fixpoint timespans_add (realloc_ok : nat → bool) (i : nat)
    (toks : list string) (custom : list Z) : Z * list Z :=
  match toks with
  | [] => (0, custom)
  | ptr :: toks' =>
      if negb (realloc_ok i) then (1, custom)
      else
        let v := atoi ptr in
        timespans_add realloc_ok (S i) toks'
          (if negb (v =? 0) then custom ++ [v] else custom)
  end.

(** Returns the status and the variables after the call. *)
Definition rrd_config (e : config_env) (key value : string)
    (g : rrd_globals xff_t) : Z * rrd_globals xff_t :=
  if strcasecmp_eq "CacheTimeout" key then
    let tmp := atoi value in
    if tmp <? 0 then (1, g)
    else (0, {| g_cache_timeout := tmp;
                g_cache_flush_timeout := g_cache_flush_timeout g;
                g_datadir := g_datadir g; g_heartbeat := g_heartbeat g;
                g_xff := g_xff g; g_rra := g_rra g |})
  else if strcasecmp_eq "CacheFlush" key then
    let tmp := atoi value in
    if tmp <? 0 then (1, g)
    else (0, {| g_cache_timeout := g_cache_timeout g;
                g_cache_flush_timeout := tmp;
                g_datadir := g_datadir g; g_heartbeat := g_heartbeat g;
                g_xff := g_xff g; g_rra := g_rra g |})
  else if strcasecmp_eq "DataDir" key then
    let datadir :=
      if ce_strdup e then
        let d := String.list_ascii_of_string value in
        let d' := datadir_strip (length d) d in
        if (Z.of_nat (length d') <=? 0) then None
        else Some (String.string_of_list_ascii d')
      else None in
    (0, {| g_cache_timeout := g_cache_timeout g;
           g_cache_flush_timeout := g_cache_flush_timeout g;
           g_datadir := datadir; g_heartbeat := g_heartbeat g;
           g_xff := g_xff g; g_rra := g_rra g |})
  else if strcasecmp_eq "StepSize" key then
    let tmp := atoi value in
    if tmp <=? 0 then (1, g)
    else (0, set_rra {| stepsize := tmp; rrarows := rrarows (g_rra g);
                        rra_timespans_custom :=
                          rra_timespans_custom (g_rra g) |} g)
  else if strcasecmp_eq "HeartBeat" key then
    let tmp := atoi value in
    if tmp <=? 0 then (1, g)
    else (0, {| g_cache_timeout := g_cache_timeout g;
                g_cache_flush_timeout := g_cache_flush_timeout g;
                g_datadir := g_datadir g; g_heartbeat := tmp;
                g_xff := g_xff g; g_rra := g_rra g |})
  else if strcasecmp_eq "RRARows" key then
    let tmp := atoi value in
    if tmp <=? 0 then (1, g)
    else (0, set_rra {| stepsize := stepsize (g_rra g); rrarows := tmp;
                        rra_timespans_custom :=
                          rra_timespans_custom (g_rra g) |} g)
  else if strcasecmp_eq "RRATimespan" key then
    if negb (ce_strdup e) then (1, g)
    else
      let r := timespans_add (ce_realloc e) 0
                 (strtok_all (", " +:+ String char_tab "") value)
                 (rra_timespans_custom (g_rra g)) in
      (r.1, set_rra {| stepsize := stepsize (g_rra g);
                       rrarows := rrarows (g_rra g);
                       rra_timespans_custom := r.2 |} g)
  else if strcasecmp_eq "XFF" key then
    let tmp := atof value in
    if xff_bad tmp then (1, g)
    else (0, {| g_cache_timeout := g_cache_timeout g;
                g_cache_flush_timeout := g_cache_flush_timeout g;
                g_datadir := g_datadir g; g_heartbeat := g_heartbeat g;
                g_xff := tmp; g_rra := g_rra g |})
  else (-1, g).

(** The calls of [rrd_config] the daemon makes while it reads its
    configuration, whatever they return. *)
Definition configure (calls : list (config_env * string * string))
    (g : rrd_globals xff_t) : rrd_globals xff_t :=
  foldl (λ g c, (rrd_config c.1.1 c.1.2 c.2 g).2) g calls.

End rrd_config.

(** The start of [rrd_init]: the defaults of [stepsize] and
    [heartbeat]; [2 * interval_g] is an [int] product. (The cache and
    its timeouts are set up by [rrd_init] above.) *)
Definition rrd_init_globals {xff_t : Type} (interval_g : Z)
    (g : rrd_globals xff_t) : rrd_globals xff_t :=
  let step := if stepsize (g_rra g) <=? 0 then interval_g
              else stepsize (g_rra g) in
  let hb := if g_heartbeat g <=? 0 then int_wrap (2 * interval_g)
            else g_heartbeat g in
  {| g_cache_timeout := g_cache_timeout g;
     g_cache_flush_timeout := g_cache_flush_timeout g;
     g_datadir := g_datadir g; g_heartbeat := hb; g_xff := g_xff g;
     g_rra := {| stepsize := step; rrarows := rrarows (g_rra g);
                 rra_timespans_custom := rra_timespans_custom (g_rra g) |}
  |}.

(** The variables are as [rrd_config] leaves them: what it maintains. *)
Record globals_ok {xff_t : Type} (g : rrd_globals xff_t) : Prop := {
  go_cache_timeout : 0 ≤ g_cache_timeout g;
  go_cache_flush   : 0 ≤ g_cache_flush_timeout g;
  go_datadir       : ∀ d, g_datadir g = Some d →
                       d ≠ "" ∧ last (String.list_ascii_of_string d)
                                ≠ Some char_slash;
  go_stepsize      : 0 ≤ stepsize (g_rra g);
  go_heartbeat     : 0 ≤ g_heartbeat g;
  go_rrarows       : 1 ≤ rrarows (g_rra g);
  go_timespans     : Forall (λ t, t ≠ 0 ∧ int_range t)
                       (rra_timespans_custom (g_rra g))
}.

(** [config_keys]. *)
Definition config_keys : list string :=
  ["CacheTimeout"; "CacheFlush"; "DataDir"; "StepSize"; "HeartBeat";
   "RRARows"; "RRATimespan"; "XFF"].

(** A token as [strtok_r] returns them: not empty, no delimiter in it. *)
Definition token_of (delim : string) (t : string) : Prop :=
  t ≠ ""
  ∧ Forall (λ c, c ∉ String.list_ascii_of_string delim)
      (String.list_ascii_of_string t).

(** A separator: not empty, delimiters only. *)
Definition separator_of (delim : string) (sep : string) : Prop :=
  sep ≠ ""
  ∧ Forall (λ c, c ∈ String.list_ascii_of_string delim)
      (String.list_ascii_of_string sep).

(** A reader of unsigned decimal numbers, for the examples: on a string
    of digits whose value is an [int] it returns what [atoi] returns. *)
Definition digit_of (c : Ascii.ascii) : option Z :=
  let n := Ascii.nat_of_ascii c in
  if ((48 <=? n) && (n <=? 57))%nat then Some (Z.of_nat n - 48) else None.

Fixpoint atoi_digits (acc : Z) (s : string) : Z :=
  match s with
  | EmptyString => acc
  | String c s' =>
      match digit_of c with
      | Some d => atoi_digits (10 * acc + d) s'
      | None => acc
      end
  end.

Definition atoi_dec (s : string) : Z := int_wrap (atoi_digits 0 s).

Definition env_ok : config_env :=
  {| ce_strdup := true; ce_realloc := λ _, true |}.

Definition calls_s1 : list (config_env * string * string) :=
  [(env_ok, "StepSize", "0"); (env_ok, "rrarows", "100");
   (env_ok, "RRATimespan", "3600, 0,86400"); (env_ok, "Colour", "red")].

(** ** ipmi.c: the list of sensors *)

(** [enum ipmi_update_e]. *)
Inductive ipmi_update_e : Type := IPMI_ADDED | IPMI_DELETED | IPMI_CHANGED.

Section sensor_list.
(** [ipmi_sensor_id_t] and [ipmi_cmp_sensor_id] are OpenIPMI's. The
    list [sensor_list] is the list of the [sensor_id] fields of its
    items. *)
Context {ipmi_sensor_id_t : Type}.
Context (ipmi_cmp_sensor_id : ipmi_sensor_id_t → ipmi_sensor_id_t → Z).

(** The loop [for (list_item = sensor_list; list_item != NULL; ...)]
    of [sensor_list_add] and [sensor_list_remove]: the position of the
    item it stops at with [break], [None] when it runs to the end
    ([list_item == NULL]). [list_prev] is the item before. *)
Fixpoint sensor_list_search (sensor_id : ipmi_sensor_id_t)
    (l : list ipmi_sensor_id_t) : option nat :=
  match l with
  | [] => None
  | item :: l' =>
      if ipmi_cmp_sensor_id sensor_id item =? 0 then Some 0%nat
      else S <$> sensor_list_search sensor_id l'
  end.

(** Returns the status and the list. [calloc_ok] is the outcome of
    [calloc]. The new item goes behind [list_prev], the last item, or
    becomes the list when there is none. *)
Definition sensor_list_add (calloc_ok : bool) (sensor_id : ipmi_sensor_id_t)
    (l : list ipmi_sensor_id_t) : Z * list ipmi_sensor_id_t :=
  match sensor_list_search sensor_id l with
  | Some _ => (0, l)
  | None => if calloc_ok then (0, l ++ [sensor_id]) else (-1, l)
  end.

Definition sensor_list_remove (sensor_id : ipmi_sensor_id_t)
    (l : list ipmi_sensor_id_t) : Z * list ipmi_sensor_id_t :=
  match sensor_list_search sensor_id l with
  | None => (-1, l)
  | Some i => (0, delete i l)
  end.

Definition sensor_list_remove_all (l : list ipmi_sensor_id_t)
  : Z * list ipmi_sensor_id_t := (0, []).

(** [entity_sensor_update_handler]. *)
Definition entity_sensor_update_handler (op : ipmi_update_e)
    (calloc_ok : bool) (sensor_id : ipmi_sensor_id_t)
    (l : list ipmi_sensor_id_t) : list ipmi_sensor_id_t :=
  match op with
  | IPMI_ADDED | IPMI_CHANGED => (sensor_list_add calloc_ok sensor_id l).2
  | IPMI_DELETED => (sensor_list_remove sensor_id l).2
  end.

(** What changes the list: a sensor update, a reading that makes
    [sensor_read_handler] remove the sensor, and [c_ipmi_shutdown]. *)
Inductive sensor_event : Type :=
  | SensorUpdate (op : ipmi_update_e) (calloc_ok : bool)
      (sensor_id : ipmi_sensor_id_t)
  | SensorDropped (sensor_id : ipmi_sensor_id_t)
  | SensorShutdown.

Definition sensor_step (l : list ipmi_sensor_id_t) (ev : sensor_event)
  : list ipmi_sensor_id_t :=
  match ev with
  | SensorUpdate op calloc_ok sensor_id =>
      entity_sensor_update_handler op calloc_ok sensor_id l
  | SensorDropped sensor_id => (sensor_list_remove sensor_id l).2
  | SensorShutdown => (sensor_list_remove_all l).2
  end.

(** From the initial [sensor_list = NULL]. *)
Definition sensor_run (evs : list sensor_event) : list ipmi_sensor_id_t :=
  foldl sensor_step [] evs.

End sensor_list.

(** Sensor ids as numbers, for the examples. *)
Definition cmp_Z (a b : Z) : Z := a - b.

(** * Part III: properties *)

(** ** Strictly increasing lists *)

Lemma increasing_snoc (l : list Z) (m t : Z) :
  increasing l → bounded_by m l → m < t → increasing (l ++ [t]).
Proof.
  intros Hl Hm Ht. apply StronglySorted_app_2; [|done|].
  - intros x y Hx Hy%list_elem_of_singleton. subst y.
    unfold bounded_by in Hm. rewrite Forall_forall in Hm.
    specialize (Hm x Hx). simpl in Hm. lia.
  - repeat constructor.
Qed.

Lemma bounded_by_snoc (l : list Z) (m t : Z) :
  bounded_by m l → m < t → bounded_by t (l ++ [t]).
Proof.
  intros Hm Ht. apply Forall_app. split.
  - eapply Forall_impl; [exact Hm|]. simpl. intros; lia.
  - repeat constructor. simpl. lia.
Qed.

Lemma bounded_by_mono (l : list Z) (m t : Z) :
  bounded_by m l → m ≤ t → bounded_by t l.
Proof. intros Hm Ht. eapply Forall_impl; [exact Hm|]. simpl. intros; lia. Qed.

Lemma increasing_drop_middle (a b c : list Z) :
  increasing (a ++ b ++ c) → increasing (a ++ c).
Proof.
  rewrite !StronglySorted_app. intros (H1 & H2 & H3 & H4 & H5).
  split_and!; [|done..].
  intros x y Hx Hy. apply H1; [done|]. apply elem_of_app. by right.
Qed.

Lemma bounded_by_drop_middle (m : Z) (a b c : list Z) :
  bounded_by m (a ++ b ++ c) → bounded_by m (a ++ c).
Proof.
  unfold bounded_by. rewrite !Forall_app. intros (Ha & _ & Hc). by split.
Qed.

Lemma update_times_app f us1 us2 :
  update_times f (us1 ++ us2) = update_times f us1 ++ update_times f us2.
Proof. unfold update_times. apply flat_map_app. Qed.

(** ** The iterator *)

Lemma elem_of_avl_iterate (c : gmap string rrd_cache_t) k rc :
  (k, rc) ∈ avl_iterate c ↔ c !! k = Some rc.
Proof.
  unfold avl_iterate. rewrite merge_sort_Permutation.
  apply elem_of_map_to_list.
Qed.

Lemma NoDup_avl_iterate (c : gmap string rrd_cache_t) :
  NoDup (avl_iterate c).*1.
Proof.
  unfold avl_iterate. rewrite merge_sort_Permutation.
  apply NoDup_fst_map_to_list.
Qed.

(** ** The flusher keeps every buffer *)

Lemma same_buffer_refl rc : same_buffer rc rc.
Proof. by unfold same_buffer. Qed.

Lemma same_buffer_set_flags f rc : same_buffer rc (set_flags f rc).
Proof. by unfold same_buffer. Qed.

#[local] Hint Resolve same_buffer_refl same_buffer_set_flags : core.

Lemma same_buffer_trans rc1 rc2 rc3 :
  same_buffer rc1 rc2 → same_buffer rc2 rc3 → same_buffer rc1 rc3.
Proof. unfold same_buffer. intros (-> & -> & ->) (-> & -> & ->). done. Qed.

Section flush_scan.
Context (timeout : Z) (fe : flush_env) (c0 : gmap string rrd_cache_t).

Lemma scan_inv_visit st kv :
  c0 !! kv.1 = Some kv.2 → scan_inv timeout fe c0 st →
  scan_inv timeout fe c0 (flush_visit timeout fe st kv).
Proof.
  destruct kv as [key rc]. simpl. intros Hk [Hb Hf Hks].
  unfold flush_visit. simpl.
  destruct (fl_failed st); [done|].
  destruct (decide _) as [|Hfl]; [done|].
  destruct (Z.ltb_spec (fe_now fe - first_value rc) timeout); [done|].
  destruct (Z.ltb_spec 0 (values_num rc)) as [Hn|Hn].
  - destruct (_ =? 0); [|done]. constructor; simpl; [| |done].
    + intros k rc'. rewrite lookup_insert. case_decide.
      * intros [= <-]. subst k. eauto.
      * apply Hb.
    + intros k Hi. rewrite lookup_insert. case_decide; eauto.
  - assert (values rc = []) as Hnil.
    { unfold values_num in Hn. destruct (values rc); [done|].
      simpl in Hn. lia. }
    destruct (fe_realloc fe key); constructor; simpl; try done.
    intros k [Hin|Hin%list_elem_of_singleton]%elem_of_app; [eauto|].
    subst k. eauto 6.
Qed.

Lemma scan_inv_scan l st :
  (∀ kv, kv ∈ l → c0 !! kv.1 = Some kv.2) → scan_inv timeout fe c0 st →
  scan_inv timeout fe c0 (flush_scan timeout fe st l).
Proof.
  unfold flush_scan. revert st.
  induction l as [|kv l IH]; intros st Hl Hst; simpl; [done|].
  apply IH.
  - intros kv' Hin. apply Hl. by right.
  - apply scan_inv_visit; [|done]. apply Hl. by left.
Qed.

End flush_scan.

Lemma flush_remove_lookup c keys k :
  flush_remove c keys !! k = if decide (k ∈ keys) then None else c !! k.
Proof.
  unfold flush_remove. revert c.
  induction keys as [|key keys IH]; intros c; simpl.
  - done.
  - rewrite IH.
    destruct (decide (k ∈ keys)) as [Hin|Hin],
             (decide (k ∈ key :: keys)) as [Hin'|Hin']; try done.
    + exfalso. apply Hin'. by right.
    + apply elem_of_cons in Hin' as [->|?]; [|done]. apply lookup_delete_eq.
    + apply lookup_delete_ne. intros ->. apply Hin'. by left.
Qed.

Lemma flush_scan_start timeout fe s :
  scan_inv timeout fe (cache s)
    (flush_scan timeout fe
       {| fl_cache := cache s; fl_queue := queue s;
          fl_keys := []; fl_failed := false |}
       (avl_iterate (cache s))).
Proof.
  apply scan_inv_scan.
  - intros [k rc] Hin. by apply elem_of_avl_iterate.
  - constructor; simpl; [eauto|done|]. intros k Hk. by apply elem_of_nil in Hk.
Qed.

(** Every entry after the flush is an entry before it, up to the flag. *)
Lemma rrd_cache_flush_back timeout fe s k rc' :
  cache (rrd_cache_flush timeout fe s) !! k = Some rc' →
  ∃ rc, cache s !! k = Some rc ∧ same_buffer rc rc'.
Proof.
  pose proof (flush_scan_start timeout fe s) as [Hb Hf Hks].
  unfold rrd_cache_flush. destruct (fl_failed _); simpl.
  - apply Hb.
  - rewrite flush_remove_lookup. case_decide; [done|]. apply Hb.
Qed.

(** An entry with a non-empty buffer survives the flush. *)
Lemma rrd_cache_flush_forth timeout fe s k rc :
  cache s !! k = Some rc → values rc ≠ [] →
  ∃ rc', cache (rrd_cache_flush timeout fe s) !! k = Some rc'
         ∧ same_buffer rc rc'.
Proof.
  intros Hk Hne.
  pose proof (flush_scan_start timeout fe s) as [Hb Hf Hks].
  assert (is_Some (cache (rrd_cache_flush timeout fe s) !! k)) as [rc' Hrc'].
  { unfold rrd_cache_flush. destruct (fl_failed _); simpl.
    - apply Hf. eauto.
    - rewrite flush_remove_lookup. case_decide as Hin; [|apply Hf; eauto].
      destruct (Hks _ Hin) as (rc0 & Hk0 & Hnil & _). congruence. }
  exists rc'. split; [done|].
  destruct (rrd_cache_flush_back _ _ _ _ _ Hrc') as (rc0 & Hk0 & Hsame).
  congruence.
Qed.

Lemma rrd_cache_flush_config timeout fe s :
  cache_timeout (rrd_cache_flush timeout fe s) = cache_timeout s
  ∧ cache_flush_timeout (rrd_cache_flush timeout fe s) = cache_flush_timeout s
  ∧ do_shutdown (rrd_cache_flush timeout fe s) = do_shutdown s.
Proof. unfold rrd_cache_flush. by destruct (fl_failed _). Qed.

(** ** What a flush does to each entry when no allocation fails *)

Section flush_ok.
Context (timeout : Z) (fe : flush_env) (Hfe : fe_alloc_ok fe).

Lemma flush_visit_ok st kv :
  fl_failed st = false →
  flush_visit timeout fe st kv
  = if decide (flush_queues timeout (fe_now fe) kv) then
      {| fl_cache := <[kv.1 := set_flags FLAG_QUEUED kv.2]> (fl_cache st);
         fl_queue := fl_queue st ++ [kv.1];
         fl_keys := fl_keys st; fl_failed := false |}
    else if decide (flush_evicts timeout (fe_now fe) kv) then
      {| fl_cache := fl_cache st; fl_queue := fl_queue st;
         fl_keys := fl_keys st ++ [kv.1]; fl_failed := false |}
    else st.
Proof.
  intros Hst. destruct (Hfe kv.1) as (Hq1 & Hq2 & Hr).
  unfold flush_visit, rrd_queue_cache_entry, values_num.
  rewrite Hst, Hq1, Hq2, Hr. simpl.
  destruct (decide (flush_queues timeout (fe_now fe) kv))
    as [[[Hf Ht] Hv]|Hnq].
  { rewrite decide_False by done.
    destruct (Z.ltb_spec (fe_now fe - first_value kv.2) timeout); [lia|].
    by destruct (values kv.2). }
  destruct (decide (flush_evicts timeout (fe_now fe) kv))
    as [[[Hf Ht] Hv]|Hne].
  { rewrite decide_False by done.
    destruct (Z.ltb_spec (fe_now fe - first_value kv.2) timeout); [lia|].
    by rewrite Hv. }
  destruct (decide (flags kv.2 = FLAG_QUEUED)) as [|Hf]; [done|].
  destruct (Z.ltb_spec (fe_now fe - first_value kv.2) timeout); [done|].
  exfalso. destruct (decide (values kv.2 = [])).
  - apply Hne. repeat split; [done|lia|done].
  - apply Hnq. repeat split; [done|lia|done].
Qed.

Lemma flush_scan_ok l st :
  fl_failed st = false → NoDup l.*1 →
  fl_failed (flush_scan timeout fe st l) = false
  ∧ fl_queue (flush_scan timeout fe st l)
    = fl_queue st ++ (filter (flush_queues timeout (fe_now fe)) l).*1
  ∧ fl_keys (flush_scan timeout fe st l)
    = fl_keys st ++ (filter (flush_evicts timeout (fe_now fe)) l).*1
  ∧ (∀ k, (∀ rc, (k, rc) ∈ l → ¬ flush_queues timeout (fe_now fe) (k, rc)) →
          fl_cache (flush_scan timeout fe st l) !! k = fl_cache st !! k)
  ∧ (∀ k rc, (k, rc) ∈ l → flush_queues timeout (fe_now fe) (k, rc) →
             fl_cache (flush_scan timeout fe st l) !! k
             = Some (set_flags FLAG_QUEUED rc)).
Proof.
  unfold flush_scan. revert st.
  induction l as [|[k0 rc0] l IH]; intros st Hst Hnd.
  { simpl. rewrite !app_nil_r. split_and!; try done.
    intros k rc Hin. by apply elem_of_nil in Hin. }
  simpl in Hnd. apply NoDup_cons in Hnd as [Hk0 Hnd].
  simpl foldl. rewrite flush_visit_ok by done.
  rewrite !filter_cons.
  destruct (decide (flush_queues timeout (fe_now fe) (k0, rc0))) as [Hq|Hq].
  - rewrite decide_False by (destruct Hq as [_ ?]; intros [_ ?]; done).
    destruct (IH {| fl_cache := <[(k0, rc0).1 := set_flags FLAG_QUEUED
                                                  (k0, rc0).2]> (fl_cache st);
                    fl_queue := fl_queue st ++ [(k0, rc0).1];
                    fl_keys := fl_keys st; fl_failed := false |}
                 eq_refl Hnd) as (H1 & H2 & H3 & H4 & H5).
    simpl in *. split_and!; [done| |done| |].
    + rewrite H2. by rewrite <- app_assoc.
    + intros k Hk. rewrite H4.
      * apply lookup_insert_ne. intros <-. eapply Hk; [by left|done].
      * intros rc Hin. apply Hk. by right.
    + intros k rc [[= -> ->]|Hin]%elem_of_cons Hqk.
      * rewrite H4; [apply lookup_insert_eq|].
        intros rc Hin. exfalso. apply Hk0.
        apply list_elem_of_fmap. by exists (k0, rc).
      * by apply H5.
  - destruct (decide (flush_evicts timeout (fe_now fe) (k0, rc0))) as [He|He].
    + destruct (IH {| fl_cache := fl_cache st; fl_queue := fl_queue st;
                      fl_keys := fl_keys st ++ [(k0, rc0).1];
                      fl_failed := false |}
                   eq_refl Hnd) as (H1 & H2 & H3 & H4 & H5).
      simpl in *. split_and!; [done..| | |].
      * rewrite H3. by rewrite <- app_assoc.
      * intros k Hk. apply H4. intros rc Hin. apply Hk. by right.
      * intros k rc [[= -> ->]|Hin]%elem_of_cons Hqk; [done|]. by apply H5.
    + destruct (IH st Hst Hnd) as (H1 & H2 & H3 & H4 & H5).
      split_and!; [done..| |].
      * intros k Hk. apply H4. intros rc Hin. apply Hk. by right.
      * intros k rc [[= -> ->]|Hin]%elem_of_cons Hqk; [done|]. by apply H5.
Qed.

End flush_ok.

(** With no failed allocation, a flush leaves an entry as it is when it
    is queued or younger than [timeout]; otherwise it queues the file and
    sets the flag when the buffer holds values, and takes the entry out
    of the tree when the buffer is empty. *)
Lemma rrd_cache_flush_entry timeout fe s k rc :
  fe_alloc_ok fe → cache s !! k = Some rc →
  cache (rrd_cache_flush timeout fe s) !! k
  = (if decide (flush_queues timeout (fe_now fe) (k, rc))
     then Some (set_flags FLAG_QUEUED rc)
     else if decide (flush_evicts timeout (fe_now fe) (k, rc)) then None
     else Some rc)
  ∧ (flush_queues timeout (fe_now fe) (k, rc) →
     k ∈ queue (rrd_cache_flush timeout fe s))
  ∧ cache_flush_last (rrd_cache_flush timeout fe s) = fe_now fe.
Proof.
  intros Hfe Hk. unfold rrd_cache_flush.
  destruct (flush_scan_ok timeout fe Hfe (avl_iterate (cache s))
              {| fl_cache := cache s; fl_queue := queue s;
                 fl_keys := []; fl_failed := false |}
              eq_refl (NoDup_avl_iterate _)) as (-> & Hq & Hks & Hc1 & Hc2).
  simpl in *. rewrite Hq, Hks. simpl.
  assert (∀ rc', (k, rc') ∈ avl_iterate (cache s) → rc' = rc) as Huniq.
  { intros rc' Hin%elem_of_avl_iterate. congruence. }
  assert ((k, rc) ∈ avl_iterate (cache s)) as Hin
    by by apply elem_of_avl_iterate.
  split_and!; [|intros Hqk|done].
  - rewrite flush_remove_lookup.
    destruct (decide (flush_queues timeout (fe_now fe) (k, rc))) as [Hqk|Hqk].
    + rewrite decide_False; [by apply Hc2|].
      intros ([k' rc'] & -> & [He Hin']%list_elem_of_filter)%list_elem_of_fmap.
      simpl in *. apply Huniq in Hin' as ->.
      destruct Hqk as [_ ?], He as [_ ?]. done.
    + destruct (decide (flush_evicts timeout (fe_now fe) (k, rc))) as [He|He].
      * rewrite decide_True; [done|].
        apply list_elem_of_fmap. exists (k, rc). split; [done|].
        by apply list_elem_of_filter.
      * rewrite decide_False.
        -- rewrite Hc1; [done|]. by intros rc' ->%Huniq.
        -- intros ([k' rc'] & -> & [He' Hin']%list_elem_of_filter)
             %list_elem_of_fmap.
           simpl in *. by apply Huniq in Hin' as ->.
  - apply elem_of_app. right.
    apply list_elem_of_fmap. exists (k, rc). split; [done|].
    by apply list_elem_of_filter.
Qed.


(** ** rrd_cache_insert, case by case *)

Lemma set_cache_id s : set_cache (cache s) s = s.
Proof. by destruct s. Qed.

Lemma set_state_id y : set_state (sys_state y) y = y.
Proof. by destruct y. Qed.

Lemma insert_enqueue_cache a g rc s :
  cache (insert_enqueue a g rc s) = cache s
  ∨ cache (insert_enqueue a g rc s)
    = <[g := set_flags FLAG_QUEUED rc]> (cache s).
Proof.
  unfold insert_enqueue.
  destruct (_ <=? _); [|by left].
  destruct (decide _); [by left|].
  destruct (_ =? 0); [by right|by left].
Qed.

Lemma insert_enqueue_lookup a g rc s k rc' :
  cache s !! g = Some rc →
  cache (insert_enqueue a g rc s) !! k = Some rc' →
  ∃ rc0, cache s !! k = Some rc0 ∧ same_buffer rc0 rc'.
Proof.
  intros Hg. destruct (insert_enqueue_cache a g rc s) as [->| ->]; [eauto|].
  rewrite lookup_insert. case_decide; [|eauto].
  subst k. intros [= <-]. eauto.
Qed.

Lemma insert_enqueue_forth a g rc s k rc0 :
  cache s !! g = Some rc → cache s !! k = Some rc0 →
  ∃ rc', cache (insert_enqueue a g rc s) !! k = Some rc'
         ∧ same_buffer rc0 rc'.
Proof.
  intros Hg Hk. destruct (insert_enqueue_cache a g rc s) as [->| ->]; [eauto|].
  rewrite lookup_insert. case_decide; [|eauto].
  subst k. exists (set_flags FLAG_QUEUED rc). split; [done|].
  assert (rc0 = rc) as -> by congruence. done.
Qed.

Lemma insert_enqueue_shutdown a g rc s :
  do_shutdown (insert_enqueue a g rc s) = do_shutdown s.
Proof.
  unfold insert_enqueue.
  destruct (_ <=? _); [|done]. destruct (decide _); [done|].
  by destruct (_ =? 0).
Qed.

Lemma insert_flush_back e s k rc' :
  cache (insert_flush e s) !! k = Some rc' →
  ∃ rc, cache s !! k = Some rc ∧ same_buffer rc rc'.
Proof.
  unfold insert_flush. destruct (_ && _); [|eauto].
  apply rrd_cache_flush_back.
Qed.

Lemma insert_flush_forth e s k rc :
  cache s !! k = Some rc → values rc ≠ [] →
  ∃ rc', cache (insert_flush e s) !! k = Some rc' ∧ same_buffer rc rc'.
Proof.
  unfold insert_flush. destruct (_ && _); [|eauto].
  apply rrd_cache_flush_forth.
Qed.

Lemma insert_flush_shutdown e s :
  do_shutdown (insert_flush e s) = do_shutdown s.
Proof.
  unfold insert_flush. destruct (_ && _); [|done].
  apply rrd_cache_flush_config.
Qed.

(** The entry found under [k] after a call of [rrd_cache_insert] for [g]:
    either the buffer that was there, or (for [k = g], the time stamp
    being newer) the buffer extended by the value, or left as it was when
    [strdup] of the value failed. *)
Lemma rrd_cache_insert_lookup g v t e s k rc' :
  cache (rrd_cache_insert g v t e s).2 !! k = Some rc' →
  (∃ rc, cache s !! k = Some rc ∧ same_buffer rc rc')
  ∨ (k = g ∧ last_value (insert_entry s g) < t ∧ last_value rc' = t
     ∧ (values rc' = values (insert_entry s g) ++ [(t, v)]
        ∨ values rc' = values (insert_entry s g))).
Proof.
  unfold rrd_cache_insert, insert_entry.
  destruct (bool_decide _ && negb (ie_malloc_rc e)); [simpl; eauto|].
  set (rc := default rc_fresh (cache s !! g)).
  destruct (Z.leb_spec t (last_value rc)) as [|Hlt]; [simpl; eauto|].
  destruct (ie_realloc_values e); simpl.
  2:{ rewrite lookup_delete. case_decide; [done|eauto]. }
  destruct (bool_decide _ && negb (ie_strdup_key e)); [simpl; eauto|].
  simpl. intros Hk.
  apply insert_flush_back in Hk as (rc2 & Hk & Hs2).
  apply insert_enqueue_lookup in Hk as (rc1 & Hk & Hs1);
    [|simpl; apply lookup_insert_eq].
  simpl in Hk. rewrite lookup_insert in Hk. case_decide.
  - subst k. injection Hk as <-. right.
    pose proof (same_buffer_trans _ _ _ Hs1 Hs2) as (Hv & _ & Hl).
    split_and!; [done|done|by rewrite Hl|].
    rewrite Hv. simpl. destruct (ie_strdup_value e); eauto.
  - left. exists rc1. split; [done|]. by eapply same_buffer_trans.
Qed.

Lemma rrd_cache_insert_old g v t e s :
  t ≤ last_value (insert_entry s g) →
  insert_status (rrd_cache_insert g v t e s).1 = -1
  ∧ (rrd_cache_insert g v t e s).2 = s.
Proof.
  unfold rrd_cache_insert, insert_entry. intros Ht.
  destruct (bool_decide _ && negb (ie_malloc_rc e)); [done|].
  destruct (Z.leb_spec t (last_value (default rc_fresh (cache s !! g))));
    [done|lia].
Qed.

Lemma rrd_cache_insert_new g v t e s :
  insert_alloc_ok e → last_value (insert_entry s g) < t →
  (rrd_cache_insert g v t e s).1 = InsertOk.
Proof.
  unfold rrd_cache_insert, insert_entry. intros (-> & -> & ->) Ht.
  rewrite !andb_false_r.
  destruct (Z.leb_spec t (last_value (default rc_fresh (cache s !! g))));
    [lia|done].
Qed.

Lemma rrd_cache_insert_shutdown g v t e s :
  do_shutdown (rrd_cache_insert g v t e s).2 = do_shutdown s.
Proof.
  unfold rrd_cache_insert.
  destruct (_ && negb (ie_malloc_rc e)); [done|].
  destruct (_ <=? _); [done|].
  destruct (ie_realloc_values e); [|done]. simpl.
  destruct (_ && negb (ie_strdup_key e)); [done|]. simpl.
  by rewrite insert_flush_shutdown, insert_enqueue_shutdown.
Qed.

(** ** Ordering invariants of the transition system *)

Lemma rc_ordered_same rc rc' :
  same_buffer rc rc' → rc_ordered rc → rc_ordered rc'.
Proof. unfold rc_ordered. intros (-> & _ & ->). done. Qed.

Lemma rc_ordered_fresh : rc_ordered rc_fresh.
Proof. split; constructor. Qed.

Lemma rc_ordered_extend rc rc' t v :
  rc_ordered rc → last_value rc < t → last_value rc' = t →
  values rc' = values rc ++ [(t, v)] ∨ values rc' = values rc →
  rc_ordered rc'.
Proof.
  unfold rc_ordered. intros [Hi Hb] Hlt -> [-> | ->].
  - rewrite fmap_app. simpl. split.
    + by eapply increasing_snoc.
    + by eapply bounded_by_snoc.
  - split; [done|]. eapply bounded_by_mono; [done|lia].
Qed.

Lemma rc_ordered_insert_entry s g :
  (∀ f rc, cache s !! f = Some rc → rc_ordered rc) →
  rc_ordered (insert_entry s g).
Proof.
  intros H. unfold insert_entry.
  destruct (cache s !! g) eqn:Hg; simpl; [eauto|apply rc_ordered_fresh].
Qed.

Lemma run_invariant (P : rrd_system → Prop) :
  (∀ l y, P y → P (step l y)) → ∀ ls y, P y → P (run ls y).
Proof.
  intros Hstep ls. unfold run.
  induction ls as [|l ls IH]; intros y Hy; [done|].
  simpl. apply IH. by apply Hstep.
Qed.

Lemma sys_inv_init now ct cft : sys_inv (rrd_init now ct cft).
Proof.
  constructor; simpl; [|done|].
  - intros f rc. by rewrite lookup_empty.
  - intros u Hu. by apply elem_of_nil in Hu.
Qed.

Lemma sys_inv_step l y : sys_inv y → sys_inv (step l y).
Proof.
  intros Hy. pose proof Hy as [Hc Hw Hu].
  destruct l as [g v t e|fe| | | |ok st|]; simpl.
  - destruct (cache_destroyed y); [done|]. constructor; simpl; [|done..].
    intros f rc' Hf.
    apply rrd_cache_insert_lookup in Hf
      as [(rc & Hf & Hs)|(-> & Hlt & Hl & Hv)].
    + eapply rc_ordered_same; eauto.
    + eapply rc_ordered_extend; [|done..]. by apply rc_ordered_insert_entry.
  - destruct (cache_destroyed y); [done|]. constructor; simpl; [|done..].
    intros f rc' (rc & Hf & Hs)%rrd_cache_flush_back.
    eapply rc_ordered_same; eauto.
  - done.
  - destruct (sys_worker y) eqn:Hpc; try done.
    destruct (queue_dequeue _ _); [done| |]; constructor; simpl; try done.
    all: intros f vs; rewrite Hpc in Hw; eauto.
  - destruct (sys_worker y) as [|g| | | |] eqn:Hpc; try done.
    unfold queue_thread_take.
    destruct (cache (sys_state y) !! g) as [rc|] eqn:Hg;
      constructor; simpl; try done.
    + intros f rc'. rewrite lookup_insert. case_decide; [|apply Hc].
      intros [= <-]. split; constructor.
    + intros f vs [= <- <-]. by destruct (Hc _ _ Hg).
  - destruct (sys_worker y) as [| |g vs| | |] eqn:Hpc; try done.
    constructor; simpl; [done..|].
    intros u [Hin|Hin]%elem_of_app; [by apply Hu|].
    unfold rrd_write_to_file in Hin.
    destruct (_ <? 1); [by apply elem_of_nil in Hin|].
    destruct ok; simpl in Hin; [|by apply elem_of_nil in Hin].
    apply list_elem_of_singleton in Hin as ->. simpl. eauto.
  - destruct (sys_worker y) eqn:Hpc; done.
Qed.

Lemma sys_inv_run ls y : sys_inv y → sys_inv (run ls y).
Proof. apply run_invariant, sys_inv_step. Qed.

Lemma file_inv_init f now ct cft : file_inv f (rrd_init now ct cft).
Proof. unfold file_inv. simpl. by rewrite lookup_empty. Qed.

Lemma file_inv_step f l y :
  file_inv f y →
  (is_Some (cache (sys_state y) !! f) →
   is_Some (cache (sys_state (step l y)) !! f)) →
  file_inv f (step l y).
Proof.
  intros Hinv Hkeep.
  destruct l as [g v t e|fe| | | |ok st|]; simpl in *.
  - destruct (cache_destroyed y); [done|]. simpl in Hkeep.
    unfold file_inv, written, inflight in *. simpl.
    set (s' := (rrd_cache_insert g v t e (sys_state y)).2) in *.
    destruct (cache s' !! f) as [rc'|] eqn:Hf'.
    + apply rrd_cache_insert_lookup in Hf'
        as [(rc & Hf & Hv & _ & Hl)|(-> & Hlt & Hl & Hv)].
      * rewrite Hf in Hinv. by rewrite Hv, Hl.
      * unfold insert_entry in *. rewrite Hl.
        destruct (cache (sys_state y) !! g) as [rc|]; simpl in *.
        -- destruct Hinv as [Hi Hb]. destruct Hv as [-> | ->].
           ++ rewrite fmap_app, app_assoc. simpl. split.
              ** by eapply increasing_snoc.
              ** by eapply bounded_by_snoc.
           ++ split; [done|]. eapply bounded_by_mono; [done|lia].
        -- rewrite Hinv. destruct Hv as [-> | ->]; simpl.
           ++ split; repeat constructor. simpl. lia.
           ++ split; constructor.
    + destruct (cache (sys_state y) !! f); [|done].
      destruct Hkeep as [? [=]]. eauto.
  - destruct (cache_destroyed y); [done|]. simpl in Hkeep.
    unfold file_inv, written, inflight in *. simpl.
    set (s' := rrd_cache_flush (-1) fe (sys_state y)) in *.
    destruct (cache s' !! f) as [rc'|] eqn:Hf'.
    + apply rrd_cache_flush_back in Hf' as (rc & Hf & Hv & _ & Hl).
      rewrite Hf in Hinv. by rewrite Hv, Hl.
    + destruct (cache (sys_state y) !! f); [|done].
      destruct Hkeep as [? [=]]. eauto.
  - done.
  - unfold file_inv, written, inflight in *.
    destruct (sys_worker y) eqn:Hpc; try (by rewrite Hpc).
    destruct (queue_dequeue _ _); simpl; [by rewrite Hpc|done..].
  - unfold file_inv, written, inflight in *.
    destruct (sys_worker y) as [|g| | | |] eqn:Hpc; try (by rewrite Hpc).
    unfold queue_thread_take.
    destruct (cache (sys_state y) !! g) as [rc|] eqn:Hg; simpl; [|done].
    rewrite lookup_insert. destruct (decide (g = f)) as [->|Hne].
    + rewrite Hg in Hinv. simpl. rewrite !app_nil_r in *. done.
    + done.
  - unfold file_inv, written, inflight in *.
    destruct (sys_worker y) as [| |g vs| | |] eqn:Hpc; try (by rewrite Hpc).
    simpl. rewrite update_times_app, app_nil_r.
    assert (update_times f (rrd_write_to_file ok st g vs).2
            = (if decide (g = f) then vs.*1 else [])
            ∨ update_times f (rrd_write_to_file ok st g vs).2 = [])
      as [-> | ->].
    { unfold rrd_write_to_file.
      destruct (_ <? 1); [by right|]. destruct ok; simpl; [|by right].
      left. by rewrite app_nil_r. }
    + done.
    + rewrite app_nil_r.
      destruct (cache (sys_state y) !! f) as [rc|].
      * destruct Hinv as [Hi Hb]. rewrite <- app_assoc in Hi, Hb. split.
        -- by eapply increasing_drop_middle.
        -- by eapply bounded_by_drop_middle.
      * by apply app_eq_nil in Hinv as [-> _].
  - unfold file_inv, written, inflight in *.
    destruct (sys_worker y) eqn:Hpc; try (by rewrite Hpc).
    simpl in *. rewrite lookup_empty in *.
    destruct (cache (sys_state y) !! f); [|done].
    destruct Hkeep as [? [=]]. eauto.
Qed.

Lemma file_inv_run f ls y :
  file_inv f y → keeps f ls y → file_inv f (run ls y).
Proof.
  unfold run. revert y.
  induction ls as [|l ls IH]; intros y Hy Hk; [done|].
  destruct Hk as [Hk1 Hk2]. simpl. apply IH; [|done].
  by apply file_inv_step.
Qed.

Lemma file_inv_written f y : file_inv f y → increasing (written f y).
Proof.
  unfold file_inv. destruct (cache (sys_state y) !! f).
  - intros [Hi _]. by apply StronglySorted_app_1_l in Hi.
  - intros ->. constructor.
Qed.

(** ** C1: ordering of the buffers and of the updates *)

(** C1, as stated, fails: the time stamps handed to [rrd_update] for one
    file need not increase. In [run_evict] file A is updated with 1000,
    1010 and then, its entry having been evicted by the flusher and
    created anew with [last_value = 0], with 1005 and 1015. *)
Lemma update_times_not_increasing :
  ¬ (∀ now ct cft ls f,
       increasing
         (update_times f (sys_updates (run ls (rrd_init now ct cft))))).
Proof.
  intros H. specialize (H 1000 10 30 run_evict "A").
  vm_compute in H.
  apply StronglySorted_cons in H as [_ H].
  apply StronglySorted_cons in H as [H _].
  apply Forall_cons in H as [H _]. discriminate H.
Qed.

(** C1, amended: along every run from the initial state, the time stamps
    buffered in each cache entry increase strictly, the time stamps of
    each single call of [rrd_update] increase strictly, and the sequence
    of all time stamps handed to [rrd_update] for a file increases
    strictly as long as the entry of that file is never taken out of the
    tree (by the flusher, by a failed [realloc], or by [avl_destroy]). *)
Theorem rrd_updates_increasing (now ct cft : Z) (ls : list label) :
  (∀ f rc, cache (sys_state (run ls (rrd_init now ct cft))) !! f = Some rc →
           increasing (values rc).*1)
  ∧ (∀ u, u ∈ sys_updates (run ls (rrd_init now ct cft)) →
          increasing u.2.*1)
  ∧ (∀ f, keeps f ls (rrd_init now ct cft) →
          increasing
            (update_times f (sys_updates (run ls (rrd_init now ct cft))))).
Proof.
  pose proof (sys_inv_run ls _ (sys_inv_init now ct cft)) as [Hc _ Hu].
  split_and!; [|done|].
  - intros f rc Hf. by destruct (Hc _ _ Hf).
  - intros f Hk.
    pose proof (file_inv_run f ls _ (file_inv_init f now ct cft) Hk) as Hf.
    apply file_inv_written in Hf. unfold written in Hf.
    by apply StronglySorted_app_1_l in Hf.
Qed.

Lemma rrd_updates_increasing_witness :
  increasing
    (update_times "A" (sys_updates (run run_once (rrd_init 1000 10 30)))).
Proof.
  apply (proj2 (proj2 (rrd_updates_increasing 1000 10 30 run_once))).
  simpl. repeat split; intros _; vm_compute; eexists; reflexivity.
Defined.

(** ** C2: rejection of a value that is not newer *)

(** C2, as stated, fails: [rrd_cache_insert] also returns [-1] for a newer
    value, when an allocation fails. Here [realloc] fails for the first
    value, with time stamp 5, of file A. *)
Lemma rrd_cache_insert_error_not_only_old :
  ¬ (∀ g v t e s,
       insert_status (rrd_cache_insert g v t e s).1 = -1
       ↔ t ≤ last_value (insert_entry s g)).
Proof.
  intros H.
  destruct (H "A" "5:1" 5 (ie_no_realloc 1000) state0) as [H1 _].
  specialize (H1 eq_refl). vm_compute in H1. by apply H1.
Qed.

(** C2, amended: [rrd_cache_insert] returns [-1] whenever the entry of the
    file (the fresh one, with [last_value = 0], when there is none) has
    [last_value >= value_time], and, when no allocation fails, only then.
    On that rejection nothing is changed: the state after the call is the
    state before it, entry included, and every later run, hence every
    later call of [rrd_update], is what it is without the call. *)
Theorem rrd_cache_insert_rejects_old (g v : string) (t : Z) (e : insert_env) :
  (∀ s, t ≤ last_value (insert_entry s g) →
        insert_status (rrd_cache_insert g v t e s).1 = -1
        ∧ (rrd_cache_insert g v t e s).2 = s)
  ∧ (∀ y ls, t ≤ last_value (insert_entry (sys_state y) g) →
             run (LInsert g v t e :: ls) y = run ls y)
  ∧ (∀ s, insert_alloc_ok e →
          (insert_status (rrd_cache_insert g v t e s).1 = -1
           ↔ t ≤ last_value (insert_entry s g))).
Proof.
  split_and!.
  - intros s. apply rrd_cache_insert_old.
  - intros y ls Ht. unfold run. simpl.
    destruct (cache_destroyed y); [done|].
    destruct (rrd_cache_insert_old g v t e _ Ht) as [_ ->].
    by rewrite set_state_id.
  - intros s Hok. split.
    + intros Hst.
      destruct (Z.le_gt_cases t (last_value (insert_entry s g))) as [|Hlt];
        [done|].
      by rewrite (rrd_cache_insert_new g v t e s Hok) in Hst by lia.
    + intros Ht. by apply rrd_cache_insert_old.
Qed.

Lemma rrd_cache_insert_rejects_old_witness :
  insert_status
    (rrd_cache_insert "A" "999:1" 999 (ie_ok 1001)
       (sys_state (run (take 1 run_evict) (rrd_init 1000 10 30)))).1 = -1
  ∧ (rrd_cache_insert "A" "999:1" 999 (ie_ok 1001)
       (sys_state (run (take 1 run_evict) (rrd_init 1000 10 30)))).2
    = sys_state (run (take 1 run_evict) (rrd_init 1000 10 30)).
Proof.
  apply (proj1 (rrd_cache_insert_rejects_old "A" "999:1" 999 (ie_ok 1001))).
  vm_compute. discriminate.
Defined.

(** ** C3: what an accepted value does to the entry *)

(** C3, as stated, fails: when [strdup] of the value fails the call still
    returns 0, but the buffer has not grown. *)
Lemma rrd_cache_insert_ok_without_append :
  ¬ (∀ g v t e s,
       (rrd_cache_insert g v t e s).1 = InsertOk →
       last_value (insert_entry s g) < t →
       ∃ rc', cache (rrd_cache_insert g v t e s).2 !! g = Some rc'
              ∧ values rc' = values (insert_entry s g) ++ [(t, v)]).
Proof.
  intros H.
  destruct (H "A" "5:1" 5 (ie_no_strdup_value 1000) state0)
    as (rc' & Hg & Hv); [done|done|].
  vm_compute in Hg. injection Hg as <-. discriminate Hv.
Qed.

(** C3, amended: for every call that returns 0 and whose copy of the
    value was allocated, the time stamp is newer than the previous
    [last_value], and afterwards the entry of the file holds the previous
    buffer followed by exactly the new value, [last_value] is the time
    stamp, and [first_value] is the time stamp if the buffer was empty
    before the call and is unchanged otherwise. *)
Theorem rrd_cache_insert_appends (g v : string) (t : Z) (e : insert_env)
    (s : rrd_state) :
  (rrd_cache_insert g v t e s).1 = InsertOk →
  ie_strdup_value e = true →
  last_value (insert_entry s g) < t
  ∧ ∃ rc', cache (rrd_cache_insert g v t e s).2 !! g = Some rc'
      ∧ values rc' = values (insert_entry s g) ++ [(t, v)]
      ∧ last_value rc' = t
      ∧ first_value rc'
        = if decide (values (insert_entry s g) = []) then t
          else first_value (insert_entry s g).
Proof.
  unfold rrd_cache_insert, insert_entry. intros Hr Hdup. rewrite Hdup in *.
  destruct (bool_decide _ && negb (ie_malloc_rc e)); [done|].
  set (rc := default rc_fresh (cache s !! g)) in *.
  destruct (Z.leb_spec t (last_value rc)) as [|Hlt]; [done|].
  destruct (ie_realloc_values e); [|done]. simpl in *.
  destruct (bool_decide _ && negb (ie_strdup_key e)); [done|].
  split; [done|]. simpl.
  set (rc1 := rc_append true v t rc).
  set (s1 := set_cache (<[g:=rc1]> (cache s)) s).
  assert (cache s1 !! g = Some rc1) as Hg1 by apply lookup_insert_eq.
  destruct (insert_enqueue_forth (ie_queue e) g rc1 s1 g rc1 Hg1 Hg1)
    as (rc2 & Hg2 & Hv2 & Hf2 & Hl2).
  destruct (insert_flush_forth e _ _ _ Hg2) as (rc3 & Hg3 & Hv3 & Hf3 & Hl3).
  { rewrite Hv2. simpl. by destruct (values rc). }
  exists rc3. split; [done|].
  rewrite Hv3, Hv2, Hl3, Hl2, Hf3, Hf2.
  unfold rc1, rc_append. cbn [values first_value last_value].
  split_and!; [done..|].
  destruct (Z.eqb_spec (Z.of_nat (length (values rc ++ [(t, v)]))) 1)
    as [Hlen|Hlen]; rewrite length_app in Hlen; simpl in Hlen;
    destruct (values rc); simpl in *; try done; lia.
Qed.

Lemma rrd_cache_insert_appends_witness :
  ∃ rc', cache (rrd_cache_insert "A" "1000:1" 1000 (ie_ok 1000) state0).2
           !! "A" = Some rc'
         ∧ values rc' = [(1000, "1000:1")].
Proof.
  destruct (rrd_cache_insert_appends "A" "1000:1" 1000 (ie_ok 1000) state0)
    as (_ & rc' & Hg & Hv & _); [reflexivity|reflexivity|].
  exists rc'. split; [exact Hg|exact Hv].
Defined.

(** ** C4: a queued file without an entry *)

Lemma queue_thread_take_missing f (c : gmap string rrd_cache_t) :
  c !! f = None → queue_thread_take f c = None.
Proof. unfold queue_thread_take. by intros ->. Qed.

(** C4 does not hold of the code: in [run_fault] the queue thread has
    dequeued A while the tree has no entry for A, and its critical
    section on [cache_lock] dereferences the pointer that [avl_get] did
    not set, instead of coming back with no values. *)
Theorem queue_thread_take_faults :
  sys_worker (run (take 3 run_fault) (rrd_init 1000 0 0))
  = WorkerDequeued "A"
  ∧ cache (sys_state (run (take 3 run_fault) (rrd_init 1000 0 0))) !! "A"
    = None
  ∧ sys_worker (run run_fault (rrd_init 1000 0 0)) = WorkerFault.
Proof. vm_compute. done. Qed.

(** ** C5: the flush of rrd_shutdown *)

(** C5 does not hold of the code: with [timeout = -1] the test
    [(now - rc->first_value) < timeout] still skips an entry whose first
    value is more than one second ahead of the clock. In [run_future] the
    insert returns 0, the flush of [rrd_shutdown] leaves the entry of A
    unqueued, and the queue thread ends with the tree destroyed and no
    call of [rrd_update] made. *)
Theorem rrd_cache_flush_shutdown_skips :
  (rrd_cache_insert "A" "1010:1" 1010 (ie_ok 1000)
     (sys_state (rrd_init 1000 10 30))).1 = InsertOk
  ∧ cache (sys_state (run (take 2 run_future) (rrd_init 1000 10 30))) !! "A"
    = Some (RrdCache [(1010, "1010:1")] 1010 1010 FLAG_NONE)
  ∧ queue (sys_state (run (take 2 run_future) (rrd_init 1000 10 30))) = []
  ∧ sys_worker (run run_future (rrd_init 1000 10 30)) = WorkerExit
  ∧ sys_updates (run run_future (rrd_init 1000 10 30)) = [].
Proof. vm_compute. done. Qed.

(** ** C6: failed allocations in rrd_cache_insert *)

(** C6, as stated, fails: when [realloc] of the value array fails, the
    entry of the file is taken out of the tree although it was there
    before the call, and its buffered values go with it. *)
Lemma rrd_cache_insert_drops_entry :
  ¬ (∀ g v t e s rc,
       (rrd_cache_insert g v t e s).1 = InsertAllocFailure →
       cache s !! g = Some rc →
       cache (rrd_cache_insert g v t e s).2 !! g = Some rc).
Proof.
  intros H.
  specialize (H "A" "1001:1" 1001 (ie_no_realloc 1001) state_one
                (RrdCache [(1000, "1000:1")] 1000 1000 FLAG_NONE)
                eq_refl eq_refl).
  vm_compute in H. discriminate H.
Qed.

(** C6, amended: when [rrd_cache_insert] fails on an allocation, the
    value is dropped and the tree holds no entry for the file afterwards:
    a file without an entry gets none (the state is unchanged), and an
    entry that was there before the call is removed with its buffered
    values. The entries of all other files, the queue and the rest of the
    state are unchanged. *)
Theorem rrd_cache_insert_alloc_failure (g v : string) (t : Z)
    (e : insert_env) (s : rrd_state) :
  (rrd_cache_insert g v t e s).1 = InsertAllocFailure →
  (rrd_cache_insert g v t e s).2 = set_cache (delete g (cache s)) s
  ∧ cache (rrd_cache_insert g v t e s).2 !! g = None
  ∧ (∀ k, k ≠ g →
          cache (rrd_cache_insert g v t e s).2 !! k = cache s !! k)
  ∧ queue (rrd_cache_insert g v t e s).2 = queue s
  ∧ (cache s !! g = None → (rrd_cache_insert g v t e s).2 = s).
Proof.
  intros Hr.
  assert ((rrd_cache_insert g v t e s).2 = set_cache (delete g (cache s)) s)
    as Hs.
  { revert Hr. unfold rrd_cache_insert.
    destruct (cache s !! g) as [rc|] eqn:Hg; simpl.
    - destruct (Z.leb_spec t (last_value rc)); [done|].
      by destruct (ie_realloc_values e).
    - rewrite delete_id, set_cache_id by done.
      destruct (ie_malloc_rc e); [|done]. simpl.
      destruct (Z.leb_spec t 0); [done|].
      destruct (ie_realloc_values e); [|done]. simpl.
      by destruct (ie_strdup_key e). }
  rewrite Hs. simpl. split_and!; [done| | |done|].
  - apply lookup_delete_eq.
  - intros k Hk. by apply lookup_delete_ne.
  - intros Hg. by rewrite delete_id, set_cache_id.
Qed.

Lemma rrd_cache_insert_alloc_failure_witness :
  cache (rrd_cache_insert "A" "1001:1" 1001 (ie_no_realloc 1001) state_one).2
    !! "A" = None.
Proof.
  exact (proj1 (proj2 (rrd_cache_insert_alloc_failure
                         "A" "1001:1" 1001 (ie_no_realloc 1001) state_one
                         eq_refl))).
Defined.

(** ** C7: rra_get computes what the specification says *)

Lemma int_wrap_small z : int_range z → int_wrap z = z.
Proof.
  unfold int_range, int_wrap. intros Hz.
  rewrite Z.mod_small by lia. lia.
Qed.

Lemma quot_lt_div span step rows :
  1 ≤ step → 1 ≤ rows →
  (Z.quot span step <? rows) = (Z.div span step <? rows).
Proof.
  intros Hs Hr. destruct (Z.le_gt_cases 0 span) as [Hp|Hn].
  - by rewrite Z.quot_div_nonneg by lia.
  - assert (Z.quot span step ≤ 0) by (apply Z.quot_le_upper_bound; lia).
    assert (Z.div span step < 0) by (apply Z.div_lt_upper_bound; lia).
    destruct (Z.ltb_spec (Z.quot span step) rows),
             (Z.ltb_spec (Z.div span step) rows); try done; lia.
Qed.

Lemma double_ceil_div_ceil a b : 0 < b → double_ceil_div a b = ceil_div a b.
Proof.
  unfold double_ceil_div, ceil_div. intros Hb.
  pose proof (Z.div_mod (- a) b) as H1.
  pose proof (Z.mod_pos_bound (- a) b Hb) as H2.
  pose proof (Z.div_mod (a + b - 1) b) as H3.
  pose proof (Z.mod_pos_bound (a + b - 1) b Hb) as H4.
  nia.
Qed.

(** An accepted timespan is at least [rra_rows * step_size]. *)
Lemma accepted_span span step rows :
  1 ≤ step → 1 ≤ rows → rows ≤ Z.div span step → rows * step ≤ span.
Proof.
  intros Hs Hr Ha.
  pose proof (Z.div_mod span step) as H1.
  pose proof (Z.mod_pos_bound span step) as H2. nia.
Qed.

Lemma rra_emit_types rra_max cdp_len cdp_num num def :
  num + 3 ≤ rra_max →
  foldl (rra_emit rra_max cdp_len cdp_num) (num, def) rra_types
  = (num + 3,
     def ++ [Rra "AVERAGE" cdp_len cdp_num; Rra "MIN" cdp_len cdp_num;
             Rra "MAX" cdp_len cdp_num]).
Proof.
  intros Hn. unfold rra_types, rra_emit. simpl.
  destruct (Z.leb_spec rra_max num); [lia|]. simpl.
  destruct (Z.leb_spec rra_max (num + 1)); [lia|]. simpl.
  destruct (Z.leb_spec rra_max (num + 1 + 1)); [lia|]. simpl.
  rewrite <- !app_assoc. simpl. f_equal. lia.
Qed.

Lemma rra_visit_spec cfg rra_max cdp_len num def spans :
  1 ≤ stepsize cfg → 1 ≤ rrarows cfg →
  Forall int_range spans →
  0 ≤ cdp_len →
  num + 3 * Z.of_nat (length spans) ≤ rra_max →
  (foldl (rra_visit cfg rra_max) (cdp_len, (num, def)) spans).2
  = (num + Z.of_nat (length (rra_spec (cdp_len =? 0) (stepsize cfg)
                               (rrarows cfg) spans)),
     def ++ rra_spec (cdp_len =? 0) (stepsize cfg) (rrarows cfg) spans).
Proof.
  intros Hs Hr Hspans. revert cdp_len num def.
  induction Hspans as [|span spans Hspan Hspans IH];
    intros cdp_len num def Hlen Hmax.
  { simpl. by rewrite Z.add_0_r, app_nil_r. }
  simpl foldl. simpl rra_spec. simpl length in Hmax.
  unfold rra_visit at 2. simpl.
  rewrite quot_lt_div by done.
  destruct (Z.ltb_spec (Z.div span (stepsize cfg)) (rrarows cfg)) as [|Hacc].
  { apply IH; [done|lia]. }
  pose proof (accepted_span _ _ _ Hs Hr Hacc) as Hbig.
  set (len := if cdp_len =? 0 then 1
              else double_floor_div span
                     (int_wrap (rrarows cfg * stepsize cfg))).
  assert (len = (if cdp_len =? 0 then 1
                 else Z.div span (rrarows cfg * stepsize cfg))) as Hlen'.
  { unfold len, double_floor_div. destruct (cdp_len =? 0); [done|].
    rewrite int_wrap_small; [done|]. unfold int_range in *. nia. }
  assert (1 ≤ len ∧ len * stepsize cfg ≤ span) as [Hlen1 Hlen2].
  { rewrite Hlen'. destruct (cdp_len =? 0); [nia|].
    assert (0 < rrarows cfg * stepsize cfg) as Hpos by nia.
    pose proof (Z.div_mod span (rrarows cfg * stepsize cfg)) as H1.
    pose proof (Z.mod_pos_bound span _ Hpos) as H2.
    split; [apply Z.div_le_lower_bound; lia|nia]. }
  rewrite int_wrap_small by (unfold int_range in *; nia).
  rewrite double_ceil_div_ceil by nia.
  pose proof (rra_emit_types rra_max len
                (ceil_div span (len * stepsize cfg)) num def) as Hemit.
  unfold rra_types in Hemit. simpl in Hemit. rewrite Hemit by lia.
  rewrite IH by lia.
  assert ((len =? 0) = false) as -> by (apply Z.eqb_neq; lia).
  rewrite Hlen'. simpl length. rewrite <- app_assoc. simpl app.
  f_equal. lia.
Qed.

(** C7: for a step size and a row count of at least 1 (and timespans
    that are [int] values), [rra_get] returns the archives of the
    specification: timespans with [span / step_size < rra_rows] are
    skipped, [cdp_len] is 1 for the first accepted timespan and
    [floor (span / (rra_rows * step_size))] for the later ones, and
    [cdp_num] is [ceil (span / (cdp_len * step_size))]; and it fails when
    the step size or the row count is [<= 0]. *)
Theorem rra_get_spec (cfg : rra_config) :
  (1 ≤ stepsize cfg → 1 ≤ rrarows cfg → Forall int_range (rra_rts cfg) →
   (rra_get true cfg rra_static0).1
   = (Z.of_nat (length (rra_spec true (stepsize cfg) (rrarows cfg)
                          (rra_rts cfg))),
      Some (rra_spec true (stepsize cfg) (rrarows cfg) (rra_rts cfg))))
  ∧ (stepsize cfg ≤ 0 ∨ rrarows cfg ≤ 0 →
     ∀ malloc_ok, (rra_get malloc_ok cfg rra_static0).1.1 = -1).
Proof.
  split.
  - intros Hs Hr Hspans. unfold rra_get, rra_compute. simpl.
    destruct (Z.leb_spec (stepsize cfg) 0); [lia|].
    destruct (Z.leb_spec (rrarows cfg) 0); [lia|]. simpl.
    rewrite (rra_visit_spec cfg _ 0 0 []); [done..|lia|lia].
  - intros Hbad malloc_ok. unfold rra_get, rra_compute. simpl.
    destruct malloc_ok; [|done]. simpl.
    destruct (Z.leb_spec (stepsize cfg) 0); [done|].
    destruct (Z.leb_spec (rrarows cfg) 0); [done|lia].
Qed.

Lemma rra_get_spec_witness :
  (rra_get true cfg_s1 rra_static0).1
  = (6, Some [Rra "AVERAGE" 1 360; Rra "MIN" 1 360; Rra "MAX" 1 360;
              Rra "AVERAGE" 86 101; Rra "MIN" 86 101; Rra "MAX" 86 101]).
Proof.
  refine (proj1 (rra_get_spec cfg_s1) _ _ _).
  - simpl. lia.
  - simpl. lia.
  - repeat constructor; simpl; lia.
Defined.

(** A later call returns what the first call computed. *)
Lemma rra_get_again malloc_ok cfg st :
  (rra_get true cfg rra_static0).2 = st → rra_num st ≠ 0 →
  (rra_get malloc_ok cfg st).1 = (rra_get true cfg rra_static0).1.
Proof.
  intros <-. unfold rra_get. simpl. unfold rra_compute. simpl.
  destruct (_ || _); simpl; [done|]. intros Hn.
  apply Z.eqb_neq in Hn. by rewrite Hn.
Qed.

(** ** C8: the queue thread leaves its loop on an empty queue only *)

Lemma queue_dequeue_none q shutdown :
  queue_dequeue q shutdown = DequeueNone ↔ q = [] ∧ shutdown = true.
Proof.
  unfold queue_dequeue. destruct q, shutdown; split; try done.
  all: by intros [? ?].
Qed.

Lemma left_after_shutdown_step l y :
  left_after_shutdown y → left_after_shutdown (step l y).
Proof.
  unfold left_after_shutdown. intros Hy.
  destruct l as [g v t e|fe| | | |ok st|]; simpl.
  - destruct (cache_destroyed y); [done|]. simpl.
    rewrite rrd_cache_insert_shutdown. done.
  - destruct (cache_destroyed y); [done|]. simpl.
    by destruct (rrd_cache_flush_config (-1) fe (sys_state y))
      as (_ & _ & ->).
  - done.
  - destruct (sys_worker y) eqn:Hpc; rewrite ?Hpc; try done.
    destruct (queue_dequeue _ _) eqn:Hq; simpl; [by rewrite Hpc| |done].
    intros _. by apply queue_dequeue_none in Hq as [_ ?].
  - destruct (sys_worker y) eqn:Hpc; rewrite ?Hpc; try done.
    by destruct (queue_thread_take _ _).
  - by destruct (sys_worker y) eqn:Hpc; rewrite ?Hpc.
  - by destruct (sys_worker y) eqn:Hpc; rewrite ?Hpc.
Qed.

Lemma left_after_shutdown_reachable y :
  reachable y → left_after_shutdown y.
Proof.
  intros (now & ct & cft & ls & ->).
  apply run_invariant; [apply left_after_shutdown_step|done].
Qed.

(** C8: in every reachable state, the critical section of the queue
    thread on [queue_lock] ends without an entry only when the queue is
    empty and the shutdown flag is set; whichever step takes the queue
    thread out of its loop is therefore that critical section, taken with
    an empty queue and the flag set, and a thread that is out of its loop
    has seen the flag. *)
Theorem queue_thread_leaves_on_empty_queue (y : rrd_system) (l : label) :
  reachable y →
  (queue_dequeue (queue (sys_state y)) (do_shutdown (sys_state y))
   = DequeueNone
   ↔ queue (sys_state y) = [] ∧ do_shutdown (sys_state y) = true)
  ∧ (in_loop (sys_worker y) = true →
     in_loop (sys_worker (step l y)) = false →
     l = LDequeue ∧ sys_worker y = WorkerWait
     ∧ queue (sys_state y) = [] ∧ do_shutdown (sys_state y) = true
     ∧ queue (sys_state (step l y)) = [])
  ∧ (in_loop (sys_worker y) = false → do_shutdown (sys_state y) = true).
Proof.
  intros Hy. split_and!.
  - apply queue_dequeue_none.
  - destruct l as [g v t e|fe| | | |ok st|]; simpl.
    + destruct (cache_destroyed y); simpl; congruence.
    + destruct (cache_destroyed y); simpl; congruence.
    + congruence.
    + destruct (sys_worker y) eqn:Hpc; rewrite ?Hpc; try congruence.
      destruct (queue_dequeue _ _) eqn:Hq; simpl;
        rewrite ?Hpc; try done.
      apply queue_dequeue_none in Hq as [Hq Hs]. by rewrite Hq.
    + destruct (sys_worker y) eqn:Hpc; rewrite ?Hpc; try congruence.
      by destruct (queue_thread_take _ _).
    + by destruct (sys_worker y) eqn:Hpc; rewrite ?Hpc.
    + by destruct (sys_worker y) eqn:Hpc; rewrite ?Hpc.
  - by apply left_after_shutdown_reachable.
Qed.

Lemma queue_thread_leaves_on_empty_queue_witness :
  queue (sys_state (run [LShutdownFlag] (rrd_init 1000 10 30))) = []
  ∧ do_shutdown (sys_state (run [LShutdownFlag] (rrd_init 1000 10 30)))
    = true.
Proof.
  destruct (queue_thread_leaves_on_empty_queue
              (run [LShutdownFlag] (rrd_init 1000 10 30)) LDequeue)
    as (_ & H & _).
  - exists 1000, 10, 30, [LShutdownFlag]. reflexivity.
  - destruct H as (_ & _ & Hq & Hs & _); [reflexivity|reflexivity|].
    split; [exact Hq|exact Hs].
Defined.

(** ** C9: what the queue thread changes when it takes a buffer *)

(** [last_value] of an entry never decreases while the entry stays in the
    tree. *)
Lemma step_last_value f l y rc rc' :
  cache (sys_state y) !! f = Some rc →
  cache (sys_state (step l y)) !! f = Some rc' →
  last_value rc ≤ last_value rc'.
Proof.
  intros Hf.
  destruct l as [g v t e|fe| | | |ok st|]; simpl.
  - destruct (cache_destroyed y); simpl; [intros; simplify_eq; lia|].
    intros [(rc0 & Hf0 & _ & _ & Hl)|(-> & Hlt & Hl & _)]
      %rrd_cache_insert_lookup.
    + simplify_eq. lia.
    + unfold insert_entry in Hlt. rewrite Hf in Hlt. simpl in Hlt. lia.
  - destruct (cache_destroyed y); simpl; [intros; simplify_eq; lia|].
    intros (rc0 & Hf0 & _ & _ & Hl)%rrd_cache_flush_back.
    simplify_eq. lia.
  - intros. simplify_eq. lia.
  - destruct (sys_worker y); try (intros; simplify_eq; lia).
    destruct (queue_dequeue _ _); simpl; intros; simplify_eq; lia.
  - destruct (sys_worker y) as [|g| | | |]; try (intros; simplify_eq; lia).
    unfold queue_thread_take.
    destruct (cache (sys_state y) !! g) as [rc0|] eqn:Hg; simpl.
    + rewrite lookup_insert. case_decide.
      * intros [= <-]. subst g. simplify_eq. simpl. lia.
      * intros. simplify_eq. lia.
    + intros. simplify_eq. lia.
  - destruct (sys_worker y); simpl; intros; simplify_eq; lia.
  - destruct (sys_worker y); simpl; intros; simplify_eq; lia.
Qed.

Lemma keeps_last_value f ls y rc :
  cache (sys_state y) !! f = Some rc → keeps f ls y →
  ∃ rc', cache (sys_state (run ls y)) !! f = Some rc'
         ∧ last_value rc ≤ last_value rc'.
Proof.
  unfold run. revert y rc.
  induction ls as [|l ls IH]; intros y rc Hf Hk.
  - exists rc. split; [done|lia].
  - destruct Hk as [Hk1 Hk2]. simpl.
    destruct Hk1 as [rc1 Hf1]; [by eexists|].
    destruct (IH _ _ Hf1 Hk2) as (rc' & Hf' & Hle).
    exists rc'. split; [done|].
    pose proof (step_last_value f l y rc rc1 Hf Hf1). lia.
Qed.

(** C9, as stated, fails: a value submitted after a drain can be accepted
    although its time stamp is not newer than the [last_value] from
    before the drain. In [run_evict] the buffer of file A is taken with
    [last_value = 1010]; the flusher then evicts the drained entry, and
    the value of time 1005 is accepted by a fresh entry. *)
Lemma drained_last_value_forgotten :
  ¬ (∀ f rc y ls v t e,
       reachable y → sys_worker y = WorkerDequeued f →
       cache (sys_state y) !! f = Some rc → t ≤ last_value rc →
       insert_status
         (rrd_cache_insert f v t e (sys_state (run ls (step LTake y)))).1
       = -1).
Proof.
  intros H.
  specialize (H "A" (RrdCache [(1000, "1000:1"); (1010, "1010:1")]
                       1000 1010 FLAG_QUEUED)
                (run (take 3 run_evict) (rrd_init 1000 10 30))
                [LWrite true 0; LInsert "B" "1031:1" 1031 (ie_ok 1031)]
                "1005:1" 1005 (ie_ok 1032)).
  assert (reachable (run (take 3 run_evict) (rrd_init 1000 10 30))) as Hr
    by by exists 1000, 10, 30, (take 3 run_evict).
  specialize (H Hr eq_refl eq_refl).
  assert (1005 ≤ 1010) as Hle by lia.
  specialize (H Hle). vm_compute in H. discriminate H.
Qed.

(** C9, amended: the critical section of the queue thread on
    [cache_lock] hands the buffer to the thread and leaves in the tree
    the same entry with an empty buffer and [FLAG_NONE]; [first_value]
    and [last_value] keep their values, and nothing else in the state
    changes. As long as the entry is not taken out of the tree
    afterwards (by the flusher, by a failed [realloc], or by
    [avl_destroy]), a value inserted for that file whose time stamp is
    not newer than the [last_value] from before is refused and changes
    nothing. *)
Theorem queue_thread_take_frame (f : string) (rc : rrd_cache_t)
    (y : rrd_system) :
  sys_worker y = WorkerDequeued f →
  cache (sys_state y) !! f = Some rc →
  sys_worker (step LTake y) = WorkerWrite f (values rc)
  ∧ cache (sys_state (step LTake y)) !! f
    = Some {| values := []; first_value := first_value rc;
              last_value := last_value rc; flags := FLAG_NONE |}
  ∧ (∀ k, k ≠ f → cache (sys_state (step LTake y)) !! k
                  = cache (sys_state y) !! k)
  ∧ sys_state (step LTake y)
    = set_cache (cache (sys_state (step LTake y))) (sys_state y)
  ∧ sys_updates (step LTake y) = sys_updates y
  ∧ (∀ ls v t e, keeps f ls (step LTake y) → t ≤ last_value rc →
       insert_status
         (rrd_cache_insert f v t e
            (sys_state (run ls (step LTake y)))).1 = -1
       ∧ (rrd_cache_insert f v t e (sys_state (run ls (step LTake y)))).2
         = sys_state (run ls (step LTake y))).
Proof.
  intros Hpc Hf.
  assert (cache (sys_state (step LTake y)) !! f
          = Some {| values := []; first_value := first_value rc;
                    last_value := last_value rc; flags := FLAG_NONE |})
    as Hf1.
  { simpl. rewrite Hpc. unfold queue_thread_take. rewrite Hf. simpl.
    apply lookup_insert_eq. }
  split_and!; [| done | | | |].
  - simpl. rewrite Hpc. unfold queue_thread_take. by rewrite Hf.
  - intros k Hk. simpl. rewrite Hpc. unfold queue_thread_take. rewrite Hf.
    simpl. by apply lookup_insert_ne.
  - simpl. rewrite Hpc. unfold queue_thread_take. by rewrite Hf.
  - simpl. rewrite Hpc. unfold queue_thread_take. by rewrite Hf.
  - intros ls v t e Hk Ht.
    destruct (keeps_last_value f ls _ _ Hf1 Hk) as (rc' & Hf' & Hle).
    apply rrd_cache_insert_old. unfold insert_entry. rewrite Hf'.
    simpl in *. lia.
Qed.

Lemma queue_thread_take_frame_witness :
  sys_worker (step LTake (run (take 3 run_evict) (rrd_init 1000 10 30)))
  = WorkerWrite "A" [(1000, "1000:1"); (1010, "1010:1")]
  ∧ insert_status
      (rrd_cache_insert "A" "1005:1" 1005 (ie_ok 1006)
         (sys_state
            (run [LWrite true 0]
               (step LTake
                  (run (take 3 run_evict) (rrd_init 1000 10 30)))))).1
    = -1.
Proof.
  pose proof (queue_thread_take_frame "A"
                (RrdCache [(1000, "1000:1"); (1010, "1010:1")]
                          1000 1010 FLAG_QUEUED)
                (run (take 3 run_evict) (rrd_init 1000 10 30))
                eq_refl eq_refl) as (H1 & _ & _ & _ & _ & H6).
  split; [exact H1|].
  refine (proj1 (H6 [LWrite true 0] "1005:1" 1005 (ie_ok 1006) _ _)).
  - simpl. split; [|done]. intros _. vm_compute. eexists. reflexivity.
  - simpl. lia.
Defined.

(** ** C10: the first value of a file *)

(** C10, as stated, fails: the first value of a file, although its time
    stamp is positive, is not accepted when an allocation fails. *)
Lemma rrd_cache_insert_first_not_accepted :
  ¬ (∀ g v t e s,
       cache s !! g = None →
       (t ≤ 0 → (rrd_cache_insert g v t e s).1 = InsertNonMonotonic)
       ∧ (0 < t → (rrd_cache_insert g v t e s).1 = InsertOk)).
Proof.
  intros H.
  destruct (H "A" "5:1" 5 (ie_no_realloc 1000) state0 eq_refl) as [_ H2].
  specialize (H2 eq_refl). discriminate H2.
Qed.

(** C10, amended: for a file without an entry, [rrd_cache_insert] works
    on a fresh entry with [last_value = 0]. A first value with a time
    stamp [<= 0] is therefore always refused, the state being left as it
    is; when [malloc] of the entry succeeds the call ends at the warning
    about the time stamp exactly when the time stamp is [<= 0]; and when
    no allocation fails, a first value with a positive time stamp is
    accepted. *)
Theorem rrd_cache_insert_first (g v : string) (t : Z) (e : insert_env)
    (s : rrd_state) :
  cache s !! g = None →
  insert_entry s g = rc_fresh
  ∧ last_value (insert_entry s g) = 0
  ∧ (t ≤ 0 → insert_status (rrd_cache_insert g v t e s).1 = -1
             ∧ (rrd_cache_insert g v t e s).2 = s)
  ∧ (ie_malloc_rc e = true →
     ((rrd_cache_insert g v t e s).1 = InsertNonMonotonic ↔ t ≤ 0))
  ∧ (insert_alloc_ok e → 0 < t →
     (rrd_cache_insert g v t e s).1 = InsertOk).
Proof.
  intros Hg.
  assert (insert_entry s g = rc_fresh) as Hfresh.
  { unfold insert_entry. by rewrite Hg. }
  split_and!; [done|by rewrite Hfresh| | |].
  - intros Ht. apply rrd_cache_insert_old. by rewrite Hfresh.
  - intros Hm. unfold rrd_cache_insert. rewrite Hg, Hm. simpl.
    destruct (Z.leb_spec t 0); [done|].
    split; [|lia].
    destruct (ie_realloc_values e); [|done]. simpl.
    by destruct (ie_strdup_key e).
  - intros Hok Ht. apply rrd_cache_insert_new; [done|]. by rewrite Hfresh.
Qed.

Lemma rrd_cache_insert_first_witness :
  (rrd_cache_insert "A" "5:1" 5 (ie_ok 1000) state0).1 = InsertOk.
Proof.
  refine (proj2 (proj2 (proj2 (proj2
            (rrd_cache_insert_first "A" "5:1" 5 (ie_ok 1000) state0
               eq_refl)))) _ _).
  - repeat split.
  - reflexivity.
Defined.

(** * Part IV: more properties of the code *)

(** ** What a flush does, whatever its allocations do *)

Lemma flush_visit_cases timeout fe st kv :
  (∃ b, flush_visit timeout fe st kv
        = {| fl_cache := fl_cache st; fl_queue := fl_queue st;
             fl_keys := fl_keys st; fl_failed := b |})
  ∨ (flags kv.2 ≠ FLAG_QUEUED ∧ values kv.2 ≠ []
     ∧ timeout ≤ fe_now fe - first_value kv.2
     ∧ flush_visit timeout fe st kv
       = {| fl_cache := <[kv.1 := set_flags FLAG_QUEUED kv.2]> (fl_cache st);
            fl_queue := fl_queue st ++ [kv.1];
            fl_keys := fl_keys st; fl_failed := false |})
  ∨ (flags kv.2 ≠ FLAG_QUEUED ∧ values kv.2 = []
     ∧ timeout ≤ fe_now fe - first_value kv.2
     ∧ flush_visit timeout fe st kv
       = {| fl_cache := fl_cache st; fl_queue := fl_queue st;
            fl_keys := fl_keys st ++ [kv.1]; fl_failed := false |}).
Proof.
  assert (∃ b, st = {| fl_cache := fl_cache st; fl_queue := fl_queue st;
                       fl_keys := fl_keys st; fl_failed := b |}) as Hst.
  { exists (fl_failed st). by destruct st. }
  unfold flush_visit, rrd_queue_cache_entry, values_num.
  destruct (fl_failed st); [by left|].
  destruct (decide (flags kv.2 = FLAG_QUEUED)) as [|Hf]; [by left|].
  destruct (Z.ltb_spec (fe_now fe - first_value kv.2) timeout); [by left|].
  destruct (values kv.2) as [|v vs] eqn:Hv; simpl.
  - destruct (fe_realloc fe kv.1).
    + right. right. done.
    + left. by eexists.
  - destruct (qa_entry (fe_queue fe kv.1)); simpl; [|by left].
    destruct (qa_filename (fe_queue fe kv.1)); simpl; [|by left].
    right. left. done.
Qed.

Lemma flush_scan_effect timeout fe l st :
  NoDup l.*1 →
  (∀ k rc, (k, rc) ∈ l → fl_cache st !! k = Some rc) →
  ∃ added coll,
    NoDup added
    ∧ (∀ k, k ∈ added →
            ∃ rc, (k, rc) ∈ l ∧ flags rc ≠ FLAG_QUEUED ∧ values rc ≠ []
                  ∧ timeout ≤ fe_now fe - first_value rc)
    ∧ (∀ k, k ∈ coll →
            ∃ rc, (k, rc) ∈ l ∧ flags rc ≠ FLAG_QUEUED ∧ values rc = []
                  ∧ timeout ≤ fe_now fe - first_value rc)
    ∧ fl_queue (flush_scan timeout fe st l) = fl_queue st ++ added
    ∧ fl_keys (flush_scan timeout fe st l) = fl_keys st ++ coll
    ∧ (∀ k, fl_cache (flush_scan timeout fe st l) !! k
            = if decide (k ∈ added)
              then set_flags FLAG_QUEUED <$> fl_cache st !! k
              else fl_cache st !! k).
Proof.
  unfold flush_scan. revert st.
  induction l as [|[k0 rc0] l IH]; intros st Hnd Hl.
  { exists [], []. simpl. rewrite !app_nil_r.
    split_and!; try done; try by constructor.
    all: intros k Hk; by apply elem_of_nil in Hk. }
  simpl in Hnd. apply NoDup_cons in Hnd as [Hk0 Hnd]. simpl foldl.
  assert (∀ rc, (k0, rc) ∉ l) as Hk0'.
  { intros rc Hin. apply Hk0. apply list_elem_of_fmap. by exists (k0, rc). }
  destruct (flush_visit_cases timeout fe st (k0, rc0))
    as [[b ->]|[(Hf & Hv & Hd & ->)|(Hf & Hv & Hd & ->)]]; simpl in *.
  - destruct (IH {| fl_cache := fl_cache st; fl_queue := fl_queue st;
                    fl_keys := fl_keys st; fl_failed := b |} Hnd)
      as (added & coll & H1 & H2 & H3 & H4 & H5 & H6).
    { intros k rc Hin. apply Hl. by right. }
    exists added, coll. simpl in *. split_and!; try done.
    + intros k Hk. destruct (H2 k Hk) as (rc & ? & ?).
      exists rc. split; [by right|done].
    + intros k Hk. destruct (H3 k Hk) as (rc & ? & ?).
      exists rc. split; [by right|done].
  - destruct (IH {| fl_cache := <[k0:=set_flags FLAG_QUEUED rc0]> (fl_cache st);
                    fl_queue := fl_queue st ++ [k0];
                    fl_keys := fl_keys st; fl_failed := false |} Hnd)
      as (added & coll & H1 & H2 & H3 & H4 & H5 & H6).
    { intros k rc Hin. simpl. rewrite lookup_insert_ne; [apply Hl; by right|].
      intros <-. by apply (Hk0' rc). }
    assert (k0 ∉ added) as Hk0a.
    { intros Hin. destruct (H2 _ Hin) as (rc & ? & _). by apply (Hk0' rc). }
    exists (k0 :: added), coll. simpl in *.
    split_and!.
    + by apply NoDup_cons.
    + intros k [->|Hk]%elem_of_cons.
      * exists rc0. split; [by left|done].
      * destruct (H2 k Hk) as (rc & ? & ?). exists rc. split; [by right|done].
    + intros k Hk. destruct (H3 k Hk) as (rc & ? & ?).
      exists rc. split; [by right|done].
    + rewrite H4. by rewrite <- app_assoc.
    + done.
    + intros k. rewrite H6.
      destruct (decide (k = k0)) as [->|Hne].
      * rewrite decide_False by done. rewrite lookup_insert_eq.
        rewrite decide_True by by left.
        rewrite (Hl k0 rc0) by by left. done.
      * rewrite lookup_insert_ne by done.
        destruct (decide (k ∈ added)).
        -- by rewrite decide_True by by right.
        -- rewrite decide_False; [done|].
           by intros [?|?]%elem_of_cons.
  - destruct (IH {| fl_cache := fl_cache st; fl_queue := fl_queue st;
                    fl_keys := fl_keys st ++ [k0]; fl_failed := false |} Hnd)
      as (added & coll & H1 & H2 & H3 & H4 & H5 & H6).
    { intros k rc Hin. apply Hl. by right. }
    exists added, (k0 :: coll). simpl in *. split_and!; try done.
    + intros k Hk. destruct (H2 k Hk) as (rc & ? & ?).
      exists rc. split; [by right|done].
    + intros k [->|Hk]%elem_of_cons.
      * exists rc0. split; [by left|done].
      * destruct (H3 k Hk) as (rc & ? & ?). exists rc. split; [by right|done].
    + rewrite H5. by rewrite <- app_assoc.
Qed.

Lemma rrd_cache_flush_effect timeout fe s :
  ∃ added removed,
    flush_effect timeout (fe_now fe) s (rrd_cache_flush timeout fe s)
      added removed.
Proof.
  destruct (flush_scan_effect timeout fe (avl_iterate (cache s))
              {| fl_cache := cache s; fl_queue := queue s;
                 fl_keys := []; fl_failed := false |}
              (NoDup_avl_iterate _))
    as (added & coll & H1 & H2 & H3 & H4 & H5 & H6).
  { intros k rc Hin. by apply elem_of_avl_iterate. }
  simpl in *.
  assert (∀ k, k ∈ added →
               ∃ rc, cache s !! k = Some rc ∧ flags rc ≠ FLAG_QUEUED
                     ∧ values rc ≠ []
                     ∧ timeout ≤ fe_now fe - first_value rc) as H2'.
  { intros k Hk. destruct (H2 k Hk) as (rc & Hin%elem_of_avl_iterate & ?).
    eauto. }
  assert (∀ k, k ∈ coll →
               ∃ rc, cache s !! k = Some rc ∧ flags rc ≠ FLAG_QUEUED
                     ∧ values rc = []
                     ∧ timeout ≤ fe_now fe - first_value rc) as H3'.
  { intros k Hk. destruct (H3 k Hk) as (rc & Hin%elem_of_avl_iterate & ?).
    eauto. }
  unfold rrd_cache_flush, flush_scan in *.
  destruct (fl_failed _).
  - exists added, []. constructor; simpl; try done.
    + intros k Hk. by apply elem_of_nil in Hk.
    + right. done.
  - exists added, coll. constructor; simpl; try done.
    + intros k. rewrite flush_remove_lookup, H5, H6. simpl.
      destruct (decide (k ∈ added)) as [Ha|Ha]; [|done].
      rewrite decide_False; [done|]. intros Hc.
      destruct (H2' k Ha) as (rc & Hk & _ & Hv & _).
      destruct (H3' k Hc) as (rc' & Hk' & _ & Hv' & _). congruence.
    + by left.
Qed.

(** ** How the flags and the queue change together *)

Lemma flagged_same_buffer rc rc' : flagged rc rc' → same_buffer rc rc'.
Proof. intros [-> | ->]; [apply same_buffer_refl|apply same_buffer_set_flags]. Qed.

Lemma flagged_flags rc rc' :
  flagged rc rc' → flags rc' = flags rc ∨ flags rc' = FLAG_QUEUED.
Proof. intros [-> | ->]; [by left|by right]. Qed.

Lemma queue_grows_refl s : queue_grows s s [].
Proof.
  constructor; try done.
  - by rewrite app_nil_r.
  - constructor.
  - intros k Hk. by apply elem_of_nil in Hk.
  - intros k Hk. by right.
Qed.

Lemma queue_grows_trans s1 s2 s3 e1 e2 :
  queue_grows s1 s2 e1 → queue_grows s2 s3 e2 →
  queue_grows s1 s3 (e1 ++ e2).
Proof.
  intros [Hq1 Hn1 Hnew1 Hb1 Hf1] [Hq2 Hn2 Hnew2 Hb2 Hf2]. constructor.
  - by rewrite Hq2, Hq1, app_assoc.
  - apply NoDup_app. split_and!; [done| |done].
    intros k Hk1 Hk2. destruct (Hnew1 k Hk1) as [_ H1].
    destruct (Hnew2 k Hk2) as [H2 _]. done.
  - intros k [Hk|Hk]%elem_of_app.
    + destruct (Hnew1 k Hk) as [H1 H2]. split; [done|by apply Hf2].
    + destruct (Hnew2 k Hk) as [H1 H2]. split; [|done].
      intros Hq. apply H1. by apply Hf1.
  - intros k Hk. destruct (Hb2 k Hk) as [Hin|Hq].
    + left. apply elem_of_app. by right.
    + destruct (Hb1 k Hq) as [Hin|Hq1']; [|by right].
      left. apply elem_of_app. by left.
  - intros k Hk. by apply Hf2, Hf1.
Qed.

(** Putting, under [g], an entry with the flag of the entry that [g] had
    (none for a file without entry). *)
Lemma queue_grows_update s g rc1 :
  flags rc1 = flags (insert_entry s g) →
  queue_grows s (set_cache (<[g:=rc1]> (cache s)) s) [].
Proof.
  intros Hfl. unfold insert_entry in Hfl. constructor; simpl.
  - by rewrite app_nil_r.
  - constructor.
  - intros k Hk. by apply elem_of_nil in Hk.
  - intros k (rc & Hk & Hq). right. rewrite lookup_insert in Hk.
    case_decide; [|by exists rc]. subst k. injection Hk as <-.
    destruct (cache s !! g) as [rc0|] eqn:Hg; simpl in *.
    + exists rc0. split; [done|congruence].
    + congruence.
  - intros k (rc & Hk & Hq). unfold queued_in. rewrite lookup_insert.
    case_decide; [|by exists rc]. subst k. exists rc1. split; [done|].
    rewrite Hk in Hfl. simpl in Hfl. congruence.
Qed.

Lemma queue_grows_enqueue a g rc s :
  cache s !! g = Some rc →
  ∃ extra, queue_grows s (insert_enqueue a g rc s) extra.
Proof.
  intros Hg. unfold insert_enqueue, rrd_queue_cache_entry.
  destruct (_ <=? _); [|eexists; apply queue_grows_refl].
  destruct (decide _) as [|Hfl]; [eexists; apply queue_grows_refl|].
  destruct (qa_entry a); simpl; [|eexists; apply queue_grows_refl].
  destruct (qa_filename a); simpl; [|eexists; apply queue_grows_refl].
  exists [g]. constructor; simpl.
  - done.
  - apply NoDup_singleton.
  - intros k ->%list_elem_of_singleton. split.
    + intros (rc' & Hk & Hq). congruence.
    + exists (set_flags FLAG_QUEUED rc). by rewrite lookup_insert_eq.
  - intros k (rc' & Hk & Hq). rewrite lookup_insert in Hk.
    case_decide; [left; subst; by apply list_elem_of_singleton|].
    right. by exists rc'.
  - intros k (rc' & Hk & Hq). unfold queued_in. rewrite lookup_insert.
    case_decide; [|by exists rc']. congruence.
Qed.

Lemma queue_grows_flush timeout now s s' added removed :
  flush_effect timeout now s s' added removed → queue_grows s s' added.
Proof.
  intros [Hn Hq Ha Hr Hc _ _]. constructor; [done..| | |].
  - intros k Hk. destruct (Ha k Hk) as (rc & Hg & Hfl & _). split.
    + intros (rc' & Hk' & Hq'). congruence.
    + exists (set_flags FLAG_QUEUED rc).
      by rewrite Hc, decide_True, Hg.
  - intros k (rc' & Hk & Hq'). rewrite Hc in Hk.
    destruct (decide (k ∈ added)); [by left|].
    destruct (decide (k ∈ removed)); [done|]. right. by exists rc'.
  - intros k (rc & Hk & Hq'). exists rc. split; [|done]. rewrite Hc.
    destruct (decide (k ∈ added)) as [Hin|].
    { destruct (Ha k Hin) as (rc' & ? & ? & _). congruence. }
    destruct (decide (k ∈ removed)) as [Hin|]; [|done].
    destruct (Hr k Hin) as (rc' & ? & ? & _). congruence.
Qed.

Lemma queue_grows_insert_flush e s :
  ∃ extra, queue_grows s (insert_flush e s) extra.
Proof.
  unfold insert_flush. destruct (_ && _).
  - destruct (rrd_cache_flush_effect (cache_flush_timeout s) (ie_flush e) s)
      as (added & removed & Hfx).
    exists added. by eapply queue_grows_flush.
  - eexists. apply queue_grows_refl.
Qed.

(** The two ways [rrd_cache_insert] ends. *)
Lemma rrd_cache_insert_ok g v t e s :
  (rrd_cache_insert g v t e s).1 = InsertOk →
  ie_realloc_values e = true
  ∧ last_value (insert_entry s g) < t
  ∧ (rrd_cache_insert g v t e s).2
    = insert_flush e
        (insert_enqueue (ie_queue e) g
           (rc_append (ie_strdup_value e) v t (insert_entry s g))
           (set_cache
              (<[g:=rc_append (ie_strdup_value e) v t (insert_entry s g)]>
                 (cache s)) s)).
Proof.
  unfold rrd_cache_insert, insert_entry.
  destruct (bool_decide _ && negb (ie_malloc_rc e)); [done|].
  destruct (Z.leb_spec t (last_value (default rc_fresh (cache s !! g))));
    [done|].
  destruct (ie_realloc_values e); [|done]. simpl.
  by destruct (bool_decide _ && negb (ie_strdup_key e)).
Qed.

Lemma rrd_cache_insert_not_ok g v t e s :
  (rrd_cache_insert g v t e s).1 ≠ InsertOk →
  (rrd_cache_insert g v t e s).2 = s
  ∨ (ie_realloc_values e = false
     ∧ (rrd_cache_insert g v t e s).2 = set_cache (delete g (cache s)) s).
Proof.
  unfold rrd_cache_insert.
  destruct (bool_decide _ && negb (ie_malloc_rc e)); [by left|].
  destruct (_ <=? _); [by left|].
  destruct (ie_realloc_values e); [|by right]. simpl.
  destruct (bool_decide _ && negb (ie_strdup_key e)); [by left|done].
Qed.

Lemma rrd_cache_insert_grows g v t e s :
  ie_realloc_values e = true →
  ∃ extra, queue_grows s (rrd_cache_insert g v t e s).2 extra.
Proof.
  intros Hre.
  destruct (decide ((rrd_cache_insert g v t e s).1 = InsertOk)) as [Hok|Hno].
  - destruct (rrd_cache_insert_ok _ _ _ _ _ Hok) as (_ & _ & ->).
    set (rc1 := rc_append (ie_strdup_value e) v t (insert_entry s g)).
    set (s1 := set_cache (<[g:=rc1]> (cache s)) s).
    assert (queue_grows s s1 []) as H1 by by apply queue_grows_update.
    destruct (queue_grows_enqueue (ie_queue e) g rc1 s1) as (e2 & H2).
    { apply lookup_insert_eq. }
    destruct (queue_grows_insert_flush e
                (insert_enqueue (ie_queue e) g rc1 s1)) as (e3 & H3).
    eexists. eapply queue_grows_trans; [|exact H3].
    eapply queue_grows_trans; [exact H1|exact H2].
  - destruct (rrd_cache_insert_not_ok _ _ _ _ _ Hno) as [-> | [? _]].
    + eexists. apply queue_grows_refl.
    + congruence.
Qed.

(** ** Flags and queue along the runs *)

Lemma run_invariant_if (P : rrd_system → Prop) (L : label → Prop) :
  (∀ l y, L l → P y → P (step l y)) →
  ∀ ls y, Forall L ls → P y → P (run ls y).
Proof.
  intros Hstep ls. unfold run.
  induction ls as [|l ls IH]; intros y Hls Hy; [done|].
  apply Forall_cons in Hls as [Hl Hls]. simpl. apply IH; [done|].
  by apply Hstep.
Qed.

Lemma queue_grows_sound s s' extra (hd : list string) :
  queue_grows s s' extra →
  (∀ f, queued_in (cache s) f → f ∈ hd ++ queue s) →
  ∀ f, queued_in (cache s') f → f ∈ hd ++ queue s'.
Proof.
  intros [Hq _ _ Hb _] Hs f Hf. rewrite Hq, app_assoc.
  apply elem_of_app. destruct (Hb f Hf); [by right|left; by apply Hs].
Qed.

Lemma queue_grows_flagged s s' extra (hd : list string) :
  queue_grows s s' extra →
  NoDup (hd ++ queue s) →
  (∀ f, f ∈ hd ++ queue s → queued_in (cache s) f) →
  NoDup (hd ++ queue s')
  ∧ (∀ f, f ∈ hd ++ queue s' → queued_in (cache s') f).
Proof.
  intros [Hq Hn Hnew _ Hf] Hnd Hfl. rewrite Hq, app_assoc. split.
  - apply NoDup_app. split_and!; [done| |done].
    intros k Hk Hk'. destruct (Hnew k Hk') as [Hno _]. by apply Hno, Hfl.
  - intros f [Hin|Hin]%elem_of_app; [by apply Hf, Hfl|].
    by destruct (Hnew f Hin).
Qed.

Lemma queued_sound_step l y : queued_sound y → queued_sound (step l y).
Proof.
  unfold queued_sound, pending, held. intros Hy.
  assert (∀ f, queued_in (cache (sys_state y)) f
               → f ∈ match sys_worker y with
                     | WorkerDequeued f0 => [f0]
                     | _ => []
                     end ++ queue (sys_state y)) as Hy'.
  { intros f (rc & ? & ?). eauto. }
  destruct l as [g v t e|fe| | | |ok st|]; simpl.
  - destruct (cache_destroyed y); [done|]. simpl.
    intros f rc Hf Hq.
    destruct (decide ((rrd_cache_insert g v t e (sys_state y)).1 = InsertOk))
      as [Hok|Hno].
    + destruct (rrd_cache_insert_ok _ _ _ _ _ Hok) as (Hre & _ & _).
      destruct (rrd_cache_insert_grows g v t e (sys_state y) Hre)
        as (extra & Hg).
      eapply queue_grows_sound; [exact Hg|exact Hy'|]. by exists rc.
    + destruct (rrd_cache_insert_not_ok _ _ _ _ _ Hno) as [Heq|[_ Heq]];
        rewrite Heq in *; [eauto|].
      simpl in *. apply lookup_delete_Some in Hf as [_ Hf]. eauto.
  - destruct (cache_destroyed y); [done|]. simpl.
    intros f rc Hf Hq.
    destruct (rrd_cache_flush_effect (-1) fe (sys_state y))
      as (added & removed & Hfx).
    eapply queue_grows_sound;
      [by eapply queue_grows_flush|exact Hy'|by exists rc].
  - done.
  - destruct (sys_worker y) eqn:Hpc; rewrite ?Hpc; try done.
    unfold queue_dequeue.
    destruct (queue (sys_state y)) as [|f0 q] eqn:Hq0;
      [destruct (do_shutdown (sys_state y))|];
      simpl; rewrite ?Hpc, ?Hq0; done.
  - destruct (sys_worker y) as [|f0| | | |] eqn:Hpc; rewrite ?Hpc; try done.
    unfold queue_thread_take.
    destruct (cache (sys_state y) !! f0) as [rc0|] eqn:Hf0; simpl.
    + intros f rc. rewrite lookup_insert. case_decide.
      * intros [= <-]. done.
      * intros Hf Hq. specialize (Hy f rc Hf Hq).
        apply elem_of_cons in Hy as [?|?]; [congruence|done].
    + intros f rc Hf Hq. specialize (Hy f rc Hf Hq).
      apply elem_of_cons in Hy as [?|?]; [congruence|done].
  - destruct (sys_worker y) eqn:Hpc; rewrite ?Hpc; done.
  - destruct (sys_worker y) eqn:Hpc; rewrite ?Hpc; done.
Qed.

Lemma queued_sound_init now ct cft : queued_sound (rrd_init now ct cft).
Proof. intros f rc. simpl. by rewrite lookup_empty. Qed.

Lemma cache_destroyed_false y :
  cache_destroyed y = false → sys_worker y ≠ WorkerExit.
Proof. unfold cache_destroyed. by destruct (sys_worker y). Qed.

Lemma queue_safe_step l y :
  label_reallocs l → queue_safe y → queue_safe (step l y).
Proof.
  unfold queue_safe, pending_flagged, pending, held.
  intros Hl [Hnf Hy].
  destruct l as [g v t e|fe| | | |ok st|]; simpl in *.
  - destruct (cache_destroyed y) eqn:Hd; [done|]. simpl.
    split; [done|]. intros _.
    destruct (Hy (cache_destroyed_false _ Hd)) as [Hn Hfl].
    destruct (rrd_cache_insert_grows g v t e (sys_state y) Hl)
      as (extra & Hg).
    by eapply queue_grows_flagged.
  - destruct (cache_destroyed y) eqn:Hd; [done|]. simpl.
    split; [done|]. intros _.
    destruct (Hy (cache_destroyed_false _ Hd)) as [Hn Hfl].
    destruct (rrd_cache_flush_effect (-1) fe (sys_state y))
      as (added & removed & Hfx).
    eapply queue_grows_flagged; [by eapply queue_grows_flush|done..].
  - done.
  - destruct (sys_worker y) eqn:Hpc; rewrite ?Hpc; try done.
    unfold queue_dequeue.
    destruct (queue (sys_state y)) as [|f0 q] eqn:Hq0.
    + destruct (do_shutdown (sys_state y)); simpl; rewrite ?Hpc, ?Hq0.
      * split; [done|]. intros _. by apply Hy.
      * split; [done|]. intros _. by apply Hy.
    + simpl. split; [done|]. intros _. by apply Hy.
  - destruct (sys_worker y) as [|f0| | | |] eqn:Hpc; rewrite ?Hpc; try done.
    destruct Hy as [Hn Hfl]; [done|].
    apply NoDup_cons in Hn as [Hf0 Hn].
    destruct (Hfl f0) as (rc0 & Hg0 & _); [by left|].
    unfold queue_thread_take. rewrite Hg0. simpl.
    split; [done|]. intros _. split; [done|].
    intros f Hf. destruct (Hfl f) as (rc & Hg & Hq); [by right|].
    exists rc. split; [|done]. rewrite lookup_insert_ne; [done|].
    by intros ->.
  - destruct (sys_worker y) eqn:Hpc; rewrite ?Hpc; try done.
    simpl. split; [done|]. intros _. destruct Hy as [Hn Hfl]; done.
  - destruct (sys_worker y) eqn:Hpc; rewrite ?Hpc; try done.
Qed.

Lemma queue_safe_init now ct cft : queue_safe (rrd_init now ct cft).
Proof.
  split; [done|]. intros _. split; simpl.
  - constructor.
  - intros f Hf. by apply elem_of_nil in Hf.
Qed.

Lemma NoDup_keys_length (c : gmap string rrd_cache_t) (q : list string) :
  NoDup q → (∀ k, k ∈ q → is_Some (c !! k)) → (length q ≤ size c)%nat.
Proof.
  intros Hn Hq. rewrite <- length_map_to_list.
  rewrite <- (length_fmap fst). apply submseteq_length.
  apply NoDup_submseteq; [done|].
  intros k [rc Hk]%Hq. apply list_elem_of_fmap. exists (k, rc).
  split; [done|]. by apply elem_of_map_to_list.
Qed.

(** ** The entries after an insert *)

Lemma flush_effect_back timeout now s s' added removed k rc' :
  flush_effect timeout now s s' added removed →
  cache s' !! k = Some rc' →
  ∃ rc, cache s !! k = Some rc ∧ flagged rc rc'.
Proof.
  intros [_ _ _ _ Hc _ _]. rewrite Hc.
  destruct (decide (k ∈ added)).
  - destruct (cache s !! k) as [rc|]; [|done].
    intros [= <-]. exists rc. split; [done|by right].
  - destruct (decide (k ∈ removed)); [done|].
    intros Hk. exists rc'. split; [done|by left].
Qed.

Lemma insert_flush_flagged e s k rc' :
  cache (insert_flush e s) !! k = Some rc' →
  ∃ rc, cache s !! k = Some rc ∧ flagged rc rc'.
Proof.
  unfold insert_flush. destruct (_ && _).
  - destruct (rrd_cache_flush_effect (cache_flush_timeout s) (ie_flush e) s)
      as (added & removed & Hfx).
    by eapply flush_effect_back.
  - intros Hk. exists rc'. split; [done|by left].
Qed.

Lemma insert_enqueue_flagged a g rc s k rc' :
  cache s !! g = Some rc →
  cache (insert_enqueue a g rc s) !! k = Some rc' →
  ∃ rc0, cache s !! k = Some rc0 ∧ flagged rc0 rc'.
Proof.
  intros Hg. destruct (insert_enqueue_cache a g rc s) as [-> | ->].
  - intros Hk. exists rc'. split; [done|by left].
  - rewrite lookup_insert. case_decide.
    + subst k. intros [= <-]. exists rc. split; [done|by right].
    + intros Hk. exists rc'. split; [done|by left].
Qed.

Lemma flagged_trans rc1 rc2 rc3 :
  flagged rc1 rc2 → flagged rc2 rc3 → flagged rc1 rc3.
Proof.
  intros [-> | ->] [-> | ->]; [by left|by right|by right|by right].
Qed.

(** An entry found after [rrd_cache_insert] for [g] is an entry from
    before, up to the flag, or, under [g] after a call that returned 0,
    the entry of [g] with the value appended. *)
Lemma rrd_cache_insert_entries g v t e s k rc' :
  cache (rrd_cache_insert g v t e s).2 !! k = Some rc' →
  ((k ≠ g ∨ (rrd_cache_insert g v t e s).1 ≠ InsertOk)
   ∧ ∃ rc, cache s !! k = Some rc ∧ flagged rc rc')
  ∨ (k = g ∧ (rrd_cache_insert g v t e s).1 = InsertOk
     ∧ last_value (insert_entry s g) < t
     ∧ flagged (rc_append (ie_strdup_value e) v t (insert_entry s g)) rc').
Proof.
  destruct (decide ((rrd_cache_insert g v t e s).1 = InsertOk)) as [Hok|Hno].
  - destruct (rrd_cache_insert_ok _ _ _ _ _ Hok) as (_ & Hlt & ->).
    intros (rc2 & Hk & H2)%insert_flush_flagged.
    apply insert_enqueue_flagged in Hk as (rc1 & Hk & H1);
      [|apply lookup_insert_eq].
    simpl in Hk. rewrite lookup_insert in Hk. case_decide.
    + subst k. injection Hk as <-. right.
      split_and!; [done..|]. by eapply flagged_trans.
    + left. split; [by left|]. exists rc1. split; [done|].
      by eapply flagged_trans.
  - destruct (rrd_cache_insert_not_ok _ _ _ _ _ Hno) as [-> | [_ ->]].
    + intros Hk. left. split; [by right|]. exists rc'. split; [done|by left].
    + simpl. intros [_ Hk]%lookup_delete_Some. left. split; [by right|].
      exists rc'. split; [done|by left].
Qed.

(** After a call that returned 0 with the copy of the value allocated,
    the entry of the file is there. *)
Lemma rrd_cache_insert_entry g v t e s :
  (rrd_cache_insert g v t e s).1 = InsertOk →
  ie_strdup_value e = true →
  ∃ rc', cache (rrd_cache_insert g v t e s).2 !! g = Some rc'
         ∧ values rc' = values (insert_entry s g) ++ [(t, v)].
Proof.
  intros Hok Hdup.
  destruct (rrd_cache_insert_ok _ _ _ _ _ Hok) as (_ & Hlt & ->).
  rewrite Hdup.
  set (rc1 := rc_append true v t (insert_entry s g)).
  set (s1 := set_cache (<[g:=rc1]> (cache s)) s).
  assert (cache s1 !! g = Some rc1) as Hg1 by apply lookup_insert_eq.
  destruct (insert_enqueue_forth (ie_queue e) g rc1 s1 g rc1 Hg1 Hg1)
    as (rc2 & Hg2 & Hv2 & _).
  destruct (insert_flush_forth e _ _ _ Hg2) as (rc3 & Hg3 & Hv3 & _).
  { rewrite Hv2. simpl. by destruct (values (insert_entry s g)). }
  exists rc3. split; [done|]. by rewrite Hv3, Hv2.
Qed.

Lemma insert_enqueue_queued a g rc s rc2 :
  qa_entry a = true → qa_filename a = true →
  cache s !! g = Some rc →
  cache (insert_enqueue a g rc s) !! g = Some rc2 →
  flags rc2 = FLAG_QUEUED
  ∨ last_value rc2 - first_value rc2 < cache_timeout s.
Proof.
  intros Hq1 Hq2 Hg. unfold insert_enqueue, rrd_queue_cache_entry.
  rewrite Hq1, Hq2. simpl.
  destruct (Z.leb_spec (cache_timeout s) (last_value rc - first_value rc)).
  - destruct (decide (flags rc = FLAG_QUEUED)); simpl.
    + rewrite Hg. intros [= <-]. by left.
    + rewrite lookup_insert_eq. intros [= <-]. by left.
  - rewrite Hg. intros [= <-]. by right.
Qed.

(** After a call that returned 0 with the queue entry allocated, the
    entry of the file is queued or spans less than the time-out. *)
Lemma rrd_cache_insert_queued g v t e s rc' :
  (rrd_cache_insert g v t e s).1 = InsertOk →
  qa_entry (ie_queue e) = true → qa_filename (ie_queue e) = true →
  cache (rrd_cache_insert g v t e s).2 !! g = Some rc' →
  flags rc' = FLAG_QUEUED
  ∨ last_value rc' - first_value rc' < cache_timeout s.
Proof.
  intros Hok Hq1 Hq2.
  destruct (rrd_cache_insert_ok _ _ _ _ _ Hok) as (_ & Hlt & ->).
  intros (rc2 & Hk & H2)%insert_flush_flagged.
  apply insert_enqueue_queued in Hk as [Hf|Hs];
    [| |done..|apply lookup_insert_eq].
  - left. destruct (flagged_flags _ _ H2); congruence.
  - right. destruct (flagged_same_buffer _ _ H2) as (_ & -> & ->). done.
Qed.

(** ** The time stamps of the entries *)

Lemma rc_timed_flagged rc rc' : flagged rc rc' → rc_timed rc → rc_timed rc'.
Proof.
  intros (Hv & Hf & Hl)%flagged_same_buffer. unfold rc_timed.
  by rewrite Hv, Hf, Hl.
Qed.

Lemma rc_timed_fresh : rc_timed rc_fresh.
Proof. split; [done|constructor]. Qed.

Lemma rc_timed_append b v t rc :
  rc_timed rc → last_value rc < t → rc_timed (rc_append b v t rc).
Proof.
  intros [[Hf Hl] Hv] Ht. unfold rc_timed, rc_append. simpl. split.
  - destruct (_ =? 1); lia.
  - destruct b.
    + rewrite fmap_app. apply Forall_app. split.
      * eapply Forall_impl; [exact Hv|]. simpl. intros; lia.
      * repeat constructor; simpl; lia.
    + eapply Forall_impl; [exact Hv|]. simpl. intros; lia.
Qed.

Lemma all_timed_step l y :
  all_entries rc_timed y → all_entries rc_timed (step l y).
Proof.
  unfold all_entries. intros Hy.
  destruct l as [g v t e|fe| | | |ok st|]; simpl.
  - destruct (cache_destroyed y); [done|]. simpl. intros f rc' Hf.
    apply rrd_cache_insert_entries in Hf
      as [[_ (rc & Hf & Hfl)]|(-> & _ & Hlt & Hfl)].
    + eapply rc_timed_flagged; eauto.
    + eapply rc_timed_flagged; [exact Hfl|].
      apply rc_timed_append; [|done]. unfold insert_entry.
      destruct (cache (sys_state y) !! g) eqn:Hg; simpl;
        [eauto|apply rc_timed_fresh].
  - destruct (cache_destroyed y); [done|]. simpl. intros f rc' Hf.
    destruct (rrd_cache_flush_effect (-1) fe (sys_state y))
      as (added & removed & Hfx).
    destruct (flush_effect_back _ _ _ _ _ _ _ _ Hfx Hf) as (rc & ? & ?).
    eapply rc_timed_flagged; eauto.
  - done.
  - destruct (sys_worker y); try done; by destruct (queue_dequeue _ _).
  - destruct (sys_worker y) as [|f0| | | |]; try done.
    unfold queue_thread_take.
    destruct (cache (sys_state y) !! f0) as [rc0|] eqn:Hf0; simpl; [|done].
    intros f rc. rewrite lookup_insert. case_decide; [|apply Hy].
    intros [= <-]. destruct (Hy _ _ Hf0) as [? _]. split; [done|constructor].
  - by destruct (sys_worker y).
  - by destruct (sys_worker y).
Qed.

Lemma rc_exact_flagged rc rc' : flagged rc rc' → rc_exact rc → rc_exact rc'.
Proof.
  intros (Hv & Hf & Hl)%flagged_same_buffer. unfold rc_exact.
  by rewrite Hv, Hf, Hl.
Qed.

Lemma rc_exact_append v t rc :
  rc_exact rc → rc_exact (rc_append true v t rc).
Proof.
  intros [Hh Hl]. unfold rc_exact, rc_append.
  cbn [values first_value last_value].
  rewrite fmap_app. change ([(t, v)].*1) with [t].
  rewrite last_snoc. split; [|congruence].
  destruct (Z.eqb_spec (Z.of_nat (length (values rc ++ [(t, v)]))) 1)
    as [Hlen|Hlen]; rewrite length_app in Hlen; simpl in Hlen;
    destruct (values rc) as [|x l]; simpl in *; try lia.
  - congruence.
  - intros t' [= <-]. by apply Hh.
Qed.

Lemma all_exact_step l y :
  label_strdups l → all_entries rc_exact y → all_entries rc_exact (step l y).
Proof.
  unfold all_entries. intros Hl Hy.
  destruct l as [g v t e|fe| | | |ok st|]; simpl in *.
  - destruct (cache_destroyed y); [done|]. simpl. intros f rc' Hf.
    apply rrd_cache_insert_entries in Hf
      as [[_ (rc & Hf & Hfl)]|(-> & _ & Hlt & Hfl)].
    + eapply rc_exact_flagged; eauto.
    + eapply rc_exact_flagged; [exact Hfl|]. rewrite Hl.
      apply rc_exact_append. unfold insert_entry.
      destruct (cache (sys_state y) !! g) eqn:Hg; simpl; [eauto|].
      by split.
  - destruct (cache_destroyed y); [done|]. simpl. intros f rc' Hf.
    destruct (rrd_cache_flush_effect (-1) fe (sys_state y))
      as (added & removed & Hfx).
    destruct (flush_effect_back _ _ _ _ _ _ _ _ Hfx Hf) as (rc & ? & ?).
    eapply rc_exact_flagged; eauto.
  - done.
  - destruct (sys_worker y); try done; by destruct (queue_dequeue _ _).
  - destruct (sys_worker y) as [|f0| | | |]; try done.
    unfold queue_thread_take.
    destruct (cache (sys_state y) !! f0) as [rc0|] eqn:Hf0; simpl; [|done].
    intros f rc. rewrite lookup_insert. case_decide; [|apply Hy].
    intros [= <-]. by split.
  - by destruct (sys_worker y).
  - by destruct (sys_worker y).
Qed.

Lemma all_entries_init P now ct cft : all_entries P (rrd_init now ct cft).
Proof. intros f rc. simpl. by rewrite lookup_empty. Qed.

(** ** The configuration along the runs *)

Lemma insert_enqueue_config a g rc s :
  cache_timeout (insert_enqueue a g rc s) = cache_timeout s
  ∧ cache_flush_timeout (insert_enqueue a g rc s) = cache_flush_timeout s.
Proof.
  unfold insert_enqueue.
  destruct (_ <=? _); [|done]. destruct (decide _); [done|].
  by destruct (_ =? 0).
Qed.

Lemma insert_flush_config e s :
  cache_timeout (insert_flush e s) = cache_timeout s
  ∧ cache_flush_timeout (insert_flush e s) = cache_flush_timeout s.
Proof.
  unfold insert_flush. destruct (_ && _); [|done].
  by destruct (rrd_cache_flush_config (cache_flush_timeout s) (ie_flush e) s)
    as (-> & -> & _).
Qed.

Lemma rrd_cache_insert_config g v t e s :
  cache_timeout (rrd_cache_insert g v t e s).2 = cache_timeout s
  ∧ cache_flush_timeout (rrd_cache_insert g v t e s).2
    = cache_flush_timeout s.
Proof.
  unfold rrd_cache_insert.
  destruct (_ && negb (ie_malloc_rc e)); [done|].
  destruct (_ <=? _); [done|].
  destruct (ie_realloc_values e); [|done]. simpl.
  destruct (_ && negb (ie_strdup_key e)); [done|]. simpl.
  destruct (insert_flush_config e
              (insert_enqueue (ie_queue e) g
                 (rc_append (ie_strdup_value e) v t
                    (default rc_fresh (cache s !! g)))
                 (set_cache
                    (<[g:=rc_append (ie_strdup_value e) v t
                            (default rc_fresh (cache s !! g))]>
                       (cache s)) s))) as [-> ->].
  by destruct (insert_enqueue_config (ie_queue e) g
                 (rc_append (ie_strdup_value e) v t
                    (default rc_fresh (cache s !! g)))
                 (set_cache
                    (<[g:=rc_append (ie_strdup_value e) v t
                            (default rc_fresh (cache s !! g))]>
                       (cache s)) s)) as [-> ->].
Qed.

Lemma step_config l y :
  cache_timeout (sys_state (step l y)) = cache_timeout (sys_state y)
  ∧ cache_flush_timeout (sys_state (step l y))
    = cache_flush_timeout (sys_state y).
Proof.
  destruct l as [g v t e|fe| | | |ok st|]; simpl.
  - destruct (cache_destroyed y); [done|]. apply rrd_cache_insert_config.
  - destruct (cache_destroyed y); [done|]. simpl.
    by destruct (rrd_cache_flush_config (-1) fe (sys_state y))
      as (-> & -> & _).
  - done.
  - destruct (sys_worker y); try done; by destruct (queue_dequeue _ _).
  - destruct (sys_worker y); try done; by destruct (queue_thread_take _ _).
  - by destruct (sys_worker y).
  - by destruct (sys_worker y).
Qed.

(** ** Buffers that reach the time-out are queued *)

Lemma flagged_unqueued rc rc' :
  flagged rc rc' → flags rc' ≠ FLAG_QUEUED → rc' = rc.
Proof. by intros [-> | ->]. Qed.

Lemma spans_short_step l y :
  label_enqueues l → spans_short y → spans_short (step l y).
Proof.
  unfold spans_short. intros Hl Hy f rc'.
  destruct (step_config l y) as [-> _]. revert f rc'.
  destruct l as [g v t e|fe| | | |ok st|]; simpl in *.
  - destruct (cache_destroyed y); [done|]. simpl. intros f rc' Hf Hfl Hv.
    pose proof Hf as Hf'.
    apply rrd_cache_insert_entries in Hf
      as [[_ (rc & Hf & Hflg)]|(-> & Hok & _ & _)].
    + apply flagged_unqueued in Hflg as ->; [|done]. eauto.
    + destruct Hl as [Hq1 Hq2].
      by destruct (rrd_cache_insert_queued _ _ _ _ _ _ Hok Hq1 Hq2 Hf').
  - destruct (cache_destroyed y); [done|]. simpl. intros f rc' Hf Hfl Hv.
    destruct (rrd_cache_flush_effect (-1) fe (sys_state y))
      as (added & removed & Hfx).
    destruct (flush_effect_back _ _ _ _ _ _ _ _ Hfx Hf) as (rc & ? & Hflg).
    apply flagged_unqueued in Hflg as ->; [|done]. eauto.
  - done.
  - destruct (sys_worker y); try done; by destruct (queue_dequeue _ _).
  - destruct (sys_worker y) as [|f0| | | |]; try done.
    unfold queue_thread_take.
    destruct (cache (sys_state y) !! f0) as [rc0|] eqn:Hf0; simpl; [|done].
    intros f rc. rewrite lookup_insert. case_decide; [|apply Hy].
    by intros [= <-].
  - by destruct (sys_worker y).
  - by destruct (sys_worker y).
Qed.

(** ** No value is lost, doubled or reordered *)

Lemma update_values_app f us1 us2 :
  update_values f (us1 ++ us2) = update_values f us1 ++ update_values f us2.
Proof. unfold update_values. apply flat_map_app. Qed.

Lemma kept_none (c : gmap string rrd_cache_t) f (o : option rrd_cache_t) :
  (is_Some (c !! f) → is_Some o) → o = None → c !! f = None.
Proof.
  intros Hk ->. destruct (c !! f) eqn:Hc; [|done].
  destruct Hk as [? Hk]; [eauto|congruence].
Qed.

Lemma insert_buffer g v t e s f :
  ie_strdup_value e = true →
  (is_Some (cache s !! f) →
   is_Some (cache (rrd_cache_insert g v t e s).2 !! f)) →
  values (insert_entry (rrd_cache_insert g v t e s).2 f)
  = values (insert_entry s f)
    ++ (if decide (g = f) then
          match (rrd_cache_insert g v t e s).1 with
          | InsertOk => [(t, v)]
          | _ => []
          end
        else []).
Proof.
  intros Hdup Hkeep. unfold insert_entry at 1 2.
  destruct (cache (rrd_cache_insert g v t e s).2 !! f) as [rc'|] eqn:Hf'.
  - apply rrd_cache_insert_entries in Hf'
      as [[Hne (rc & Hf & Hflg)]|(-> & Hok & _ & Hflg)].
    + rewrite Hf. simpl.
      destruct (flagged_same_buffer _ _ Hflg) as (-> & _).
      destruct (decide (g = f)) as [->|]; [|by rewrite app_nil_r].
      destruct Hne as [?|Hno]; [done|].
      destruct (rrd_cache_insert f v t e s).1; by rewrite ?app_nil_r.
    + rewrite decide_True, Hok by done. simpl.
      destruct (flagged_same_buffer _ _ Hflg) as (-> & _).
      unfold rc_append, insert_entry. simpl. by rewrite Hdup.
  - rewrite (kept_none _ _ _ Hkeep eq_refl). simpl.
    destruct (decide (g = f)) as [->|]; [|done].
    destruct (rrd_cache_insert f v t e s).1 eqn:Hr; try done.
    destruct (rrd_cache_insert_entry _ _ _ _ _ Hr Hdup) as (rc' & ? & _).
    congruence.
Qed.

Lemma stored_step f l y :
  label_copies l →
  (is_Some (cache (sys_state y) !! f) →
   is_Some (cache (sys_state (step l y)) !! f)) →
  stored f (step l y) = stored f y ++ step_accepts f l y.
Proof.
  intros Hl Hkeep. unfold stored.
  destruct l as [g v t e|fe| | | |ok st|]; simpl in *.
  - destruct (cache_destroyed y) eqn:Hd.
    { destruct (decide (g = f)); by rewrite app_nil_r. }
    simpl in *.
    pose proof (insert_buffer g v t e (sys_state y) f Hl Hkeep) as Hb.
    unfold insert_entry in Hb. rewrite Hb.
    by rewrite !app_assoc.
  - rewrite app_nil_r. destruct (cache_destroyed y); [done|]. simpl in *.
    do 2 f_equal.
    destruct (rrd_cache_flush_effect (-1) fe (sys_state y))
      as (added & removed & Hfx).
    destruct (cache (rrd_cache_flush (-1) fe (sys_state y)) !! f)
      as [rc'|] eqn:Hf'.
    + destruct (flush_effect_back _ _ _ _ _ _ _ _ Hfx Hf')
        as (rc & -> & Hflg).
      simpl. by destruct (flagged_same_buffer _ _ Hflg) as (-> & _).
    + by rewrite (kept_none _ _ _ Hkeep eq_refl).
  - by rewrite app_nil_r.
  - rewrite app_nil_r.
    destruct (sys_worker y) eqn:Hpc; rewrite ?Hpc; try done.
    destruct (queue_dequeue _ _); simpl; by rewrite ?Hpc.
  - rewrite app_nil_r.
    destruct (sys_worker y) as [|g| | | |] eqn:Hpc; rewrite ?Hpc; try done.
    unfold queue_thread_take.
    destruct (cache (sys_state y) !! g) as [rc|] eqn:Hg; simpl; [|done].
    rewrite lookup_insert. destruct (decide (g = f)) as [->|]; [|done].
    rewrite Hg. simpl. by rewrite app_nil_r.
  - subst ok. rewrite app_nil_r.
    destruct (sys_worker y) as [| |g vs| | |] eqn:Hpc; rewrite ?Hpc;
      try done.
    simpl. rewrite update_values_app. unfold rrd_write_to_file. simpl.
    rewrite <- !app_assoc. f_equal. simpl. f_equal.
    destruct vs as [|v0 vs]; simpl.
    + by destruct (decide (g = f)).
    + unfold update_values.
      destruct (Z.ltb_spec (Z.of_nat (S (length vs))) 1); [lia|].
      simpl. by rewrite app_nil_r.
  - rewrite app_nil_r.
    destruct (sys_worker y) eqn:Hpc; rewrite ?Hpc; try done.
    simpl in *. rewrite lookup_empty in *.
    by rewrite (kept_none _ _ _ Hkeep eq_refl).
Qed.

Lemma stored_run f ls y :
  Forall label_copies ls → keeps f ls y →
  stored f (run ls y) = stored f y ++ accepted f ls y.
Proof.
  unfold run. revert y.
  induction ls as [|l ls IH]; intros y Hls Hk; simpl.
  { by rewrite app_nil_r. }
  apply Forall_cons in Hls as [Hl Hls]. destruct Hk as [Hk1 Hk2].
  rewrite IH by done. rewrite stored_step by done. by rewrite app_assoc.
Qed.

(** ** The queue thread empties the queue *)





(** ** X1-X11: the cache, the queue and the updates along the runs *)

Lemma reachable_timed y : reachable y → all_entries rc_timed y.
Proof.
  intros (now & ct & cft & ls & ->).
  apply run_invariant; [apply all_timed_step|apply all_entries_init].
Qed.

Lemma reachable_queued_sound y : reachable y → queued_sound y.
Proof.
  intros (now & ct & cft & ls & ->).
  apply run_invariant; [apply queued_sound_step|apply queued_sound_init].
Qed.

(** X1: in every state of every run, the two time stamps of an entry are
    in order and not negative, and every buffered time stamp is positive
    and at most [last_value]. *)
Theorem entries_time_stamps (now ct cft : Z) (ls : list label)
    (f : string) (rc : rrd_cache_t) :
  cache (sys_state (run ls (rrd_init now ct cft))) !! f = Some rc →
  0 ≤ first_value rc ≤ last_value rc
  ∧ Forall (λ t, 0 < t ≤ last_value rc) (values rc).*1.
Proof.
  intros Hf. eapply (reachable_timed (run ls (rrd_init now ct cft))); [|done].
  by exists now, ct, cft, ls.
Qed.

Lemma entries_time_stamps_witness :
  0 ≤ 1000 ≤ 1000 ∧ Forall (λ t, 0 < t ≤ 1000) [1000].
Proof.
  exact (entries_time_stamps 1000 10 30 (take 1 run_evict) "A"
           (RrdCache [(1000, "1000:1")] 1000 1000 FLAG_NONE) eq_refl).
Defined.

(** X2: along a run in which the copy of every inserted value is
    allocated, [first_value] is the time stamp of the first buffered
    value of an entry and [last_value] that of the last one, whenever the
    buffer holds a value. *)
Theorem entries_first_last_exact (now ct cft : Z) (ls : list label)
    (f : string) (rc : rrd_cache_t) :
  Forall label_strdups ls →
  cache (sys_state (run ls (rrd_init now ct cft))) !! f = Some rc →
  (∀ t, head (values rc).*1 = Some t → first_value rc = t)
  ∧ (∀ t, last (values rc).*1 = Some t → last_value rc = t).
Proof.
  intros Hls Hf.
  eapply (run_invariant_if (all_entries rc_exact) label_strdups);
    [apply all_exact_step|exact Hls|apply all_entries_init|exact Hf].
Qed.

Lemma entries_first_last_exact_witness :
  (∀ t, head [1000; 1010] = Some t → 1000 = t)
  ∧ (∀ t, last [1000; 1010] = Some t → 1010 = t).
Proof.
  refine (entries_first_last_exact 1000 10 30 (take 2 run_evict) "A"
            (RrdCache [(1000, "1000:1"); (1010, "1010:1")]
                      1000 1010 FLAG_QUEUED) _ eq_refl).
  repeat constructor.
Defined.

(** X3: in every reachable state, the file of every entry flagged
    [FLAG_QUEUED] is in the queue or has just been dequeued by the queue
    thread: no entry stays flagged without being on its way to the queue
    thread. *)
Theorem queued_entries_wait (y : rrd_system) (f : string)
    (rc : rrd_cache_t) :
  reachable y →
  cache (sys_state y) !! f = Some rc → flags rc = FLAG_QUEUED →
  f ∈ pending y.
Proof. intros Hy. by apply reachable_queued_sound. Qed.

Lemma queued_entries_wait_witness :
  "A" ∈ pending (run (take 2 run_evict) (rrd_init 1000 10 30)).
Proof.
  refine (queued_entries_wait (run (take 2 run_evict) (rrd_init 1000 10 30))
            "A" (RrdCache [(1000, "1000:1"); (1010, "1010:1")]
                          1000 1010 FLAG_QUEUED) _ eq_refl eq_refl).
  by exists 1000, 10, 30, (take 2 run_evict).
Defined.

(** X4: along a run in which [realloc] of a value array never fails, the
    queue thread never looks up a file that has no entry, and, until the
    tree is destroyed, every file that waits for the queue thread waits
    once and has an entry flagged [FLAG_QUEUED]. *)
Theorem queue_thread_never_faults (now ct cft : Z) (ls : list label) :
  Forall label_reallocs ls →
  sys_worker (run ls (rrd_init now ct cft)) ≠ WorkerFault
  ∧ (sys_worker (run ls (rrd_init now ct cft)) ≠ WorkerExit →
     NoDup (pending (run ls (rrd_init now ct cft)))
     ∧ ∀ f, f ∈ pending (run ls (rrd_init now ct cft)) →
            ∃ rc, cache (sys_state (run ls (rrd_init now ct cft))) !! f
                  = Some rc
                  ∧ flags rc = FLAG_QUEUED).
Proof.
  intros Hls.
  apply (run_invariant_if queue_safe label_reallocs);
    [apply queue_safe_step|exact Hls|apply queue_safe_init].
Qed.

Lemma queue_thread_never_faults_witness :
  sys_worker (run run_evict (rrd_init 1000 10 30)) ≠ WorkerFault.
Proof.
  refine (proj1 (queue_thread_never_faults 1000 10 30 run_evict _)).
  repeat constructor.
Defined.

(** X5: along a run in which [realloc] of a value array never fails, and
    until the tree is destroyed, the files that wait for the queue thread
    are at most as many as the entries of the tree. *)
Theorem queue_depth_bounded (now ct cft : Z) (ls : list label) :
  Forall label_reallocs ls →
  sys_worker (run ls (rrd_init now ct cft)) ≠ WorkerExit →
  (length (pending (run ls (rrd_init now ct cft)))
   ≤ size (cache (sys_state (run ls (rrd_init now ct cft)))))%nat.
Proof.
  intros Hls Hpc.
  destruct (run_invariant_if queue_safe label_reallocs queue_safe_step
              ls _ Hls (queue_safe_init now ct cft)) as [_ Hsafe].
  destruct (Hsafe Hpc) as [Hn Hfl].
  apply NoDup_keys_length; [done|].
  intros k Hk. destruct (Hfl k Hk) as (rc & -> & _). by eexists.
Qed.

Lemma queue_depth_bounded_witness :
  (length (pending (run (take 2 run_evict) (rrd_init 1000 10 30)))
   ≤ size (cache (sys_state (run (take 2 run_evict)
                               (rrd_init 1000 10 30)))))%nat.
Proof.
  refine (queue_depth_bounded 1000 10 30 (take 2 run_evict) _ _).
  - repeat constructor.
  - discriminate.
Defined.

(** X6: along a run in which no copy of a value and no [argv] fails to be
    allocated and the entry of a file is never taken out of the tree, the
    values handed to [rrd_update] for the file, followed by those the
    queue thread holds and by those in the buffer, are exactly the values
    of the inserts for that file that returned 0, in the order of these
    inserts: nothing is lost, doubled or reordered. *)
Theorem accepted_values_conserved (now ct cft : Z) (ls : list label)
    (f : string) :
  Forall label_copies ls → keeps f ls (rrd_init now ct cft) →
  stored f (run ls (rrd_init now ct cft))
  = accepted f ls (rrd_init now ct cft).
Proof.
  intros Hls Hk. rewrite stored_run by done.
  unfold stored. simpl. by rewrite lookup_empty.
Qed.

Lemma accepted_values_conserved_witness :
  stored "A" (run run_once (rrd_init 1000 10 30))
  = [(1000, "1000:1"); (1010, "1010:1")].
Proof.
  refine (accepted_values_conserved 1000 10 30 run_once "A" _ _).
  - repeat constructor.
  - simpl. repeat split; intros _; vm_compute; eexists; reflexivity.
Defined.

Lemma insert_enqueue_at_once a g rc s :
  qa_entry a = true → qa_filename a = true →
  cache_timeout s ≤ last_value rc - first_value rc →
  cache s !! g = Some rc →
  queued_in (cache (insert_enqueue a g rc s)) g
  ∧ ((flags rc = FLAG_QUEUED ∧ queue (insert_enqueue a g rc s) = queue s)
     ∨ queue (insert_enqueue a g rc s) = queue s ++ [g])
  ∧ ∀ k, k ≠ g → cache (insert_enqueue a g rc s) !! k = cache s !! k.
Proof.
  intros Hq1 Hq2 Hspan Hg. unfold insert_enqueue, rrd_queue_cache_entry.
  rewrite Hq1, Hq2. simpl.
  destruct (Z.leb_spec (cache_timeout s) (last_value rc - first_value rc));
    [|lia].
  destruct (decide (flags rc = FLAG_QUEUED)) as [Hfl|Hfl]; simpl.
  - split_and!; [by exists rc|by left|done].
  - split_and!; [|by right|].
    + exists (set_flags FLAG_QUEUED rc). by rewrite lookup_insert_eq.
    + intros k Hk. by apply lookup_insert_ne.
Qed.

(** X7: with caching off ([cache_timeout = 0]), an insert that returns 0
    and whose queue entry is allocated leaves the entry of the file
    flagged [FLAG_QUEUED] and the file waiting for the queue thread, and
    changes no other entry. *)
Theorem caching_off_queues_at_once (y : rrd_system) (g v : string) (t : Z)
    (e : insert_env) :
  reachable y → cache_destroyed y = false →
  cache_timeout (sys_state y) = 0 →
  (rrd_cache_insert g v t e (sys_state y)).1 = InsertOk →
  qa_entry (ie_queue e) = true → qa_filename (ie_queue e) = true →
  queued_in (cache (sys_state (step (LInsert g v t e) y))) g
  ∧ g ∈ pending (step (LInsert g v t e) y)
  ∧ ∀ k, k ≠ g → cache (sys_state (step (LInsert g v t e) y)) !! k
                 = cache (sys_state y) !! k.
Proof.
  intros Hy Hd Hct Hok Hq1 Hq2. simpl. rewrite Hd.
  unfold pending, held. simpl.
  destruct (rrd_cache_insert_ok _ _ _ _ _ Hok) as (_ & Hlt & ->).
  set (rc1 := rc_append (ie_strdup_value e) v t
                (insert_entry (sys_state y) g)).
  set (s1 := set_cache (<[g:=rc1]> (cache (sys_state y))) (sys_state y)).
  assert (rc_timed rc1) as [[_ Hspan] _].
  { apply rc_timed_append; [|done]. unfold insert_entry.
    destruct (cache (sys_state y) !! g) eqn:Hg; simpl;
      [by eapply reachable_timed|apply rc_timed_fresh]. }
  assert (insert_flush e (insert_enqueue (ie_queue e) g rc1 s1)
          = insert_enqueue (ie_queue e) g rc1 s1) as ->.
  { unfold insert_flush.
    destruct (insert_enqueue_config (ie_queue e) g rc1 s1) as [-> _].
    unfold s1. simpl. by rewrite Hct. }
  destruct (insert_enqueue_at_once (ie_queue e) g rc1 s1 Hq1 Hq2)
    as (Hq & Hqueue & Hother).
  { change (cache_timeout s1) with (cache_timeout (sys_state y)).
    rewrite Hct. lia. }
  { apply lookup_insert_eq. }
  split_and!; [done| |].
  - destruct Hqueue as [[Hfl ->]| ->].
    + unfold s1. simpl.
      assert (queued_in (cache (sys_state y)) g) as (rc & Hg & Hq').
      { unfold rc1, insert_entry in Hfl. simpl in Hfl.
        destruct (cache (sys_state y) !! g) as [rc|] eqn:Hg; [|done].
        by exists rc. }
      by eapply (reachable_queued_sound y).
    + rewrite app_assoc. apply elem_of_app. right.
      by apply list_elem_of_singleton.
  - intros k Hk. rewrite Hother by done. unfold s1. simpl.
    by apply lookup_insert_ne.
Qed.

Lemma caching_off_queues_at_once_witness :
  "A" ∈ pending (step (LInsert "A" "1000:1" 1000 (ie_ok 1000))
                   (rrd_init 1000 0 0)).
Proof.
  refine (proj1 (proj2 (caching_off_queues_at_once (rrd_init 1000 0 0)
                          "A" "1000:1" 1000 (ie_ok 1000) _ eq_refl eq_refl
                          eq_refl eq_refl eq_refl))).
  by exists 1000, 0, 0, [].
Defined.

(** X8: along a run in which the queue entry of every insert and the
    copy of every inserted value are allocated, the values of every
    buffer that is not flagged [FLAG_QUEUED] span less than
    [cache_timeout], from the first buffered time stamp to the last: a
    buffer that has reached the time-out is always queued. *)
Theorem unqueued_buffers_span_short (now ct cft : Z) (ls : list label)
    (f : string) (rc : rrd_cache_t) (t1 t2 : Z) :
  Forall label_enqueues ls → Forall label_strdups ls →
  cache (sys_state (run ls (rrd_init now ct cft))) !! f = Some rc →
  flags rc ≠ FLAG_QUEUED →
  head (values rc).*1 = Some t1 → last (values rc).*1 = Some t2 →
  t2 - t1 < cache_timeout (sys_state (run ls (rrd_init now ct cft))).
Proof.
  intros Hq Hd Hf Hfl H1 H2.
  assert (values rc ≠ []) as Hv by (by destruct (values rc)).
  assert (spans_short (rrd_init now ct cft)) as H0.
  { intros f' rc'. simpl. by rewrite lookup_empty. }
  pose proof (run_invariant_if spans_short label_enqueues spans_short_step
                ls _ Hq H0) as Hshort.
  pose proof (run_invariant_if (all_entries rc_exact) label_strdups
                all_exact_step ls _ Hd (all_entries_init _ now ct cft)
                f rc Hf) as [He1 He2].
  rewrite <- (He1 _ H1), <- (He2 _ H2).
  by apply (Hshort f rc).
Qed.

Lemma unqueued_buffers_span_short_witness :
  1000 - 1000
  < cache_timeout (sys_state (run (take 1 run_evict) (rrd_init 1000 10 30))).
Proof.
  refine (unqueued_buffers_span_short 1000 10 30 (take 1 run_evict) "A"
            (RrdCache [(1000, "1000:1")] 1000 1000 FLAG_NONE) 1000 1000
            _ _ eq_refl _ eq_refl eq_refl).
  - repeat constructor.
  - repeat constructor.
  - discriminate.
Defined.



(** X10: whatever its allocations do, a flush only queues and flags
    entries that hold values, are unqueued and at least [timeout] old,
    and only removes entries that are empty, unqueued and at least
    [timeout] old; every other entry, every buffer and the rest of the
    state stay as they are, and a flush that returns early removes
    nothing. *)
Theorem rrd_cache_flush_changes (timeout : Z) (fe : flush_env)
    (s : rrd_state) :
  ∃ added removed,
    flush_effect timeout (fe_now fe) s (rrd_cache_flush timeout fe s)
      added removed.
Proof. apply rrd_cache_flush_effect. Qed.

(** X11: in a state reached by a run in which no [strdup] of a value
    has failed (so that an empty buffer has no array left and the
    assertion of line 656 holds), a flush in which no allocation fails
    leaves an entry as it is if it is queued or younger than [timeout];
    otherwise it queues the file and flags the entry if the buffer holds
    values, and removes the entry if the buffer is empty; and it records
    the time of the flush. *)
Theorem rrd_cache_flush_outcome (now ct cft : Z) (ls : list label)
    (timeout : Z) (fe : flush_env) (k : string) (rc : rrd_cache_t) :
  Forall label_strdups ls → fe_alloc_ok fe →
  cache (sys_state (run ls (rrd_init now ct cft))) !! k = Some rc →
  cache (rrd_cache_flush timeout fe
           (sys_state (run ls (rrd_init now ct cft)))) !! k
  = (if decide (flush_queues timeout (fe_now fe) (k, rc))
     then Some (set_flags FLAG_QUEUED rc)
     else if decide (flush_evicts timeout (fe_now fe) (k, rc)) then None
     else Some rc)
  ∧ (flush_queues timeout (fe_now fe) (k, rc) →
     k ∈ queue (rrd_cache_flush timeout fe
                  (sys_state (run ls (rrd_init now ct cft)))))
  ∧ cache_flush_last (rrd_cache_flush timeout fe
                        (sys_state (run ls (rrd_init now ct cft))))
    = fe_now fe.
Proof. intros _. apply rrd_cache_flush_entry. Qed.

Lemma rrd_cache_flush_outcome_witness :
  "A" ∈ queue (rrd_cache_flush 0 (fe_ok 1000)
                 (sys_state (run (take 1 run_evict) (rrd_init 1000 10 30)))).
Proof.
  refine (proj1 (proj2 (rrd_cache_flush_outcome 1000 10 30
                          (take 1 run_evict) 0 (fe_ok 1000) "A"
                          (RrdCache [(1000, "1000:1")] 1000 1000 FLAG_NONE)
                          _ _ eq_refl)) _).
  - repeat constructor.
  - intros k. repeat split.
  - repeat split; [discriminate|simpl; lia|discriminate].
Defined.

(** ** X12: a shutdown writes every buffered value *)



(** ** X13-X15: more about rra_get *)

Lemma rra_emit_count rra_max cdp_len cdp_num st ty :
  st.1 = Z.of_nat (length st.2) →
  (rra_emit rra_max cdp_len cdp_num st ty).1
  = Z.of_nat (length (rra_emit rra_max cdp_len cdp_num st ty).2)
  ∧ ((rra_emit rra_max cdp_len cdp_num st ty).1 ≤ Z.max st.1 rra_max).
Proof.
  intros Hst. unfold rra_emit.
  destruct (Z.leb_spec rra_max st.1); simpl.
  - split; [done|lia].
  - rewrite length_app. simpl. split; lia.
Qed.

Lemma rra_emit_all_count rra_max cdp_len cdp_num tys st :
  st.1 = Z.of_nat (length st.2) →
  (foldl (rra_emit rra_max cdp_len cdp_num) st tys).1
  = Z.of_nat (length (foldl (rra_emit rra_max cdp_len cdp_num) st tys).2)
  ∧ (foldl (rra_emit rra_max cdp_len cdp_num) st tys).1
    ≤ Z.max st.1 rra_max.
Proof.
  revert st. induction tys as [|ty tys IH]; intros st Hst; simpl.
  { split; [done|lia]. }
  destruct (rra_emit_count rra_max cdp_len cdp_num st ty Hst) as [H1 H2].
  destruct (IH _ H1) as [H3 H4]. split; [done|lia].
Qed.

Lemma rra_visit_count cfg rra_max spans st :
  st.2.1 = Z.of_nat (length st.2.2) →
  (foldl (rra_visit cfg rra_max) st spans).2.1
  = Z.of_nat (length (foldl (rra_visit cfg rra_max) st spans).2.2)
  ∧ (foldl (rra_visit cfg rra_max) st spans).2.1 ≤ Z.max st.2.1 rra_max.
Proof.
  revert st. induction spans as [|span spans IH]; intros st Hst; simpl.
  { split; [done|lia]. }
  assert ((rra_visit cfg rra_max st span).2.1
          = Z.of_nat (length (rra_visit cfg rra_max st span).2.2)
          ∧ (rra_visit cfg rra_max st span).2.1 ≤ Z.max st.2.1 rra_max)
    as [H1 H2].
  { unfold rra_visit. destruct (_ <? _); [split; [done|lia]|].
    apply (rra_emit_all_count rra_max _ _ rra_types st.2 Hst). }
  destruct (IH _ H1) as [H3 H4]. split; [done|lia].
Qed.

(** X13: whatever the configuration, [rra_get] either fails with [-1]
    and no array, or returns the number of strings it stored, which is at
    most three times the number of timespans: it never stores past the
    [rra_max + 1] slots it allocated. *)
Theorem rra_get_bounded (malloc_ok : bool) (cfg : rra_config) :
  match (rra_get malloc_ok cfg rra_static0).1.2 with
  | Some def =>
      (rra_get malloc_ok cfg rra_static0).1.1 = Z.of_nat (length def)
      ∧ (rra_get malloc_ok cfg rra_static0).1.1
        ≤ 3 * Z.of_nat (length (rra_rts cfg))
  | None => (rra_get malloc_ok cfg rra_static0).1.1 = -1
  end.
Proof.
  unfold rra_get, rra_compute. simpl.
  destruct malloc_ok; simpl; [|done].
  destruct (_ || _); simpl; [done|].
  destruct (rra_visit_count cfg (Z.of_nat (length (rra_rts cfg)) * 3)
              (rra_rts cfg) (0, (0, [])) eq_refl) as [H1 H2].
  simpl in *. change (Z.of_nat 3) with 3. split; [done|lia].
Qed.

(** The archives of the specification, when they are what [rra_get]
    returns. *)
Lemma rra_get_fresh cfg :
  1 ≤ stepsize cfg → 1 ≤ rrarows cfg → Forall int_range (rra_rts cfg) →
  (rra_get true cfg rra_static0).1.2
  = Some (rra_spec true (stepsize cfg) (rrarows cfg) (rra_rts cfg)).
Proof.
  intros Hs Hr Hspans. unfold rra_get, rra_compute. simpl.
  destruct (Z.leb_spec (stepsize cfg) 0); [lia|].
  destruct (Z.leb_spec (rrarows cfg) 0); [lia|]. simpl.
  rewrite (rra_visit_spec cfg _ 0 0 []); [done..|lia|lia].
Qed.

Lemma ceil_div_bounds a b :
  0 < b → (ceil_div a b - 1) * b < a ≤ ceil_div a b * b.
Proof.
  intros Hb. unfold ceil_div.
  pose proof (Z.div_mod (a + b - 1) b) as H1.
  pose proof (Z.mod_pos_bound (a + b - 1) b Hb) as H2. nia.
Qed.

Lemma rra_spec_rows first step rows spans r :
  1 ≤ step → 1 ≤ rows → r ∈ rra_spec first step rows spans →
  rra_type r ∈ rra_types
  ∧ 1 ≤ rra_cdp_len r ∧ rows ≤ rra_cdp_num r
  ∧ ∃ span, span ∈ spans ∧ rows * step ≤ span
            ∧ (rra_cdp_num r - 1) * (rra_cdp_len r * step) < span
              ≤ rra_cdp_num r * (rra_cdp_len r * step).
Proof.
  intros Hs Hr. revert first.
  induction spans as [|span spans IH]; intros first Hin; simpl in Hin.
  { by apply elem_of_nil in Hin. }
  assert (∀ first', r ∈ rra_spec first' step rows spans →
            rra_type r ∈ rra_types
            ∧ 1 ≤ rra_cdp_len r ∧ rows ≤ rra_cdp_num r
            ∧ ∃ span0, span0 ∈ span :: spans ∧ rows * step ≤ span0
                ∧ (rra_cdp_num r - 1) * (rra_cdp_len r * step) < span0
                  ≤ rra_cdp_num r * (rra_cdp_len r * step)) as IH'.
  { intros first' Hin'. destruct (IH first' Hin') as (? & ? & ? & s0 & ? & ?).
    split_and!; [done..|]. exists s0. split; [by right|done]. }
  destruct (Z.ltb_spec (Z.div span step) rows) as [|Hacc]; [by eapply IH'|].
  pose proof (accepted_span _ _ _ Hs Hr Hacc) as Hbig.
  set (len := if first then 1 else Z.div span (rows * step)) in *.
  assert (1 ≤ len ∧ len * (rows * step) ≤ span) as [Hlen1 Hlen2].
  { unfold len. destruct first; [lia|].
    assert (0 < rows * step) as Hpos by nia.
    pose proof (Z.div_mod span (rows * step)) as H1.
    pose proof (Z.mod_pos_bound span _ Hpos) as H2.
    split; [apply Z.div_le_lower_bound; lia|nia]. }
  assert (0 < len * step) as Hb by nia.
  pose proof (ceil_div_bounds span (len * step) Hb) as Hc.
  assert (rows ≤ ceil_div span (len * step)) as Hrows by nia.
  assert (∀ ty, ty ∈ rra_types →
            r = Rra ty len (ceil_div span (len * step)) →
            rra_type r ∈ rra_types
            ∧ 1 ≤ rra_cdp_len r ∧ rows ≤ rra_cdp_num r
            ∧ ∃ span0, span0 ∈ span :: spans ∧ rows * step ≤ span0
                ∧ (rra_cdp_num r - 1) * (rra_cdp_len r * step) < span0
                  ≤ rra_cdp_num r * (rra_cdp_len r * step)) as Hhere.
  { intros ty Hty ->. simpl. split_and!; [done..|].
    exists span. split; [by left|]. split; [lia|done]. }
  apply elem_of_cons in Hin as [->|Hin].
  { eapply Hhere; [|done]. by left. }
  apply elem_of_cons in Hin as [->|Hin].
  { eapply Hhere; [|done]. right. by left. }
  apply elem_of_cons in Hin as [->|Hin].
  { eapply Hhere; [|done]. right. right. by left. }
  by eapply IH'.
Qed.

(** X14: for a step size and a row count of at least 1, every archive
    that [rra_get] emits is of one of the three types, consolidates at
    least one step, has at least [rrarows] rows, and belongs to a
    configured timespan of at least [rrarows] steps that its rows just
    cover: one row less would not cover the timespan. *)
Theorem rra_get_rows (cfg : rra_config) (def : list rra_t) (r : rra_t) :
  1 ≤ stepsize cfg → 1 ≤ rrarows cfg → Forall int_range (rra_rts cfg) →
  (rra_get true cfg rra_static0).1.2 = Some def → r ∈ def →
  rra_type r ∈ rra_types
  ∧ 1 ≤ rra_cdp_len r ∧ rrarows cfg ≤ rra_cdp_num r
  ∧ ∃ span, span ∈ rra_rts cfg ∧ rrarows cfg * stepsize cfg ≤ span
            ∧ (rra_cdp_num r - 1) * (rra_cdp_len r * stepsize cfg) < span
              ≤ rra_cdp_num r * (rra_cdp_len r * stepsize cfg).
Proof.
  intros Hs Hr Hspans. rewrite (rra_get_fresh cfg Hs Hr Hspans).
  intros [= <-] Hin.
  by eapply rra_spec_rows.
Qed.

Lemma rra_get_rows_witness :
  1 ≤ 86 ∧ 100 ≤ 101.
Proof.
  refine (let H := rra_get_rows cfg_s1 _ (Rra "MIN" 86 101) _ _ _ eq_refl _
          in conj (proj1 (proj2 H)) (proj1 (proj2 (proj2 H)))).
  - simpl. lia.
  - simpl. lia.
  - repeat constructor; simpl; lia.
  - vm_compute. do 4 right. left.
Defined.

(** X15: once [rra_get] has returned a positive number of archives,
    every later call returns the same archives and leaves the static
    variables as they are, whatever the configuration has become and
    whether memory is available or not. *)
Theorem rra_get_memo (m m' : bool) (cfg cfg' : rra_config) :
  0 < (rra_get m cfg rra_static0).1.1 →
  rra_get m' cfg' (rra_get m cfg rra_static0).2
  = ((rra_get m cfg rra_static0).1, (rra_get m cfg rra_static0).2).
Proof.
  unfold rra_get at 1 3 4 5. simpl. unfold rra_compute.
  destruct m; simpl; [|done].
  destruct (_ || _); simpl; [done|].
  match goal with
  | |- context [foldl ?f ?a ?l] => generalize (foldl f a l)
  end.
  intros r Hn. unfold rra_get. simpl.
  destruct (Z.eqb_spec r.2.1 0) as [Heq|]; [lia|done].
Qed.

Lemma rra_get_memo_witness :
  rra_get false (RraConfig 0 0 []) (rra_get true cfg_s1 rra_static0).2
  = ((rra_get true cfg_s1 rra_static0).1, (rra_get true cfg_s1 rra_static0).2).
Proof.
  refine (rra_get_memo true false cfg_s1 (RraConfig 0 0 []) _).
  vm_compute. reflexivity.
Defined.

(** ** X16: the path of a value list *)

Lemma string_app_cons (x : Ascii.ascii) (a b : string) :
  String x a +:+ b = String x (a +:+ b).
Proof. reflexivity. Qed.

Lemma string_app_nil_l (b : string) : "" +:+ b = b.
Proof. reflexivity. Qed.

Lemma string_length_app (a b : string) :
  String.length (a +:+ b) = (String.length a + String.length b)%nat.
Proof.
  induction a as [|c a IH]; [done|].
  rewrite string_app_cons. simpl. by rewrite IH.
Qed.

Lemma string_app_assoc (a b c : string) :
  (a +:+ b) +:+ c = a +:+ (b +:+ c).
Proof.
  induction a as [|x a IH]; [done|].
  rewrite !string_app_cons. by rewrite IH.
Qed.

Lemma string_app_ne_nil (a b : string) : b ≠ "" → a +:+ b ≠ "".
Proof. destruct a; [done|]. by rewrite string_app_cons. Qed.

Lemma string_length_0 (a : string) :
  (0 <? String.length a)%nat = bool_decide (a ≠ "").
Proof. by destruct a. Qed.

Lemma snprintf_at_fits buffer_len buffer piece :
  piece ≠ "" →
  snprintf_at buffer_len buffer piece
  = if decide (Z.of_nat (String.length (buffer +:+ piece)) < buffer_len)
    then Some (buffer +:+ piece) else None.
Proof.
  intros Hp. unfold snprintf_at. rewrite string_length_app.
  destruct (Z.ltb_spec (Z.of_nat (String.length piece)) 1) as [Hl|Hl].
  { destruct piece; [done|]. simpl in Hl. lia. }
  simpl.
  destruct (Z.leb_spec (buffer_len - Z.of_nat (String.length buffer))
              (Z.of_nat (String.length piece))).
  - rewrite decide_False; [done|lia].
  - rewrite decide_True; [done|lia].
Qed.

Lemma snprintf_at_longer buffer_len buffer piece :
  ¬ Z.of_nat (String.length buffer) < buffer_len →
  ¬ Z.of_nat (String.length (buffer +:+ piece)) < buffer_len.
Proof. rewrite string_length_app. lia. Qed.

Lemma rrd_path_pieces (datadir : option string) (ds_type : string)
    (vl : value_list_t) :
  rrd_path datadir ds_type vl
  = (((match datadir with Some d => d +:+ "/" | None => "" end)
      +:+ (vl_host vl +:+ "/"))
     +:+ (if bool_decide (vl_plugin_instance vl ≠ "")
          then vl_plugin vl +:+ "-" +:+ vl_plugin_instance vl +:+ "/"
          else vl_plugin vl +:+ "/"))
    +:+ (if bool_decide (vl_type_instance vl ≠ "")
         then ds_type +:+ "-" +:+ vl_type_instance vl +:+ ".rrd"
         else ds_type +:+ ".rrd").
Proof.
  unfold rrd_path. rewrite !string_app_assoc. do 3 f_equal.
  destruct (decide (vl_plugin_instance vl = "")) as [Hpi|Hpi];
    [rewrite bool_decide_eq_false_2 by tauto
    |rewrite bool_decide_eq_true_2 by done];
    rewrite ?string_app_assoc, ?string_app_nil_l; do 2 f_equal.
  all: destruct (decide (vl_type_instance vl = "")) as [Hti|Hti];
    [rewrite bool_decide_eq_false_2 by tauto
    |rewrite bool_decide_eq_true_2 by done];
    by rewrite ?string_app_assoc, ?string_app_nil_l.
Qed.

(** X16: [value_list_to_filename] returns the path
    [[datadir/]host/plugin[-plugin_instance]/type[-type_instance].rrd]
    when that path is shorter than the buffer, and fails otherwise: it
    fails exactly when the path and its terminating byte do not fit. *)
Theorem value_list_to_filename_fits (buffer_len : Z)
    (datadir : option string) (ds_type : string) (vl : value_list_t) :
  value_list_to_filename buffer_len datadir ds_type vl
  = if decide (Z.of_nat (String.length (rrd_path datadir ds_type vl))
               < buffer_len)
    then Some (rrd_path datadir ds_type vl) else None.
Proof.
  rewrite rrd_path_pieces. unfold value_list_to_filename.
  rewrite !string_length_0.
  set (p1 := match datadir with Some d => d +:+ "/" | None => "" end).
  set (p2 := vl_host vl +:+ "/").
  set (p3 := if bool_decide (vl_plugin_instance vl ≠ "")
             then vl_plugin vl +:+ "-" +:+ vl_plugin_instance vl +:+ "/"
             else vl_plugin vl +:+ "/").
  set (p4 := if bool_decide (vl_type_instance vl ≠ "")
             then ds_type +:+ "-" +:+ vl_type_instance vl +:+ ".rrd"
             else ds_type +:+ ".rrd").
  assert (p2 ≠ "") as Hp2 by by apply string_app_ne_nil.
  assert (p3 ≠ "") as Hp3.
  { unfold p3. case_bool_decide; by repeat apply string_app_ne_nil. }
  assert (p4 ≠ "") as Hp4.
  { unfold p4. case_bool_decide; by repeat apply string_app_ne_nil. }
  assert (match datadir with
          | Some d => snprintf_at buffer_len "" (d +:+ "/")
          | None => Some ""
          end
          = if decide (Z.of_nat (String.length p1) < buffer_len)
            then Some p1
            else if decide (datadir = None) then Some p1 else None) as ->.
  { unfold p1. destruct datadir as [d|].
    - rewrite snprintf_at_fits by by apply string_app_ne_nil.
      rewrite string_app_nil_l.
      by destruct (decide _).
    - by destruct (decide _). }
  destruct (decide (Z.of_nat (String.length p1) < buffer_len)) as [H1|H1].
  - simpl. rewrite snprintf_at_fits by done.
    destruct (decide (Z.of_nat (String.length (p1 +:+ p2)) < buffer_len))
      as [H2|H2]; simpl.
    + rewrite snprintf_at_fits by done.
      destruct (decide (Z.of_nat (String.length ((p1 +:+ p2) +:+ p3))
                        < buffer_len)) as [H3|H3]; simpl.
      * by rewrite snprintf_at_fits.
      * rewrite decide_False; [done|]. by apply snprintf_at_longer.
    + rewrite decide_False; [done|].
      by apply snprintf_at_longer, snprintf_at_longer.
  - assert (¬ Z.of_nat (String.length (((p1 +:+ p2) +:+ p3) +:+ p4))
              < buffer_len) as H4
      by by do 3 apply snprintf_at_longer.
    rewrite (decide_False (P := Z.of_nat (String.length
                                            (((p1 +:+ p2) +:+ p3) +:+ p4))
                                < buffer_len)) by done.
    destruct (decide (datadir = None)) as [->|]; [|done].
    simpl. rewrite snprintf_at_fits by done.
    rewrite decide_False; [done|]. by apply snprintf_at_longer.
Qed.

(** ** rrd_config *)

Lemma datadir_strip_spec (len : nat) (d : list Ascii.ascii) :
  length d = len →
  (∃ n, d = datadir_strip len d ++ replicate n char_slash)
  ∧ last (datadir_strip len d) ≠ Some char_slash.
Proof.
  revert d. induction len as [|n IH]; intros d Hlen.
  - destruct d; [|done]. simpl. split; [by exists 0%nat|done].
  - simpl. case_bool_decide as Hd.
    + assert (d = take n d ++ [char_slash]) as Hsplit.
      { rewrite <- (take_drop n d) at 1. f_equal.
        apply list_eq. intros i. rewrite lookup_drop.
        destruct i as [|i]; simpl.
        - by rewrite Nat.add_0_r.
        - rewrite lookup_ge_None_2; [done|lia]. }
      destruct (IH (take n d)) as [[m Hm] Hlast].
      { rewrite length_take. lia. }
      split; [|done]. exists (S m).
      rewrite replicate_S_end, app_assoc, <- Hm. done.
    + split; [exists 0%nat; by rewrite app_nil_r|].
      rewrite last_lookup, Hlen. done.
Qed.

Section rrd_config_facts.
Context {xff_t : Type}.
Context (atoi : string → Z) (atof : string → xff_t)
  (xff_bad : xff_t → bool).

Lemma timespans_add_spec realloc_ok i toks custom :
  (∀ j, (j < length toks)%nat → realloc_ok (i + j)%nat = true) →
  timespans_add atoi realloc_ok i toks custom
  = (0, custom ++ filter (λ v, v ≠ 0) (atoi <$> toks)).
Proof.
  revert i custom. induction toks as [|t toks IH]; intros i custom Hok.
  - simpl. by rewrite app_nil_r.
  - simpl. rewrite <- (Nat.add_0_r i) at 1.
    rewrite (Hok 0%nat) by (simpl; lia). simpl.
    rewrite IH.
    2: { intros j Hj. replace (S i + j)%nat with (i + S j)%nat by lia.
         apply Hok. simpl. lia. }
    rewrite filter_cons.
    destruct (Z.eqb_spec (atoi t) 0) as [Heq|Hne]; simpl.
    + by rewrite decide_False by tauto.
    + rewrite decide_True by done. by rewrite <- app_assoc.
Qed.

Lemma timespans_add_prefix realloc_ok i toks custom :
  ∃ more, (timespans_add atoi realloc_ok i toks custom).2 = custom ++ more
          ∧ Forall (λ v, v ≠ 0 ∧ ∃ t, t ∈ toks ∧ v = atoi t) more.
Proof.
  revert i custom. induction toks as [|t toks IH]; intros i custom.
  - exists []. simpl. by rewrite app_nil_r.
  - simpl. destruct (realloc_ok i); simpl.
    2: { exists []. by rewrite app_nil_r. }
    destruct (Z.eqb_spec (atoi t) 0) as [Heq|Hne]; simpl.
    + destruct (IH (S i) custom) as (more & -> & Hmore).
      exists more. split; [done|].
      eapply Forall_impl; [done|]. intros v (? & t' & ? & ->).
      split; [done|]. exists t'. split; [by right|done].
    + destruct (IH (S i) (custom ++ [atoi t])) as (more & -> & Hmore).
      exists (atoi t :: more). rewrite <- app_assoc. split; [done|].
      constructor.
      * split; [done|]. exists t. split; [by left|done].
      * eapply Forall_impl; [done|]. intros v (? & t' & ? & ->).
        split; [done|]. exists t'. split; [by right|done].
Qed.

Lemma rrd_config_changes e key value (g : rrd_globals xff_t) :
  (rrd_config atoi atof xff_bad e key value g).1 ≠ 0 →
  ∃ more,
    (rrd_config atoi atof xff_bad e key value g).2
    = set_rra {| stepsize := stepsize (g_rra g);
                 rrarows := rrarows (g_rra g);
                 rra_timespans_custom :=
                   rra_timespans_custom (g_rra g) ++ more |} g.
Proof.
  assert (g = set_rra {| stepsize := stepsize (g_rra g);
                         rrarows := rrarows (g_rra g);
                         rra_timespans_custom :=
                           rra_timespans_custom (g_rra g) ++ [] |} g)
    as Hsame.
  { rewrite app_nil_r. by destruct g as [? ? ? ? ? []]. }
  unfold rrd_config.
  repeat (match goal with
          | |- context [strcasecmp_eq ?k key] =>
              destruct (strcasecmp_eq k key)
          end;
          [repeat match goal with
                  | |- context [?a <? ?b] => destruct (Z.ltb_spec a b)
                  | |- context [?a <=? ?b] => destruct (Z.leb_spec a b)
                  | |- context [xff_bad ?x] => destruct (xff_bad x)
                  | |- context [ce_strdup e] => destruct (ce_strdup e)
                  end;
           simpl; try done; try (intros _; by exists [])|]).
  - intros _.
    destruct (timespans_add_prefix (ce_realloc e) 0
                (strtok_all (", " +:+ String char_tab "") value)
                (rra_timespans_custom (g_rra g))) as (more & -> & _).
    by exists more.
  - intros _. by exists [].
Qed.

Section atoi_int.
Hypothesis atoi_int : ∀ s, int_range (atoi s).

Lemma rrd_config_ok e key value (g : rrd_globals xff_t) :
  globals_ok g → globals_ok (rrd_config atoi atof xff_bad e key value g).2.
Proof.
  intros [H1 H2 H3 H4 H5 H6 H7]. unfold rrd_config.
  repeat (match goal with
          | |- context [strcasecmp_eq ?k key] =>
              destruct (strcasecmp_eq k key)
          end;
          [repeat match goal with
                  | |- context [?a <? ?b] => destruct (Z.ltb_spec a b)
                  | |- context [?a <=? ?b] => destruct (Z.leb_spec a b)
                  | |- context [xff_bad ?x] => destruct (xff_bad x)
                  | |- context [ce_strdup e] => destruct (ce_strdup e)
                  end;
           simpl; try (by constructor; simpl; try done; try lia)|]).
  - constructor; simpl; try done. intros d [= <-].
    destruct (datadir_strip_spec (length (String.list_ascii_of_string value))
                (String.list_ascii_of_string value) eq_refl) as [_ Hlast].
    rewrite String.list_ascii_of_string_of_list_ascii.
    split; [|done]. intros Hnil.
    apply (f_equal String.list_ascii_of_string) in Hnil.
    rewrite String.list_ascii_of_string_of_list_ascii in Hnil.
    rewrite Hnil in *. simpl in *. lia.
  - constructor; simpl; try done.
    destruct (timespans_add_prefix (ce_realloc e) 0
                (strtok_all (", " +:+ String char_tab "") value)
                (rra_timespans_custom (g_rra g))) as (more & -> & Hmore).
    apply Forall_app. split; [done|].
    eapply Forall_impl; [done|]. intros v (? & t & ? & ->). done.
  - by constructor.
Qed.

Lemma globals0_ok (xff0 : xff_t) : globals_ok (globals0 xff0).
Proof. constructor; simpl; try done; try lia. Qed.

Lemma configure_ok calls (g : rrd_globals xff_t) :
  globals_ok g → globals_ok (configure atoi atof xff_bad calls g).
Proof.
  revert g. induction calls as [|c calls IH]; intros g Hg; [done|].
  simpl. apply IH. by apply rrd_config_ok.
Qed.

Lemma rra_rts_int (g : rrd_globals xff_t) :
  globals_ok g → Forall int_range (rra_rts (g_rra g)).
Proof.
  intros Hg. unfold rra_rts. case_bool_decide.
  - repeat constructor; simpl; lia.
  - eapply Forall_impl; [apply (go_timespans _ Hg)|]. by intros ? [_ ?].
Qed.

End atoi_int.
End rrd_config_facts.

Lemma strcasecmp_eq_other (k k' key : string) :
  strcasecmp_eq k key = true → string_lower k' ≠ string_lower k →
  strcasecmp_eq k' key = false.
Proof.
  unfold strcasecmp_eq. intros Hk%bool_decide_eq_true Hne.
  apply bool_decide_eq_false. congruence.
Qed.

Lemma int_wrap_range (z : Z) : int_range (int_wrap z).
Proof.
  unfold int_range, int_wrap.
  pose proof (Z.mod_pos_bound (z + 2 ^ 31) (2 ^ 32)). lia.
Qed.

Lemma string_of_list_ascii_app (a b : list Ascii.ascii) :
  String.string_of_list_ascii (a ++ b)
  = String.string_of_list_ascii a +:+ String.string_of_list_ascii b.
Proof.
  induction a as [|x a IH]; [done|].
  simpl. by rewrite IH.
Qed.

Lemma string_app_nil_r (a : string) : a +:+ "" = a.
Proof.
  induction a as [|x a IH]; [done|].
  rewrite string_app_cons. by rewrite IH.
Qed.

Lemma strtok_go_token delim cur (t s : string) :
  Forall (λ c, c ∉ delim) (String.list_ascii_of_string t) →
  strtok_go delim cur (t +:+ s)
  = strtok_go delim (reverse (String.list_ascii_of_string t) ++ cur) s.
Proof.
  revert cur. induction t as [|c t IH]; intros cur Ht; [done|].
  simpl in Ht. apply Forall_cons in Ht as [Hc Ht].
  rewrite string_app_cons. simpl.
  rewrite bool_decide_eq_false_2 by done.
  rewrite IH by done. by rewrite reverse_cons, <- app_assoc.
Qed.

Lemma strtok_go_separator delim cur (sep s : string) :
  sep ≠ "" →
  Forall (λ c, c ∈ delim) (String.list_ascii_of_string sep) →
  strtok_go delim cur (sep +:+ s) = strtok_end cur ++ strtok_go delim [] s.
Proof.
  revert cur. induction sep as [|c sep IH]; intros cur Hne Hsep; [done|].
  simpl in Hsep. apply Forall_cons in Hsep as [Hc Hsep].
  rewrite string_app_cons. simpl.
  rewrite bool_decide_eq_true_2 by done.
  destruct (decide (sep = "")) as [->|Hne']; [done|].
  by rewrite IH.
Qed.

Lemma strtok_end_token (t : string) :
  t ≠ "" →
  strtok_end (reverse (String.list_ascii_of_string t) ++ []) = [t].
Proof.
  intros Hne. rewrite app_nil_r. unfold strtok_end.
  destruct (reverse (String.list_ascii_of_string t)) as [|c l] eqn:Hrev.
  - apply (f_equal reverse) in Hrev. rewrite reverse_involutive in Hrev.
    destruct t; done.
  - rewrite <- Hrev, reverse_involutive.
    by rewrite String.string_of_list_ascii_of_string.
Qed.

Lemma strtok_all_concat (delim sep : string) (toks : list string) :
  separator_of delim sep → Forall (token_of delim) toks →
  strtok_all delim (String.concat sep toks) = toks.
Proof.
  intros [Hsep1 Hsep2] Htoks. unfold strtok_all.
  induction Htoks as [|t toks [Ht1 Ht2] Htoks IH]; [done|].
  destruct toks as [|t' toks].
  - simpl. rewrite <- (string_app_nil_r t) at 1.
    rewrite strtok_go_token by done. simpl.
    by apply strtok_end_token.
  - change (String.concat sep (t :: t' :: toks))
      with (t +:+ sep +:+ String.concat sep (t' :: toks)).
    rewrite strtok_go_token by done.
    rewrite strtok_go_separator by done.
    rewrite strtok_end_token by done. by rewrite IH.
Qed.

Lemma atoi_dec_int (s : string) : int_range (atoi_dec s).
Proof. apply int_wrap_range. Qed.

Lemma timespans_add_status atoi realloc_ok i toks custom :
  (timespans_add atoi realloc_ok i toks custom).1 = 0
  ∨ (timespans_add atoi realloc_ok i toks custom).1 = 1.
Proof.
  revert i custom. induction toks as [|t toks IH]; intros i custom.
  - by left.
  - simpl. destruct (realloc_ok i); simpl; [apply IH|by right].
Qed.

Lemma rra_get_first (cfg : rra_config) :
  1 ≤ stepsize cfg → 1 ≤ rrarows cfg → Forall int_range (rra_rts cfg) →
  (rra_get true cfg rra_static0).1
  = (Z.of_nat (length (rra_spec true (stepsize cfg) (rrarows cfg)
                         (rra_rts cfg))),
     Some (rra_spec true (stepsize cfg) (rrarows cfg) (rra_rts cfg))).
Proof.
  intros Hs Hr Hspans. unfold rra_get, rra_compute. simpl.
  destruct (Z.leb_spec (stepsize cfg) 0); [lia|].
  destruct (Z.leb_spec (rrarows cfg) 0); [lia|]. simpl.
  rewrite (rra_visit_spec cfg _ 0 0 []); [done..|lia|lia].
Qed.

(** X17: [DataDir] stores the value without its trailing slashes, and
    no directory at all when nothing is left: the call returns 0,
    changes no other variable, and the directory it stores is never
    empty and never ends in a slash. *)
Theorem rrd_config_datadir {xff_t : Type} (atoi : string → Z)
    (atof : string → xff_t) (xff_bad : xff_t → bool) (e : config_env)
    (key value : string) (g : rrd_globals xff_t) :
  strcasecmp_eq "DataDir" key = true → ce_strdup e = true →
  ∃ (dd : option string) (n : nat),
    rrd_config atoi atof xff_bad e key value g
    = (0, {| g_cache_timeout := g_cache_timeout g;
             g_cache_flush_timeout := g_cache_flush_timeout g;
             g_datadir := dd; g_heartbeat := g_heartbeat g;
             g_xff := g_xff g; g_rra := g_rra g |})
    ∧ String.list_ascii_of_string value
      = String.list_ascii_of_string (default "" dd)
        ++ replicate n char_slash
    ∧ dd ≠ Some ""
    ∧ last (String.list_ascii_of_string (default "" dd))
      ≠ Some char_slash.
Proof.
  intros Hkey Hdup. unfold rrd_config.
  rewrite (strcasecmp_eq_other _ "CacheTimeout" _ Hkey) by done.
  rewrite (strcasecmp_eq_other _ "CacheFlush" _ Hkey) by done.
  rewrite Hkey, Hdup.
  destruct (datadir_strip_spec (length (String.list_ascii_of_string value))
              (String.list_ascii_of_string value) eq_refl)
    as [[n Hn] Hlast].
  set (d' := datadir_strip _ _) in *.
  destruct (Z.leb_spec (Z.of_nat (length d')) 0) as [Hle|Hgt].
  - exists None, n. destruct d'; [|simpl in Hle; lia]. done.
  - exists (Some (String.string_of_list_ascii d')), n. simpl.
    rewrite String.list_ascii_of_string_of_list_ascii.
    split_and!; [done..| |done].
    intros [= Hnil]. apply (f_equal String.list_ascii_of_string) in Hnil.
    rewrite String.list_ascii_of_string_of_list_ascii in Hnil.
    rewrite Hnil in Hgt. simpl in Hgt. lia.
Qed.

Lemma rrd_config_datadir_witness :
  ∃ (dd : option string) (n : nat),
    rrd_config atoi_dec (λ _, ()) (λ _, false) env_ok "datadir"
      "/var/lib/collectd//" (globals0 ())
    = (0, {| g_cache_timeout := 0; g_cache_flush_timeout := 0;
             g_datadir := dd; g_heartbeat := 0; g_xff := ();
             g_rra := g_rra (globals0 ()) |})
    ∧ String.list_ascii_of_string "/var/lib/collectd//"
      = String.list_ascii_of_string (default "" dd)
        ++ replicate n char_slash
    ∧ dd ≠ Some ""
    ∧ last (String.list_ascii_of_string (default "" dd))
      ≠ Some char_slash.
Proof.
  apply (rrd_config_datadir atoi_dec (λ _, ()) (λ _, false) env_ok
           "datadir" "/var/lib/collectd//" (globals0 ())); reflexivity.
Defined.

(** X18: whatever the configuration calls were and whatever they
    returned, after [rrd_init] has set its defaults (with a collection
    interval of at least one second and below [2 ^ 30], so that twice
    the interval is an [int]) the step size, the heartbeat and
    the number of rows are positive, so [rra_get] does not fail: it
    returns the archives of the step size, the row count and the
    timespans in force. *)
Theorem configured_rra_get {xff_t : Type} (atoi : string → Z)
    (atof : string → xff_t) (xff_bad : xff_t → bool)
    (calls : list (config_env * string * string)) (xff0 : xff_t)
    (interval_g : Z) :
  (∀ s, int_range (atoi s)) → 1 ≤ interval_g < 2 ^ 30 →
  let g := rrd_init_globals interval_g
             (configure atoi atof xff_bad calls (globals0 xff0)) in
  1 ≤ stepsize (g_rra g) ∧ 1 ≤ g_heartbeat g ∧ 1 ≤ rrarows (g_rra g)
  ∧ (rra_get true (g_rra g) rra_static0).1
    = (Z.of_nat (length (rra_spec true (stepsize (g_rra g))
                           (rrarows (g_rra g)) (rra_rts (g_rra g)))),
       Some (rra_spec true (stepsize (g_rra g)) (rrarows (g_rra g))
               (rra_rts (g_rra g)))).
Proof.
  intros Hatoi Hint g.
  pose proof (configure_ok atoi atof xff_bad Hatoi calls _
                (globals0_ok xff0)) as Hok.
  set (g0 := configure atoi atof xff_bad calls (globals0 xff0)) in *.
  assert (1 ≤ stepsize (g_rra g)) as Hs.
  { unfold g, rrd_init_globals. simpl.
    destruct (Z.leb_spec (stepsize (g_rra g0)) 0); lia. }
  assert (1 ≤ g_heartbeat g) as Hh.
  { unfold g, rrd_init_globals. simpl.
    destruct (Z.leb_spec (g_heartbeat g0) 0); [|lia].
    rewrite int_wrap_small; [lia|]. unfold int_range. lia. }
  assert (1 ≤ rrarows (g_rra g)) as Hr.
  { unfold g, rrd_init_globals. simpl. apply (go_rrarows _ Hok). }
  split_and!; [done..|].
  apply rra_get_first; [done..|].
  apply (rra_rts_int (rrd_init_globals interval_g g0)).
  destruct Hok. constructor; simpl; try done.
  - destruct (Z.leb_spec (stepsize (g_rra g0)) 0); lia.
  - destruct (Z.leb_spec (g_heartbeat g0) 0); [|lia].
    rewrite int_wrap_small; [lia|]. unfold int_range. lia.
Qed.

Lemma configured_rra_get_witness :
  let g := rrd_init_globals 10
             (configure atoi_dec (λ _, ()) (λ _, false) calls_s1
                (globals0 ())) in
  1 ≤ stepsize (g_rra g) ∧ 1 ≤ g_heartbeat g ∧ 1 ≤ rrarows (g_rra g)
  ∧ (rra_get true (g_rra g) rra_static0).1
    = (Z.of_nat (length (rra_spec true (stepsize (g_rra g))
                           (rrarows (g_rra g)) (rra_rts (g_rra g)))),
       Some (rra_spec true (stepsize (g_rra g)) (rrarows (g_rra g))
               (rra_rts (g_rra g)))).
Proof.
  apply (configured_rra_get atoi_dec (λ _, ()) (λ _, false) calls_s1 () 10).
  - apply atoi_dec_int.
  - lia.
Defined.

(** X19: [rrd_config] returns -1 exactly for a key that is none of
    [config_keys] (compared without regard to case); and a call that
    does not return 0 changes no variable, except that a failing
    [RRATimespan] keeps the timespans it has appended so far. *)
Theorem rrd_config_failure {xff_t : Type} (atoi : string → Z)
    (atof : string → xff_t) (xff_bad : xff_t → bool) (e : config_env)
    (key value : string) (g : rrd_globals xff_t) :
  ((rrd_config atoi atof xff_bad e key value g).1 = -1
   ↔ Forall (λ k, strcasecmp_eq k key = false) config_keys)
  ∧ ((rrd_config atoi atof xff_bad e key value g).1 ≠ 0 →
     ∃ more,
       (rrd_config atoi atof xff_bad e key value g).2
       = set_rra {| stepsize := stepsize (g_rra g);
                    rrarows := rrarows (g_rra g);
                    rra_timespans_custom :=
                      rra_timespans_custom (g_rra g) ++ more |} g
       ∧ (strcasecmp_eq "RRATimespan" key = false → more = [])).
Proof.
  split.
  - unfold config_keys. rewrite !Forall_cons, Forall_nil.
    unfold rrd_config.
    repeat (match goal with
            | |- context [strcasecmp_eq ?k key] =>
                destruct (strcasecmp_eq k key) eqn:?
            end;
            [repeat match goal with
                    | |- context [?a <? ?b] => destruct (Z.ltb_spec a b)
                    | |- context [?a <=? ?b] => destruct (Z.leb_spec a b)
                    | |- context [xff_bad ?x] => destruct (xff_bad x)
                    | |- context [ce_strdup e] => destruct (ce_strdup e)
                    end;
             simpl; try (split; [done|]; intros ?; by destruct_and!)|]).
    all: try destruct (timespans_add_status atoi (ce_realloc e) 0
                         (strtok_all (", " +:+ String char_tab "") value)
                         (rra_timespans_custom (g_rra g))) as [-> | ->].
    all: simpl; intuition congruence.
  - intros Hst.
    assert (g = set_rra {| stepsize := stepsize (g_rra g);
                           rrarows := rrarows (g_rra g);
                           rra_timespans_custom :=
                             rra_timespans_custom (g_rra g) ++ [] |} g)
      as Hsame.
    { rewrite app_nil_r. by destruct g as [? ? ? ? ? []]. }
    revert Hst. unfold rrd_config.
    repeat (match goal with
            | |- context [strcasecmp_eq ?k key] =>
                destruct (strcasecmp_eq k key) eqn:?
            end;
            [repeat match goal with
                    | |- context [?a <? ?b] => destruct (Z.ltb_spec a b)
                    | |- context [?a <=? ?b] => destruct (Z.leb_spec a b)
                    | |- context [xff_bad ?x] => destruct (xff_bad x)
                    | |- context [ce_strdup e] => destruct (ce_strdup e)
                    end;
             simpl; try done; try (intros _; by exists [])|]).
    + intros _.
      destruct (timespans_add_prefix atoi (ce_realloc e) 0
                  (strtok_all (", " +:+ String char_tab "") value)
                  (rra_timespans_custom (g_rra g))) as (more & -> & _).
      by exists more.
    + intros _. by exists [].
Qed.

Lemma rrd_config_failure_witness :
  (rrd_config atoi_dec (λ _, ()) (λ _, false) env_ok "Colour" "red"
     (globals0 ())).1 = -1.
Proof.
  apply (proj1 (rrd_config_failure atoi_dec (λ _, ()) (λ _, false) env_ok
                  "Colour" "red" (globals0 ()))).
  repeat constructor.
Defined.

(** X20: [RRATimespan] with a value made of tokens joined by a
    separator of commas, blanks and tabs appends, when no allocation
    fails, the numbers [atoi] reads from the tokens, in their order and
    without those that are 0, to the custom timespans, and returns 0. *)
Theorem rrd_config_timespans {xff_t : Type} (atoi : string → Z)
    (atof : string → xff_t) (xff_bad : xff_t → bool) (e : config_env)
    (key sep : string) (toks : list string) (g : rrd_globals xff_t) :
  strcasecmp_eq "RRATimespan" key = true →
  ce_strdup e = true →
  (∀ i, (i < length toks)%nat → ce_realloc e i = true) →
  separator_of (", " +:+ String char_tab "") sep →
  Forall (token_of (", " +:+ String char_tab "")) toks →
  rrd_config atoi atof xff_bad e key (String.concat sep toks) g
  = (0, set_rra {| stepsize := stepsize (g_rra g);
                   rrarows := rrarows (g_rra g);
                   rra_timespans_custom :=
                     rra_timespans_custom (g_rra g)
                     ++ filter (λ v, v ≠ 0) (atoi <$> toks) |} g).
Proof.
  intros Hkey Hdup Hre Hsep Htoks. unfold rrd_config.
  rewrite (strcasecmp_eq_other _ "CacheTimeout" _ Hkey) by done.
  rewrite (strcasecmp_eq_other _ "CacheFlush" _ Hkey) by done.
  rewrite (strcasecmp_eq_other _ "DataDir" _ Hkey) by done.
  rewrite (strcasecmp_eq_other _ "StepSize" _ Hkey) by done.
  rewrite (strcasecmp_eq_other _ "HeartBeat" _ Hkey) by done.
  rewrite (strcasecmp_eq_other _ "RRARows" _ Hkey) by done.
  rewrite Hkey, Hdup. simpl.
  rewrite strtok_all_concat by done.
  rewrite timespans_add_spec by done. done.
Qed.

Lemma rrd_config_timespans_witness :
  rrd_config atoi_dec (λ _, ()) (λ _, false) env_ok "rratimespan"
    (String.concat ", " ["3600"; "0"; "86400"]) (globals0 ())
  = (0, set_rra {| stepsize := 0; rrarows := 1200;
                   rra_timespans_custom := [3600; 86400] |} (globals0 ())).
Proof.
  apply (rrd_config_timespans atoi_dec (λ _, ()) (λ _, false) env_ok
           "rratimespan" ", " ["3600"; "0"; "86400"] (globals0 ())).
  - reflexivity.
  - reflexivity.
  - reflexivity.
  - split; [done|]. apply (bool_decide_unpack _). vm_compute. exact I.
  - repeat constructor; try done;
      apply (bool_decide_unpack _); vm_compute; exact I.
Defined.

(** ** The list of sensors *)

Section sensor_list_facts.
Context {ipmi_sensor_id_t : Type}.
Context (cmp : ipmi_sensor_id_t → ipmi_sensor_id_t → Z).
Hypothesis cmp_eq : ∀ a b, cmp a b = 0 ↔ a = b.

Lemma sensor_list_search_none id l :
  sensor_list_search cmp id l = None ↔ id ∉ l.
Proof.
  induction l as [|x l IH]; simpl.
  - split; [intros _; apply not_elem_of_nil|done].
  - destruct (Z.eqb_spec (cmp id x) 0) as [Heq|Hne].
    + apply cmp_eq in Heq as ->. split; [done|].
      intros []. by left.
    + rewrite fmap_None, IH, not_elem_of_cons.
      rewrite cmp_eq in Hne. tauto.
Qed.

Lemma sensor_list_search_some id l i :
  sensor_list_search cmp id l = Some i →
  l !! i = Some id ∧ id ∉ take i l.
Proof.
  revert i. induction l as [|x l IH]; intros i; simpl; [done|].
  destruct (Z.eqb_spec (cmp id x) 0) as [Heq|Hne].
  - apply cmp_eq in Heq as ->. intros [= <-]. simpl.
    split; [done|apply not_elem_of_nil].
  - intros (j & Hj & ->)%fmap_Some. simpl.
    destruct (IH j Hj) as [? ?]. split; [done|].
    rewrite not_elem_of_cons. rewrite cmp_eq in Hne. done.
Qed.

Lemma sensor_list_add_nodup c id l :
  NoDup l → NoDup (sensor_list_add cmp c id l).2.
Proof.
  intros Hnd. unfold sensor_list_add.
  destruct (sensor_list_search cmp id l) eqn:Hs; [done|].
  destruct c; [|done]. simpl.
  apply sensor_list_search_none in Hs.
  apply NoDup_app. split_and!; [done| |apply NoDup_singleton].
  intros x Hx ->%list_elem_of_singleton. done.
Qed.

Lemma sensor_list_remove_nodup id l :
  NoDup l → NoDup (sensor_list_remove cmp id l).2.
Proof.
  intros Hnd. unfold sensor_list_remove.
  destruct (sensor_list_search cmp id l) as [i|] eqn:Hs; [|done].
  simpl. eapply sublist_NoDup; eauto using sublist_delete.
Qed.

Lemma sensor_step_nodup l ev :
  NoDup l → NoDup (sensor_step cmp l ev).
Proof.
  intros Hnd. destruct ev as [[] c id|id|]; simpl.
  - by apply sensor_list_add_nodup.
  - by apply sensor_list_remove_nodup.
  - by apply sensor_list_add_nodup.
  - by apply sensor_list_remove_nodup.
  - apply NoDup_nil_2.
Qed.

Lemma sensor_run_nodup evs : NoDup (sensor_run cmp evs).
Proof.
  unfold sensor_run. generalize (NoDup_nil_2 (A := ipmi_sensor_id_t)).
  generalize (@nil ipmi_sensor_id_t).
  induction evs as [|ev evs IH]; intros l Hl; [done|].
  simpl. apply IH. by apply sensor_step_nodup.
Qed.

Lemma filter_all {A} (P : A → Prop) `{∀ x, Decision (P x)} (l : list A) :
  Forall P l → filter P l = l.
Proof.
  induction 1 as [|x l Hx Hl IH]; [done|].
  rewrite filter_cons_True by done. by rewrite IH.
Qed.

Lemma sensor_list_remove_filter id l :
  NoDup l →
  (sensor_list_remove cmp id l).2 = filter (λ x, cmp id x ≠ 0) l.
Proof.
  intros Hnd. unfold sensor_list_remove.
  induction Hnd as [|x l Hx Hnd IH]; [done|].
  simpl. rewrite filter_cons.
  destruct (Z.eqb_spec (cmp id x) 0) as [Heq|Hne].
  - rewrite decide_False by tauto. simpl.
    apply cmp_eq in Heq as ->.
    symmetry. apply filter_all. apply Forall_forall. intros y Hy Hc.
    apply cmp_eq in Hc as <-. done.
  - rewrite decide_True by done.
    destruct (sensor_list_search cmp id l) as [i|]; simpl in *.
    + by rewrite IH.
    + by rewrite <- IH.
Qed.

Lemma sensor_list_remove_status id l :
  ((sensor_list_remove cmp id l).1 = 0 ↔ id ∈ l)
  ∧ ((sensor_list_remove cmp id l).1 = -1 ↔ id ∉ l).
Proof.
  unfold sensor_list_remove.
  destruct (sensor_list_search cmp id l) as [i|] eqn:Hs; simpl.
  - apply sensor_list_search_some in Hs as [Hi _].
    apply list_elem_of_lookup_2 in Hi. split; split; done.
  - apply sensor_list_search_none in Hs. split; split; done.
Qed.

Lemma sensor_list_add_remove id l :
  id ∉ l →
  sensor_list_remove cmp id (sensor_list_add cmp true id l).2 = (0, l).
Proof.
  intros Hid. unfold sensor_list_add.
  rewrite (proj2 (sensor_list_search_none id l) Hid). simpl.
  unfold sensor_list_remove.
  destruct (sensor_list_search cmp id (l ++ [id])) as [i|] eqn:Hs.
  - apply sensor_list_search_some in Hs as [Hi Hpre].
    assert (i = length l) as ->.
    { destruct (decide (i < length l)%nat) as [Hlt|Hge].
      - rewrite lookup_app_l in Hi by done.
        apply list_elem_of_lookup_2 in Hi. done.
      - apply lookup_lt_Some in Hi. rewrite length_app in Hi.
        simpl in Hi. lia. }
    f_equal. rewrite delete_take_drop.
    rewrite take_app_length, drop_ge; [by rewrite app_nil_r|].
    rewrite length_app. simpl. lia.
  - apply sensor_list_search_none in Hs. exfalso. apply Hs.
    apply elem_of_app. right. by left.
Qed.

Lemma sensor_list_add_facts c id l :
  ((sensor_list_add cmp c id l).1 = 0
   ↔ id ∈ (sensor_list_add cmp c id l).2)
  ∧ ((sensor_list_add cmp c id l).1 = -1 ↔ (id ∉ l) ∧ c = false)
  ∧ (id ∈ l ∨ c = false → (sensor_list_add cmp c id l).2 = l)
  ∧ (id ∉ l → c = true → (sensor_list_add cmp c id l).2 = l ++ [id]).
Proof.
  unfold sensor_list_add.
  destruct (sensor_list_search cmp id l) as [i|] eqn:Hs.
  - apply sensor_list_search_some in Hs as [Hi _].
    apply list_elem_of_lookup_2 in Hi. simpl.
    split_and!; [done| |done|done]. split; [done|tauto].
  - apply sensor_list_search_none in Hs. destruct c; simpl.
    + split_and!; [|split; [done|by intros [_ ?]]|by intros [?|?]|done].
      split; [|done]. intros _. apply elem_of_app. right. by left.
    + split_and!; done.
Qed.

End sensor_list_facts.

Lemma cmp_Z_eq (a b : Z) : cmp_Z a b = 0 ↔ a = b.
Proof. unfold cmp_Z. lia. Qed.

(** X21: the list of sensors never holds a sensor twice, whatever
    updates, failed readings and shutdowns have happened and whichever
    allocations have failed (given that [ipmi_cmp_sensor_id] returns 0
    for equal ids only). *)
Theorem sensor_list_no_duplicates {ipmi_sensor_id_t : Type}
    (cmp : ipmi_sensor_id_t → ipmi_sensor_id_t → Z)
    (evs : list (sensor_event (ipmi_sensor_id_t := ipmi_sensor_id_t))) :
  (∀ a b, cmp a b = 0 ↔ a = b) → NoDup (sensor_run cmp evs).
Proof. intros Hcmp. by apply sensor_run_nodup. Qed.

Lemma sensor_list_no_duplicates_witness :
  NoDup (sensor_run cmp_Z
           [SensorUpdate IPMI_ADDED true 3; SensorUpdate IPMI_CHANGED true 3;
            SensorUpdate IPMI_ADDED true 5; SensorDropped 3;
            SensorUpdate IPMI_ADDED false 7]).
Proof. apply (sensor_list_no_duplicates cmp_Z _ cmp_Z_eq). Defined.

(** X22: [sensor_list_add] returns 0 exactly when the sensor is in the
    list afterwards, and -1 exactly when the sensor was not in the list
    and [calloc] failed; a sensor that is already listed, or a failed
    allocation, leaves the list as it is, and a new sensor goes to the
    end of the list. *)
Theorem sensor_list_add_result {ipmi_sensor_id_t : Type}
    (cmp : ipmi_sensor_id_t → ipmi_sensor_id_t → Z) (calloc_ok : bool)
    (sensor_id : ipmi_sensor_id_t) (l : list ipmi_sensor_id_t) :
  (∀ a b, cmp a b = 0 ↔ a = b) →
  ((sensor_list_add cmp calloc_ok sensor_id l).1 = 0
   ↔ sensor_id ∈ (sensor_list_add cmp calloc_ok sensor_id l).2)
  ∧ ((sensor_list_add cmp calloc_ok sensor_id l).1 = -1
     ↔ (sensor_id ∉ l) ∧ calloc_ok = false)
  ∧ (sensor_id ∈ l ∨ calloc_ok = false →
     (sensor_list_add cmp calloc_ok sensor_id l).2 = l)
  ∧ (sensor_id ∉ l → calloc_ok = true →
     (sensor_list_add cmp calloc_ok sensor_id l).2 = l ++ [sensor_id]).
Proof. intros Hcmp. by apply sensor_list_add_facts. Qed.

Lemma sensor_list_add_result_witness :
  ((sensor_list_add cmp_Z true 7 [3; 5]).1 = 0
   ↔ 7 ∈ (sensor_list_add cmp_Z true 7 [3; 5]).2)
  ∧ ((sensor_list_add cmp_Z true 7 [3; 5]).1 = -1
     ↔ (7 ∉ [3; 5]) ∧ true = false)
  ∧ (7 ∈ [3; 5] ∨ true = false →
     (sensor_list_add cmp_Z true 7 [3; 5]).2 = [3; 5])
  ∧ (7 ∉ [3; 5] → true = true →
     (sensor_list_add cmp_Z true 7 [3; 5]).2 = [3; 5] ++ [7]).
Proof. apply (sensor_list_add_result cmp_Z true 7 [3; 5] cmp_Z_eq). Defined.

(** X23: on a list without duplicates [sensor_list_remove] returns 0
    when the sensor is in the list and -1 when it is not, and leaves
    the other sensors, in their order: the sensor is not in the list
    afterwards. *)
Theorem sensor_list_remove_result {ipmi_sensor_id_t : Type}
    (cmp : ipmi_sensor_id_t → ipmi_sensor_id_t → Z)
    (sensor_id : ipmi_sensor_id_t) (l : list ipmi_sensor_id_t) :
  (∀ a b, cmp a b = 0 ↔ a = b) → NoDup l →
  ((sensor_list_remove cmp sensor_id l).1 = 0 ↔ sensor_id ∈ l)
  ∧ ((sensor_list_remove cmp sensor_id l).1 = -1 ↔ sensor_id ∉ l)
  ∧ (sensor_list_remove cmp sensor_id l).2
    = filter (λ x, cmp sensor_id x ≠ 0) l
  ∧ sensor_id ∉ (sensor_list_remove cmp sensor_id l).2.
Proof.
  intros Hcmp Hnd.
  destruct (sensor_list_remove_status cmp Hcmp sensor_id l) as [H0 H1].
  split_and!; [done|done|by apply sensor_list_remove_filter|].
  rewrite sensor_list_remove_filter by done.
  rewrite list_elem_of_filter. intros [Hne _]. apply Hne. by apply Hcmp.
Qed.

Lemma sensor_list_remove_result_witness :
  ((sensor_list_remove cmp_Z 5 [3; 5; 7]).1 = 0 ↔ 5 ∈ [3; 5; 7])
  ∧ ((sensor_list_remove cmp_Z 5 [3; 5; 7]).1 = -1 ↔ 5 ∉ [3; 5; 7])
  ∧ (sensor_list_remove cmp_Z 5 [3; 5; 7]).2
    = filter (λ x, cmp_Z 5 x ≠ 0) [3; 5; 7]
  ∧ 5 ∉ (sensor_list_remove cmp_Z 5 [3; 5; 7]).2.
Proof.
  apply (sensor_list_remove_result cmp_Z 5 [3; 5; 7] cmp_Z_eq).
  apply (bool_decide_unpack _). vm_compute. exact I.
Defined.

(** X24: removing a sensor that has just been added to a list that did
    not hold it succeeds and gives the list back as it was. *)
Theorem sensor_list_add_then_remove {ipmi_sensor_id_t : Type}
    (cmp : ipmi_sensor_id_t → ipmi_sensor_id_t → Z)
    (sensor_id : ipmi_sensor_id_t) (l : list ipmi_sensor_id_t) :
  (∀ a b, cmp a b = 0 ↔ a = b) → sensor_id ∉ l →
  sensor_list_remove cmp sensor_id (sensor_list_add cmp true sensor_id l).2
  = (0, l).
Proof. intros Hcmp Hid. by apply sensor_list_add_remove. Qed.

Lemma sensor_list_add_then_remove_witness :
  sensor_list_remove cmp_Z 7 (sensor_list_add cmp_Z true 7 [3; 5]).2
  = (0, [3; 5]).
Proof.
  apply (sensor_list_add_then_remove cmp_Z 7 [3; 5] cmp_Z_eq).
  apply (bool_decide_unpack _). vm_compute. exact I.
Defined.
